(** * Embedding Builder: chunker, working copies, job ledger, vector store
    and the embedding pipeline.

  A shallow embedding of the TypeScript sources.  Pure code (the chunker)
  is embedded as functions.  Code that awaits an external collaborator
  (git, the file system, MongoDB, OpenAI, Pinecone, the logger, timers) is
  embedded in a small monad: a tree of requests to the outside world,
  layered with JavaScript exceptions and the one piece of module state the
  sources mutate (the [initialized] flag of the Pinecone service). *)

From Stdlib Require Import ZArith Ascii String List Lia Bool.
From Stdlib Require Import Floats.PrimFloat.
From Stdlib Require Import Sorted.
From stdpp Require Import base tactics option list strings numbers pretty gmap sorting.

Set Default Proof Using "Type".
Set Warnings "-register-all".
Set Warnings "-notation-overridden".
Local Open Scope Z_scope.

(** ** JavaScript strings

  Strings are sequences of characters of [ascii]; the claims never look
  inside a character other than to compare it with ['\n'], ['/'], ['.'],
  a decimal digit or a letter of the Latin alphabet. *)

Module Js.

Definition LF : ascii := "010"%char.
Definition newline : string := String LF EmptyString.

(** [s.split('\n')]: the pieces between the separators; never empty. *)
Fixpoint split (sep : ascii) (s : string) : list string :=
  match s with
  | EmptyString => [EmptyString]
  | String c rest =>
      if Ascii.eqb c sep then EmptyString :: split sep rest
      else match split sep rest with
           | piece :: pieces => String c piece :: pieces
           | [] => [String c EmptyString]
           end
  end.

(** [xs.join(sep)]. *)
Fixpoint join (sep : string) (xs : list string) : string :=
  match xs with
  | [] => EmptyString
  | [x] => x
  | x :: rest => x +:+ sep +:+ join sep rest
  end.

Definition lower_char (c : ascii) : ascii :=
  let n := nat_of_ascii c in
  if ((65 <=? n) && (n <=? 90))%nat then ascii_of_nat (n + 32) else c.

(** [s.toLowerCase()] on the Latin letters. *)
Fixpoint toLowerCase (s : string) : string :=
  match s with
  | EmptyString => EmptyString
  | String c rest => String (lower_char c) (toLowerCase rest)
  end.

(** [xs.includes(x)] on an array of strings. *)
Definition includes (xs : list string) (x : string) : bool :=
  existsb (String.eqb x) xs.

(** [s.startsWith(p)]. *)
Definition startsWith (s p : string) : bool := String.prefix p s.

(** [s.slice(a, b)] for [0 <= a <= b <= s.length]. *)
Definition slice (s : string) (a b : Z) : string :=
  String.substring (Z.to_nat a) (Z.to_nat (b - a)) s.

(** Truthiness of an optional string: [undefined] and [''] are falsy. *)
Definition truthy (o : option string) : bool :=
  match o with
  | Some (String _ _) => true
  | _ => false
  end.

(** [o || dflt] on an optional string. *)
Definition or_else (o : option string) (dflt : string) : string :=
  match o with
  | Some (String c s) => String c s
  | _ => dflt
  end.

End Js.

(** ** Node's [path] module (POSIX flavour) *)

Module Path.

Record ext_state := {
  startDot : Z;
  startPart : Z;
  end_ : Z;
  matchedSlash : bool;
  preDotState : Z
}.

Definition ext_init : ext_state :=
  {| startDot := -1; startPart := 0; end_ := -1;
     matchedSlash := true; preDotState := 0 |}.

(** The backwards scan of [path.extname]: [rchars] holds the characters
    at positions [i], [i-1], ..., [0]. *)
Fixpoint extname_scan (rchars : list ascii) (i : Z) (st : ext_state) : ext_state :=
  match rchars with
  | [] => st
  | code :: rest =>
      if Ascii.eqb code "/" then
        if negb (matchedSlash st) then
          {| startDot := startDot st; startPart := i + 1; end_ := end_ st;
             matchedSlash := matchedSlash st; preDotState := preDotState st |}
        else extname_scan rest (i - 1) st
      else
        let st1 :=
          if end_ st =? -1 then
            {| startDot := startDot st; startPart := startPart st; end_ := i + 1;
               matchedSlash := false; preDotState := preDotState st |}
          else st in
        let st2 :=
          if Ascii.eqb code "." then
            if startDot st1 =? -1 then
              {| startDot := i; startPart := startPart st1; end_ := end_ st1;
                 matchedSlash := matchedSlash st1; preDotState := preDotState st1 |}
            else if negb (preDotState st1 =? 1) then
              {| startDot := startDot st1; startPart := startPart st1; end_ := end_ st1;
                 matchedSlash := matchedSlash st1; preDotState := 1 |}
            else st1
          else if negb (startDot st1 =? -1) then
            {| startDot := startDot st1; startPart := startPart st1; end_ := end_ st1;
               matchedSlash := matchedSlash st1; preDotState := -1 |}
          else st1 in
        extname_scan rest (i - 1) st2
  end.

(** [path.extname(p)]. *)
Definition extname (p : string) : string :=
  let chars := list_ascii_of_string p in
  let st := extname_scan (rev chars) (Z.of_nat (length chars) - 1) ext_init in
  if (startDot st =? -1) || (end_ st =? -1) || (preDotState st =? 0)
     || ((preDotState st =? 1) && (startDot st =? end_ st - 1)
         && (startDot st =? startPart st + 1))
  then EmptyString
  else Js.slice p (startDot st) (end_ st).

Definition is_sep (c : ascii) : bool := Ascii.eqb c "/".

Definition starts_with_sep (p : string) : bool :=
  match p with
  | String c _ => is_sep c
  | EmptyString => false
  end.

Fixpoint ends_with_sep (p : string) : bool :=
  match p with
  | EmptyString => false
  | String c EmptyString => is_sep c
  | String _ rest => ends_with_sep rest
  end.

(** One separator met by [normalizeString], seen on the segment that ends
    there; [res] holds the segments kept so far, the last one first.  An
    empty segment and ["."] are dropped; [".."] removes the last segment
    kept, unless there is none or it is [".."] itself, in which case it
    is kept when the path is relative ([allowAboveRoot]) and dropped
    otherwise; any other segment is kept. *)
Definition normalize_segment (allowAboveRoot : bool) (res : list string)
    (segment : string) : list string :=
  if String.eqb segment "" || String.eqb segment "." then res
  else if String.eqb segment ".." then
    match res with
    | last :: before =>
        if String.eqb last ".."
        then (if allowAboveRoot then ".." :: res else res)
        else before
    | [] => if allowAboveRoot then [".."] else []
    end
  else segment :: res.

(** [normalizeString(path, allowAboveRoot, '/', isPosixPathSeparator)]. *)
Definition normalizeString (path : string) (allowAboveRoot : bool) : string :=
  Js.join "/"
    (rev (fold_left (normalize_segment allowAboveRoot) (Js.split "/" path) [])).

(** [path.normalize(p)]. *)
Definition normalize (path : string) : string :=
  match path with
  | EmptyString => "."
  | _ =>
      let isAbsolute := starts_with_sep path in
      let trailingSeparator := ends_with_sep path in
      match normalizeString path (negb isAbsolute) with
      | EmptyString =>
          if isAbsolute then "/"
          else if trailingSeparator then "./" else "."
      | normalized =>
          let normalized :=
            if trailingSeparator then normalized +:+ "/" else normalized in
          if isAbsolute then "/" +:+ normalized else normalized
      end
  end.

(** [path.join(...args)]: the arguments that are not empty, joined with
    ['/'], then normalized; ['.'] when there is nothing to join. *)
Definition join_all (args : list string) : string :=
  match filter (fun arg => negb (String.eqb arg "")) args with
  | [] => "."
  | parts => normalize (Js.join "/" parts)
  end.

(** [path.join(dir, name)]. *)
Definition join (dir name : string) : string := join_all [dir; name].

End Path.

(** ** utils/chunker.ts *)

Module Chunker.

Record CodeChunk := {
  content : string;
  filePath : string;
  chunkIndex : Z;
  startLine : Z;
  endLine : Z
}.

Definition extensions : list string :=
  [".js"; ".ts"; ".jsx"; ".tsx"; ".py"; ".java"; ".go"; ".c"; ".cpp"; ".h";
   ".hpp"; ".cs"; ".php"; ".rb"; ".swift"; ".dart"; ".json"; ".yml"; ".html";
   ".css"]%string.

Definition shouldProcessFile (filePath : string) : bool :=
  let ext := Js.toLowerCase (Path.extname filePath) in
  Js.includes extensions ext.

(** The body of [chunkFile]'s [for] loop, from index [i] on: [lines] are
    the lines at positions [i], [i+1], ...; the test
    [i === lines.length - 1] is "no line is left after this one". *)
Fixpoint chunk_loop (filePath : string) (chunkSize : Z) (lines : list string)
    (currentChunk : string) (lineCount chunkIndex startLine : Z) : list CodeChunk :=
  match lines with
  | [] => []
  | line :: rest =>
      let currentChunk := currentChunk +:+ line +:+ Js.newline in
      let lineCount := lineCount + 1 in
      if (chunkSize <=? lineCount) || (match rest with [] => true | _ => false end) then
        {| content := currentChunk;
           filePath := filePath;
           chunkIndex := chunkIndex;
           startLine := startLine;
           endLine := startLine + lineCount - 1 |}
        :: chunk_loop filePath chunkSize rest EmptyString 0
             (chunkIndex + 1) (startLine + lineCount)
      else
        chunk_loop filePath chunkSize rest currentChunk lineCount chunkIndex startLine
  end.

(** [chunkFile(filePath, chunkSize)]; [file] is what
    [fs.promises.readFile(filePath, 'utf-8')] gives: the text, or [None]
    when the read rejects (the [catch] logs and returns no chunk). *)
Definition chunkFile (filePath : string) (file : option string) (chunkSize : Z)
    : list CodeChunk :=
  match file with
  | Some content =>
      let lines := Js.split Js.LF content in
      chunk_loop filePath chunkSize lines EmptyString 0 0 1
  | None => []
  end.

Definition IGNORED_DIRS : list string :=
  [".git"; ".svn"; ".hg"; "node_modules"; "__pycache__"; "venv"; ".venv";
   "env"; "target"; "dist"; "build"; "out"; "coverage"; "vendor"; ".idea";
   ".vscode"; "CMakeFiles"; "cmake-build-debug"]%string.

(** A snapshot of a directory tree as [readdir] ([withFileTypes]) and
    [readFile] show it: [None] stands for a call that rejects. *)
Inductive fs_entry :=
| File (name : string) (data : option string)
| Directory (name : string) (entries : option (list fs_entry))
| Special (name : string).

Definition entry_name (e : fs_entry) : string :=
  match e with
  | File n _ | Directory n _ | Special n => n
  end.

(** One iteration of the [for (const entry of entries)] loop of
    [processDirectory]; the chunks it pushes, in order. *)
Fixpoint processEntry (chunkSize : Z) (dirPath : string) (entry : fs_entry)
    : list CodeChunk :=
  match entry with
  | Directory name sub =>
      let fullPath := Path.join dirPath name in
      if negb (Js.includes IGNORED_DIRS name) && negb (Js.startsWith name ".") then
        match sub with
        | Some entries => flat_map (processEntry chunkSize fullPath) entries
        | None => []
        end
      else []
  | File name data =>
      let fullPath := Path.join dirPath name in
      if shouldProcessFile fullPath then chunkFile fullPath data chunkSize else []
  | Special _ => []
  end.

Definition processDirectory (chunkSize : Z) (dirPath : string)
    (listing : option (list fs_entry)) : list CodeChunk :=
  match listing with
  | Some entries => flat_map (processEntry chunkSize dirPath) entries
  | None => []
  end.

(** [walkAndChunkDirectory(directoryPath, chunkSize)] over a snapshot of
    the tree below [directoryPath]. *)
Definition walkAndChunkDirectory (directoryPath : string)
    (listing : option (list fs_entry)) (chunkSize : Z) : list CodeChunk :=
  processDirectory chunkSize directoryPath listing.

(** Induction on a directory tree, with the listing of a directory as
    induction hypothesis. *)
Section fs_entry_induction.

Variable Q : fs_entry -> Prop.
Hypothesis HFile : forall name data, Q (File name data).
Hypothesis HSpecial : forall name, Q (Special name).
Hypothesis HDirNone : forall name, Q (Directory name None).
Hypothesis HDir : forall name entries, Forall Q entries -> Q (Directory name (Some entries)).

Fixpoint fs_entry_nested_ind (e : fs_entry) : Q e :=
  match e with
  | File n d => HFile n d
  | Special n => HSpecial n
  | Directory n None => HDirNone n
  | Directory n (Some es) =>
      HDir n es
        ((fix go (l : list fs_entry) : Forall Q l :=
            match l with
            | [] => @List.Forall_nil _ Q
            | x :: r => @List.Forall_cons _ Q x r (fs_entry_nested_ind x) (go r)
            end) es)
  end.

End fs_entry_induction.

End Chunker.

(** ** types/index.ts and models/job.model.ts *)

Module Types.

(** [commit] is typed [string] but reaches the adapter as [undefined] when
    a caller passes none, hence the option. *)
Record VectorMetadata := {
  repoUrl : string;
  filePath : string;
  chunkIndex : Z;
  commit : option string;
  userId : string;
  startLine : Z;
  endLine : Z
}.

Record Vector := {
  id : string;
  values : list float;
  metadata : VectorMetadata
}.

End Types.

Module JobModel.

Inductive JobStatus := queued | running | succeeded | failed.

(** The fields of [IJob] the sources read or write (mongoose's timestamps
    are left out). *)
Record IJob := {
  jobId : string;
  userId : string;
  repoUrl : string;
  commit : option string;
  status : JobStatus;
  progress : Z;
  error : option string
}.

(** The update document [{ status, progress }], with [error] when set. *)
Record JobUpdate := {
  set_status : JobStatus;
  set_progress : Z;
  set_error : option string
}.

(** What [Job.findOneAndUpdate({ jobId }, update)] does to the record it
    finds. *)
Definition apply_update (j : IJob) (u : JobUpdate) : IJob :=
  {| jobId := jobId j; userId := userId j; repoUrl := repoUrl j; commit := commit j;
     status := set_status u;
     progress := set_progress u;
     error := match set_error u with Some e => Some e | None => error j end |}.

End JobModel.

(** ** utils/config.ts *)

Module Config.

Record config := {
  tempDir : string;
  indexName : string;
  cloud : string;
  region : string
}.

End Config.

(** ** Requests to the outside world *)

Module Eff.

(** A thrown JavaScript value, as far as the sources look into it:
    [error?.message] and [error?.code]. *)
Record exn := {
  message : option string;
  code : option string
}.

(** [new Error(msg)]. *)
Definition Error (msg : string) : exn := {| message := Some msg; code := None |}.

Inductive outcome (A : Type) : Type :=
| Ok (a : A)
| Err (e : exn).
Arguments Ok {A} a.
Arguments Err {A} e.

Inductive level := Linfo | Lwarn | Lerror.

Record IndexModel := {
  dimension : Z;
  metric : string;
  ready : bool
}.

Record IndexConfig := {
  ic_name : string;
  ic_dimension : Z;
  ic_metric : string;
  ic_cloud : string;
  ic_region : string
}.

(** One awaited call on a collaborator; the index is the type of what the
    call resolves to.  A call that can reject resolves to an [outcome]. *)
Inductive event : Type -> Type :=
| Log (lvl : level) (msg : string) : event unit
| Delay (ms : Z) : event unit
| Uuidv4 : event string
(* fs and simple-git *)
| Mkdir (dir : string) : event (outcome unit)
| GitClone (repoUrl dir : string) : event (outcome unit)
| GitCheckout (dir commit : string) : event (outcome unit)
| FsRm (dir : string) : event (outcome unit)
| ReadTree (dir : string) : event (option (list Chunker.fs_entry))
(* mongoose *)
| FindOneAndUpdate (jobId : string) (update : JobModel.JobUpdate)
    : event (outcome (option JobModel.IJob))
(* openai *)
| CreateEmbedding (input : string) : event (outcome (list float))
(* pinecone *)
| ListIndexes : event (outcome (list string))
| CreateIndex (cfg : IndexConfig) : event (outcome unit)
| DescribeIndex (name : string) : event (outcome IndexModel)
| NsUpsert (namespace : string) (batch : list Types.Vector) : event (outcome unit)
| NsQuery (namespace : string) (vector : list float) (topK : Z)
    (filter : list (string * string)) : event (outcome (list Types.Vector))
| NsDeleteAll (namespace : string) : event (outcome unit)
| DescribeIndexStats : event (outcome unit).

(** A program: a tree of calls, each continued on what the call resolves
    to. *)
Inductive io (A : Type) : Type :=
| Ret (a : A)
| Vis (X : Type) (e : event X) (k : X -> io A).
Arguments Ret {A} a.
Arguments Vis {A X} e k.

Fixpoint io_bind {A B : Type} (m : io A) (f : A -> io B) : io B :=
  match m with
  | Ret a => f a
  | Vis e k => Vis e (fun x => io_bind (k x) f)
  end.

(** The state of the module-level singletons: the [initialized] flag of
    [pineconeService]. *)
Record svc := { initialized : bool }.

(** An [async] function: it runs from a state of the singletons, performs
    calls, and resolves or rejects, leaving a state. *)
Definition P (A : Type) : Type := svc -> io (outcome A * svc).

Definition ret {A : Type} (a : A) : P A := fun s => Ret (Ok a, s).

Definition throw {A : Type} (e : exn) : P A := fun s => Ret (Err e, s).

Definition bind {A B : Type} (m : P A) (f : A -> P B) : P B :=
  fun s => io_bind (m s) (fun rs =>
    match fst rs with
    | Ok a => f a (snd rs)
    | Err e => Ret (Err e, snd rs)
    end).

#[global] Instance P_ret : MRet P := @ret.
#[global] Instance P_bind : MBind P := fun A B f m => bind m f.

(** [try { m } catch (e) { h e }]. *)
Definition try_catch {A : Type} (m : P A) (h : exn -> P A) : P A :=
  fun s => io_bind (m s) (fun rs =>
    match fst rs with
    | Ok a => Ret (Ok a, snd rs)
    | Err e => h e (snd rs)
    end).

(** [try { m } finally { fin }]: [fin] runs either way; when it throws,
    its error replaces the result of [m]. *)
Definition try_finally {A : Type} (m : P A) (fin : P unit) : P A :=
  fun s => io_bind (m s) (fun rs =>
    io_bind (fin (snd rs)) (fun fs =>
      match fst fs with
      | Ok _ => Ret (fst rs, snd fs)
      | Err e => Ret (Err e, snd fs)
      end)).

(** A promise observed without being awaited for its value: settles to
    its outcome. *)
Definition settle {A : Type} (m : P A) : P (outcome A) :=
  fun s => io_bind (m s) (fun rs => Ret (Ok (fst rs), snd rs)).

(** A call that cannot reject. *)
Definition perform {X : Type} (e : event X) : P X :=
  fun s => Vis e (fun x => Ret (Ok x, s)).

(** [await] of a call that can reject. *)
Definition await {X : Type} (e : event (outcome X)) : P X :=
  fun s => Vis e (fun r => Ret (r, s)).

Definition get_initialized : P bool := fun s => Ret (Ok (initialized s), s).

Definition set_initialized (b : bool) : P unit :=
  fun _ => Ret (Ok tt, {| initialized := b |}).

Definition log (lvl : level) (msg : string) : P unit := perform (Log lvl msg).

(** [for (const x of xs) { await body(x) }]. *)
Fixpoint for_each {A : Type} (xs : list A) (body : A -> P unit) : P unit :=
  match xs with
  | [] => ret tt
  | x :: rest => bind (body x) (fun _ => for_each rest body)
  end.

(** The promises of [xs.map(f)], all started, each observed to its
    outcome; the calls of one element are taken before those of the next. *)
Fixpoint settle_all {A : Type} (ps : list (P A)) : P (list (outcome A)) :=
  match ps with
  | [] => ret []
  | p :: rest =>
      bind (settle p) (fun r => bind (settle_all rest) (fun rs => ret (r :: rs)))
  end.

Fixpoint collect {A : Type} (rs : list (outcome A)) : outcome (list A) :=
  match rs with
  | [] => Ok []
  | Err e :: _ => Err e
  | Ok a :: rest =>
      match collect rest with
      | Ok xs => Ok (a :: xs)
      | Err e => Err e
      end
  end.

(** [await Promise.all(ps)]: every promise runs; the result rejects with
    the first rejection (in array order) when there is one. *)
Definition promise_all {A : Type} (ps : list (P A)) : P (list A) :=
  bind (settle_all ps) (fun rs =>
    match collect rs with
    | Ok xs => ret xs
    | Err e => throw e
    end).

(** *** Running a program against an environment *)

Record entry := Entry {
  entry_type : Type;
  entry_event : event entry_type;
  entry_reply : entry_type
}.
Arguments Entry {entry_type} entry_event entry_reply.

Definition trace := list entry.

(** The environment: what each call resolves to, given all that happened
    before it. *)
Definition oracle := forall X : Type, trace -> event X -> X.

(** [run m o h]: the result of [m] and the calls it made, in order, when
    the calls before it were [h]. *)
Fixpoint run {A : Type} (m : io A) (o : oracle) (h : trace) : A * trace :=
  match m with
  | Ret a => (a, [])
  | Vis e k =>
      let x := o _ h e in
      let r := run (k x) o (h ++ [Entry e x]) in
      (fst r, Entry e x :: snd r)
  end.

Definition exec {A : Type} (p : P A) (s : svc) (o : oracle) (h : trace)
    : (outcome A * svc) * trace :=
  run (p s) o h.

(** A result whose calls come after the calls [t]. *)
Definition after {R : Type} (t : trace) (r : R * trace) : R * trace :=
  (fst r, t ++ snd r).

End Eff.

Import Eff.

(** ** services/git.service.ts *)

Module Git.

Definition cleanWorkingDirectory (workDir : string) : P unit :=
  try_catch
    (await (FsRm workDir);;
     log Linfo "Cleaned working directory")
    (fun _ => log Lerror "Failed to clean working directory").

Definition cloneRepository (cfg : Config.config) (repoUrl jobId : string)
    (commit : option string) : P string :=
  let workDir := Path.join (Config.tempDir cfg) jobId in
  try_catch
    (await (Mkdir workDir);;
     log Linfo "Created work directory";;
     await (GitClone repoUrl workDir);;
     log Linfo "Repository cloned successfully";;
     (if Js.truthy commit then
        await (GitCheckout workDir (Js.or_else commit ""));;
        log Linfo "Checked out specific commit"
      else mret tt);;
     mret workDir)
    (fun error =>
       log Lerror "Failed to clone or checkout repository";;
       cleanWorkingDirectory workDir;;
       throw error).

End Git.

(** ** services/mongo.service.ts *)

Module Mongo.

Definition updateJobStatus (jobId : string) (status : JobModel.JobStatus)
    (progress : Z) (error : option string) : P (option JobModel.IJob) :=
  let update :=
    {| JobModel.set_status := status;
       JobModel.set_progress := progress;
       JobModel.set_error := if Js.truthy error then error else None |} in
  job ← await (FindOneAndUpdate jobId update);
  (match job with
   | Some _ => log Linfo "Updated job status"
   | None => log Lwarn "Job not found when updating status"
   end);;
  mret job.

End Mongo.

(** ** services/openai.service.ts *)

Module OpenAI.

Definition generateEmbedding (text : string) : P (list float) :=
  try_catch
    (await (CreateEmbedding text))
    (fun error =>
       log Lerror "OpenAI API error generating embedding";;
       throw error).

End OpenAI.

(** ** A JavaScript object used as a map from strings

    [{} as Record<string, V>]: the own properties in creation order, above
    [Object.prototype]. *)

Module JsObject.

Abbreviation object V := (list (string * V)).

(** The properties every object inherits from [Object.prototype]; each is
    a function (or, for [__proto__], the prototype itself): truthy, and
    without a [push] method. *)
Definition prototype_keys : list string :=
  ["constructor"; "__defineGetter__"; "__defineSetter__"; "hasOwnProperty";
   "__lookupGetter__"; "__lookupSetter__"; "isPrototypeOf";
   "propertyIsEnumerable"; "toString"; "valueOf"; "__proto__";
   "toLocaleString"]%string.

Fixpoint own {V : Type} (o : object V) (key : string) : option V :=
  match o with
  | [] => None
  | (k, v) :: rest => if String.eqb k key then Some v else own rest key
  end.

(** [o[key] = v] on a key that is an own property already. *)
Fixpoint assign {V : Type} (o : object V) (key : string) (v : V) : object V :=
  match o with
  | [] => []
  | (k, w) :: rest =>
      if String.eqb k key then (k, v) :: rest else (k, w) :: assign rest key v
  end.

Definition digit_value (c : ascii) : option N :=
  let n := N_of_ascii c in
  if ((48 <=? n) && (n <=? 57))%N then Some (n - 48)%N else None.

Fixpoint decimal (s : string) (acc : N) : option N :=
  match s with
  | EmptyString => Some acc
  | String c rest =>
      match digit_value c with
      | Some d => decimal rest (10 * acc + d)%N
      | None => None
      end
  end.

(** The array index a property key denotes, if any: a canonical decimal
    numeral below [2^32 - 1]. *)
Definition array_index (key : string) : option N :=
  match key with
  | EmptyString => None
  | String c rest =>
      if Ascii.eqb c "0" && negb (String.eqb rest EmptyString) then None
      else match decimal key 0 with
           | Some n => if (n <? 4294967295)%N then Some n else None
           | None => None
           end
  end.

Fixpoint insert_by_index {V : Type} (n : N) (kv : string * V)
    (sorted : list (N * (string * V))) : list (N * (string * V)) :=
  match sorted with
  | [] => [(n, kv)]
  | (m, kw) :: rest =>
      if (n <? m)%N then (n, kv) :: (m, kw) :: rest
      else (m, kw) :: insert_by_index n kv rest
  end.

Fixpoint index_keyed {V : Type} (o : object V) : list (N * (string * V)) :=
  match o with
  | [] => []
  | (k, v) :: rest =>
      match array_index k with
      | Some n => insert_by_index n (k, v) (index_keyed rest)
      | None => index_keyed rest
      end
  end.

Definition string_keyed {V : Type} (o : object V) : list (string * V) :=
  filter (fun kv => array_index (fst kv) = None) o.

(** [Object.entries(o)]: array-index keys in ascending numeric order, then
    the other keys in creation order. *)
Definition entries {V : Type} (o : object V) : list (string * V) :=
  map snd (index_keyed o) ++ string_keyed o.

End JsObject.

(** ** services/pinecone.service.ts (the namespace-aware service) *)

Module Pinecone.

Definition INDEX_DIMENSION : Z := 1536.
Definition INDEX_METRIC : string := "cosine".
Definition MAX_RETRIES : Z := 12.
Definition RETRY_DELAY_MS : Z := 5000.
Definition BATCH_SIZE : nat := 40.

Definition createIndexConfig (cfg : Config.config) (indexName : string) : IndexConfig :=
  {| ic_name := indexName;
     ic_dimension := INDEX_DIMENSION;
     ic_metric := INDEX_METRIC;
     ic_cloud := Config.cloud cfg;
     ic_region := Config.region cfg |}.

Definition validateExistingIndex (description : IndexModel) (indexName : string)
    : P unit :=
  (if negb (dimension description =? INDEX_DIMENSION) then
     log Lerror "Existing index has incorrect dimension!";;
     throw (Error ("Index " +:+ indexName +:+ " has dimension "
                   +:+ pretty (dimension description) +:+ ", expected "
                   +:+ pretty INDEX_DIMENSION))
   else mret tt);;
  (if negb (String.eqb (metric description) INDEX_METRIC) then
     log Lwarn "Existing index has different metric. Ensure this is intended."
   else mret tt).

Definition not_ready_message (indexName : string) : string :=
  "Index " +:+ indexName +:+ " did not become ready after "
  +:+ pretty MAX_RETRIES +:+ " retries".

(** One pass of the body of [waitForIndexReady]'s loop, up to the point
    where the function either returns ([true]) or goes on to wait. *)
Definition poll (indexName : string) : P bool :=
  try_catch
    (status ← await (DescribeIndex indexName);
     if ready status then
       log Linfo "Index created and ready.";;
       mret true
     else mret false)
    (fun pineconeError =>
       (if negb (bool_decide (code pineconeError = Some "404"%string)) then
          log Lwarn "Error describing index while waiting, retrying..."
        else mret tt);;
       mret false).

(** [for (let retries = ...; retries < MAX_RETRIES; retries++)] with
    [remaining] passes left, and what follows the loop. *)
Fixpoint waitForIndexReady_from (remaining : nat) (indexName : string) : P unit :=
  match remaining with
  | O =>
      let error := not_ready_message indexName in
      log Lerror error;;
      throw (Error error)
  | S remaining' =>
      isReady ← poll indexName;
      if isReady : bool then mret tt
      else
        log Linfo "Waiting for index to become ready...";;
        perform (Delay RETRY_DELAY_MS);;
        waitForIndexReady_from remaining' indexName
  end.

Definition waitForIndexReady (indexName : string) : P unit :=
  waitForIndexReady_from (Z.to_nat MAX_RETRIES) indexName.

Definition init (cfg : Config.config) : P unit :=
  let indexName := Config.indexName cfg in
  try_catch
    (indexes ← await ListIndexes;
     let indexExists := existsb (String.eqb indexName) indexes in
     (if negb indexExists then
        log Linfo "Index not found, creating new index...";;
        await (CreateIndex (createIndexConfig cfg indexName));;
        waitForIndexReady indexName
      else
        log Linfo "Connecting to existing index.";;
        description ← await (DescribeIndex indexName);
        validateExistingIndex description indexName);;
     set_initialized true;;
     log Linfo "Pinecone client initialized and connected to index")
    (fun error =>
       log Lerror "Failed to initialize Pinecone client or create/connect to index";;
       throw error).

Definition ensureInitialized (cfg : Config.config) : P unit :=
  isInit ← get_initialized;
  if negb isInit then
    log Lwarn "Pinecone client not initialized. Attempting initialization now...";;
    init cfg;;
    isInit' ← get_initialized;
    if negb isInit' then throw (Error "Pinecone initialization failed")
    else mret tt
  else mret tt.

Definition getNamespaceForUser (userId : string) : string := "user_" +:+ userId.

(** [{ id, values, metadata: { ...metadata, commit: metadata.commit || '' } }]. *)
Definition normalize (vector : Types.Vector) : Types.Vector :=
  let md := Types.metadata vector in
  {| Types.id := Types.id vector;
     Types.values := Types.values vector;
     Types.metadata :=
       {| Types.repoUrl := Types.repoUrl md;
          Types.filePath := Types.filePath md;
          Types.chunkIndex := Types.chunkIndex md;
          Types.commit := Some (Js.or_else (Types.commit md) "");
          Types.userId := Types.userId md;
          Types.startLine := Types.startLine md;
          Types.endLine := Types.endLine md |} |}.

(** [xs.slice(a, b)] on an array, for [a <= b]. *)
Definition array_slice {A : Type} (xs : list A) (a b : nat) : list A :=
  take (b - a) (drop a xs).

Definition processBatch (namespace : string) (vectors : list Types.Vector)
    (startIdx batchSize totalCount : nat) : P unit :=
  let batch := map normalize (array_slice vectors startIdx (startIdx + batchSize)) in
  await (NsUpsert namespace batch);;
  log Linfo "Upserted vectors to Pinecone namespace".

(** One step of the [reduce] that groups the vectors by [userId]. *)
Definition group_step (acc : JsObject.object (list Types.Vector))
    (vector : Types.Vector) : outcome (JsObject.object (list Types.Vector)) :=
  let userId := Types.userId (Types.metadata vector) in
  match JsObject.own acc userId with
  | Some userVectors => Ok (JsObject.assign acc userId (userVectors ++ [vector]))
  | None =>
      if Js.includes JsObject.prototype_keys userId then
        Err {| message := Some "acc[userId].push is not a function"%string;
               code := None |}
      else Ok (acc ++ [(userId, [vector])])
  end.

Fixpoint group_by_user (acc : JsObject.object (list Types.Vector))
    (vectors : list Types.Vector) : outcome (JsObject.object (list Types.Vector)) :=
  match vectors with
  | [] => Ok acc
  | vector :: rest =>
      match group_step acc vector with
      | Ok acc' => group_by_user acc' rest
      | Err e => Err e
      end
  end.

(** [for (let i = ...; i < userVectors.length; i += BATCH_SIZE)], from
    [i] on; [fuel] bounds the number of passes. *)
Fixpoint upsert_batches (fuel : nat) (namespace : string)
    (userVectors : list Types.Vector) (i : nat) : P unit :=
  match fuel with
  | O => mret tt
  | S fuel' =>
      if (i <? length userVectors)%nat then
        processBatch namespace userVectors i BATCH_SIZE (length userVectors);;
        upsert_batches fuel' namespace userVectors (i + BATCH_SIZE)
      else mret tt
  end.

Definition upsert_user (entry : string * list Types.Vector) : P unit :=
  let (userId, userVectors) := entry in
  let namespaceName := getNamespaceForUser userId in
  log Linfo "Processing vectors for user namespace";;
  upsert_batches (length userVectors) namespaceName userVectors 0.

Definition upsert (cfg : Config.config) (vectors : list Types.Vector) : P unit :=
  if (length vectors =? 0)%nat then
    log Lwarn "No vectors provided for upserting"
  else
    ensureInitialized cfg;;
    try_catch
      (vectorsByUser ←
         match group_by_user [] vectors with
         | Ok acc => mret acc
         | Err e => throw e
         end;
       for_each (JsObject.entries vectorsByUser) upsert_user)
      (fun error =>
         log Lerror "Failed to upsert vectors to Pinecone";;
         throw error).

Definition query (cfg : Config.config) (vector : list float) (userId : string)
    (topK : Z) (additionalFilters : list (string * string))
    : P (list Types.Vector) :=
  ensureInitialized cfg;;
  try_catch
    (let namespaceName := getNamespaceForUser userId in
     await (NsQuery namespaceName vector topK additionalFilters))
    (fun error =>
       log Lerror "Failed to query Pinecone";;
       throw error).

Definition deleteUserVectors (cfg : Config.config) (userId : string) : P unit :=
  ensureInitialized cfg;;
  try_catch
    (let namespaceName := getNamespaceForUser userId in
     await (NsDeleteAll namespaceName);;
     log Linfo "Deleted all vectors for user namespace")
    (fun error =>
       log Lerror "Failed to delete user vectors from Pinecone";;
       throw error).

Definition isHealthy (cfg : Config.config) : P bool :=
  try_catch
    (ensureInitialized cfg;;
     await DescribeIndexStats;;
     mret true)
    (fun _ =>
       log Lerror "Pinecone health check failed";;
       mret false).

End Pinecone.

(** ** routes/health.ts *)

Module Health.

(** The [health] object the route answers with. *)
Record report := {
  status : string;
  mongo_connected : bool;
  pinecone_connected : bool
}.

(** The handler of [GET /]; [isHealthy] is [pineconeService.isHealthy] of
    the revision of the service in use, and [readyState] is
    [mongoose.connection.readyState] when the request arrives.  It
    resolves to the HTTP status and the body sent. *)
Definition get (isHealthy : P bool) (readyState : Z) : P (Z * report) :=
  let mongo := readyState =? 1 in
  try_catch
    (pinecone ← isHealthy;
     if mongo && pinecone then
       mret (200, {| status := "ok"; mongo_connected := mongo;
                     pinecone_connected := pinecone |})
     else
       log Lwarn "Health check failed";;
       mret (503, {| status := "degraded"; mongo_connected := mongo;
                     pinecone_connected := pinecone |}))
    (fun _ =>
       log Lerror "Health check error";;
       mret (500, {| status := "error"; mongo_connected := mongo;
                     pinecone_connected := false |})).

End Health.

(** ** utils/constants.ts *)

Module Constants.

(** Modelled from the spec: utils/constants.ts is not among the sources;
    the pipeline's checkpoints are taken as the spec gives them: the
    "initial" checkpoint 10, the "chunking complete" checkpoint 30,
    final progress 100, and embedding batches of 50 chunks. *)
Definition INITIAL_PROGRESS : Z := 10.
Definition CHUNKING_PROGRESS : Z := 30.
Definition FINAL_PROGRESS : Z := 100.
Definition BATCH_SIZE : nat := 50.

End Constants.

(** ** jobs/processEmbeddings.ts *)

Module Pipeline.

Import Constants.

Definition unknown_error : string := "Unknown error during embedding process".

(** [Math.floor(baseProgress + ((100 - baseProgress) * current) / total)]
    on integers, [total] positive. *)
Definition progress_of (baseProgress current total : Z) : Z :=
  baseProgress + ((100 - baseProgress) * current) / total.

Definition updateProgress (jobId : string) (baseProgress : Z) (current total : nat)
    : P unit :=
  let progress := progress_of baseProgress (Z.of_nat current) (Z.of_nat total) in
  Mongo.updateJobStatus jobId JobModel.running progress None;;
  mret tt.

Definition processChunk (chunk : Chunker.CodeChunk) (repoUrl userId commit : string)
    : P Types.Vector :=
  try_catch
    (embedding ← OpenAI.generateEmbedding (Chunker.content chunk);
     uuid ← perform Uuidv4;
     mret {| Types.id := uuid;
             Types.values := embedding;
             Types.metadata :=
               {| Types.repoUrl := repoUrl;
                  Types.filePath := Chunker.filePath chunk;
                  Types.chunkIndex := Chunker.chunkIndex chunk;
                  Types.commit := Some commit;
                  Types.userId := userId;
                  Types.startLine := Chunker.startLine chunk;
                  Types.endLine := Chunker.endLine chunk |} |})
    (fun error =>
       log Lerror "Failed to generate embedding for chunk";;
       throw error).

(** [for (let i = ...; i < chunks.length; i += BATCH_SIZE)] from [i] on,
    with the vectors gathered so far; [fuel] bounds the number of passes. *)
Fixpoint processChunks_from (fuel : nat) (chunks : list Chunker.CodeChunk)
    (jobId repoUrl userId commit : string) (i : nat) (vectors : list Types.Vector)
    : P (list Types.Vector) :=
  match fuel with
  | O => mret vectors
  | S fuel' =>
      if (i <? length chunks)%nat then
        let batch :=
          Pinecone.array_slice chunks i (Nat.min (i + BATCH_SIZE) (length chunks)) in
        batchVectors ←
          promise_all (map (fun chunk => processChunk chunk repoUrl userId commit) batch);
        let vectors := vectors ++ batchVectors in
        updateProgress jobId CHUNKING_PROGRESS (i + length batch) (length chunks);;
        processChunks_from fuel' chunks jobId repoUrl userId commit (i + BATCH_SIZE) vectors
      else mret vectors
  end.

Definition processChunksInBatches (chunks : list Chunker.CodeChunk)
    (jobId repoUrl userId commit : string) : P (list Types.Vector) :=
  processChunks_from (length chunks) chunks jobId repoUrl userId commit 0 [].

Definition upsertVectors (cfg : Config.config) (vectors : list Types.Vector) : P unit :=
  try_catch
    (log Linfo "Upserting vectors to Pinecone";;
     Pinecone.upsert cfg vectors)
    (fun error =>
       log Lerror "Failed to upsert vectors to Pinecone";;
       throw error).

(** [await walkAndChunkDirectory(workDir)]: the tree is read, the chunker
    runs over what was read. *)
Definition walkAndChunk (workDir : string) : P (list Chunker.CodeChunk) :=
  tree ← perform (ReadTree workDir);
  mret (Chunker.walkAndChunkDirectory workDir tree 500).

(** The [try] block of [processEmbedding]. *)
Definition embedding_job (cfg : Config.config) (jobId repoUrl userId : string)
    (workDir normalizedCommit : string) : P unit :=
  Mongo.updateJobStatus jobId JobModel.running 0 None;;
  log Linfo "Starting embedding job";;
  Mongo.updateJobStatus jobId JobModel.running INITIAL_PROGRESS None;;
  log Linfo "Processing files in repository";;
  chunks ← walkAndChunk workDir;
  if (length chunks =? 0)%nat then
    log Lwarn "No code chunks found in repository";;
    Mongo.updateJobStatus jobId JobModel.succeeded FINAL_PROGRESS None;;
    mret tt
  else
    log Linfo "Generated code chunks";;
    Mongo.updateJobStatus jobId JobModel.running CHUNKING_PROGRESS None;;
    vectors ← processChunksInBatches chunks jobId repoUrl userId normalizedCommit;
    upsertVectors cfg vectors;;
    Mongo.updateJobStatus jobId JobModel.succeeded FINAL_PROGRESS None;;
    log Linfo "Embedding job completed successfully".

(** The [catch] block of [processEmbedding]. *)
Definition job_failed (jobId : string) (error : exn) : P unit :=
  log Lerror "Embedding job failed";;
  Mongo.updateJobStatus jobId JobModel.failed 0
    (Some (Js.or_else (message error) unknown_error));;
  throw error.

(** The [finally] block of [processEmbedding]. *)
Definition cleanup (workDir : string) : P unit :=
  try_catch
    (Git.cleanWorkingDirectory workDir)
    (fun _ => log Lerror "Failed to clean working directory").

Definition processEmbedding (cfg : Config.config) (jobId repoUrl userId : string)
    (commit : option string) : P unit :=
  workDir ← Git.cloneRepository cfg repoUrl jobId commit;
  let normalizedCommit := Js.or_else commit "" in
  try_finally
    (try_catch
       (embedding_job cfg jobId repoUrl userId workDir normalizedCommit)
       (job_failed jobId))
    (cleanup workDir).

End Pipeline.

(** ** The pipeline inlined in the [POST /] handler of the embed controller
    (the revision before jobs/processEmbeddings.ts) *)

Module InlineController.

(** [for (let i = 0; i < chunks.length; i++)] over the chunks left, with
    the vectors gathered so far. *)
Fixpoint embed_chunks (jobId repoUrl userId : string) (commit : option string)
    (total : nat) (i : nat) (chunks : list Chunker.CodeChunk)
    (vectors : list Types.Vector) : P (list Types.Vector) :=
  match chunks with
  | [] => mret vectors
  | chunk :: rest =>
      vectors' ←
        try_catch
          (embedding ← OpenAI.generateEmbedding (Chunker.content chunk);
           uuid ← perform Uuidv4;
           let vectors' := vectors ++
             [{| Types.id := uuid;
                 Types.values := embedding;
                 Types.metadata :=
                   {| Types.repoUrl := repoUrl;
                      Types.filePath := Chunker.filePath chunk;
                      Types.chunkIndex := Chunker.chunkIndex chunk;
                      Types.commit := commit;
                      Types.userId := userId;
                      Types.startLine := Chunker.startLine chunk;
                      Types.endLine := Chunker.endLine chunk |} |}] in
           (if (Nat.modulo i 10 =? 0)%nat || (i =? total - 1)%nat then
              let progress := 40 + (60 * (Z.of_nat i + 1)) / Z.of_nat total in
              Mongo.updateJobStatus jobId JobModel.running progress None;;
              mret tt
            else mret tt);;
           mret vectors')
          (fun error =>
             log Lerror "Failed to generate embedding for chunk";;
             throw error);
      embed_chunks jobId repoUrl userId commit total (S i) rest vectors'
  end.

(** The inner [try] block of the handler; [workDir] is assigned once the
    clone has resolved. *)
Definition job_body (cfg : Config.config) (jobId repoUrl userId : string)
    (commit : option string) (workDir : string) : P unit :=
  Mongo.updateJobStatus jobId JobModel.running 20 None;;
  log Linfo "Processing files in repository";;
  chunks ← Pipeline.walkAndChunk workDir;
  if (length chunks =? 0)%nat then
    log Lwarn "No code chunks found in repository";;
    Mongo.updateJobStatus jobId JobModel.succeeded 100 None;;
    mret tt
  else
    log Linfo "Generated code chunks";;
    Mongo.updateJobStatus jobId JobModel.running 40 None;;
    vectors ← embed_chunks jobId repoUrl userId commit (length chunks) 0 chunks [];
    log Linfo "Upserting vectors to Pinecone";;
    try_catch
      (Pinecone.upsert cfg vectors)
      (fun error =>
         log Lerror "Failed to upsert vectors to Pinecone";;
         throw error);;
    Mongo.updateJobStatus jobId JobModel.succeeded 100 None;;
    log Linfo "Embedding job completed successfully".

Definition job_failed (jobId : string) (error : exn) : P unit :=
  log Lerror "Embedding job failed";;
  Mongo.updateJobStatus jobId JobModel.failed 0
    (Some (Js.or_else (message error) Pipeline.unknown_error));;
  mret tt.

(** The job as the handler runs it after it has answered 202: [workDir]
    stays [null] until the clone resolves; the [finally] block cleans the
    directory only when [workDir] is set. *)
Definition run_job (cfg : Config.config) (jobId repoUrl userId : string)
    (commit : option string) : P unit :=
  cloned ←
    settle
      (Mongo.updateJobStatus jobId JobModel.running 0 None;;
       log Linfo "Starting embedding job";;
       Git.cloneRepository cfg repoUrl jobId commit);
  match cloned with
  | Err error => job_failed jobId error
  | Ok workDir =>
      try_finally
        (try_catch
           (job_body cfg jobId repoUrl userId commit workDir)
           (job_failed jobId))
        (Pipeline.cleanup workDir)
  end.

End InlineController.

(** ** services/pinecone.service.ts, the earlier revision kept under
    src/services: one default namespace, the readiness loop inlined in
    [init]. *)

Module PineconeLegacy.

Definition INDEX_DIMENSION : Z := 1536.
Definition INDEX_METRIC : string := "cosine".
Definition maxRetries : Z := 12.

Definition not_ready_message (indexName : string) : string :=
  "Index " +:+ indexName +:+ " did not become ready in time.".

(** The [while (retries < maxRetries)] loop of [init] with [remaining]
    passes left; it yields the value of [retries] on leaving the loop. *)
Fixpoint wait_loop (remaining : nat) (retries : Z) (indexName : string) : P Z :=
  match remaining with
  | O => mret retries
  | S remaining' =>
      isReady ← Pinecone.poll indexName;
      if isReady : bool then mret retries
      else
        log Linfo "Waiting for index to become ready...";;
        perform (Delay 5000);;
        wait_loop remaining' (retries + 1) indexName
  end.

Definition init (cfg : Config.config) : P unit :=
  let indexName := Config.indexName cfg in
  try_catch
    (indexes ← await ListIndexes;
     let indexExists := existsb (String.eqb indexName) indexes in
     (if negb indexExists then
        log Linfo "Index not found, creating new index...";;
        await (CreateIndex
                 {| ic_name := indexName; ic_dimension := INDEX_DIMENSION;
                    ic_metric := INDEX_METRIC; ic_cloud := Config.cloud cfg;
                    ic_region := Config.region cfg |});;
        retries ← wait_loop (Z.to_nat maxRetries) 0 indexName;
        if retries =? maxRetries then
          log Lerror "Index did not become ready after waiting.";;
          throw (Error (not_ready_message indexName))
        else mret tt
      else
        log Linfo "Connecting to existing index.";;
        description ← await (DescribeIndex indexName);
        (if negb (dimension description =? INDEX_DIMENSION) then
           log Lerror "Existing index has incorrect dimension!";;
           throw (Error ("Index " +:+ indexName +:+ " has dimension "
                         +:+ pretty (dimension description) +:+ ", expected "
                         +:+ pretty INDEX_DIMENSION))
         else mret tt);;
        (if negb (String.eqb (metric description) INDEX_METRIC) then
           log Lwarn "Existing index has different metric. Ensure this is intended."
         else mret tt));;
     set_initialized true;;
     log Linfo "Pinecone client initialized and connected to index")
    (fun error =>
       log Lerror "Failed to initialize Pinecone client or create/connect to index";;
       throw error).

(** The default namespace of the index. *)
Definition default_namespace : string := "".

Fixpoint upsert_batches (fuel : nat) (vectors : list Types.Vector) (i : nat) : P unit :=
  match fuel with
  | O => mret tt
  | S fuel' =>
      if (i <? length vectors)%nat then
        let batch := map Pinecone.normalize (Pinecone.array_slice vectors i (i + 40)) in
        await (NsUpsert default_namespace batch);;
        log Linfo "Upserted vectors to Pinecone";;
        upsert_batches fuel' vectors (i + 40)
      else mret tt
  end.

Definition upsert (cfg : Config.config) (vectors : list Types.Vector) : P unit :=
  isInit ← get_initialized;
  (if negb isInit then
     log Lwarn "Pinecone client not initialized. Attempting initialization now...";;
     init cfg;;
     isInit' ← get_initialized;
     if negb isInit' then throw (Error "Pinecone initialization failed, cannot upsert.")
     else mret tt
   else mret tt);;
  try_catch
    (upsert_batches (length vectors) vectors 0)
    (fun error =>
       log Lerror "Failed to upsert vectors to Pinecone";;
       throw error).

Definition query (cfg : Config.config) (vector : list float) (topK : Z)
    (filter : list (string * string)) : P (list Types.Vector) :=
  isInit ← get_initialized;
  (if negb isInit then
     log Lwarn "Pinecone client not initialized. Attempting initialization now...";;
     init cfg;;
     isInit' ← get_initialized;
     if negb isInit' then throw (Error "Pinecone initialization failed, cannot query.")
     else mret tt
   else mret tt);;
  try_catch
    (await (NsQuery default_namespace vector topK filter))
    (fun error =>
       log Lerror "Failed to query Pinecone";;
       throw error).

(** [isHealthy]: [ready] is false when the function has returned [false]
    because the initialization it attempted left the service
    uninitialized. *)
Definition isHealthy (cfg : Config.config) : P bool :=
  try_catch
    (isInit ← get_initialized;
     ready ← (if negb isInit then
                init cfg;;
                get_initialized
              else mret true);
     if ready : bool then
       await DescribeIndexStats;;
       mret true
     else mret false)
    (fun _ =>
       log Lerror "Pinecone health check failed";;
       mret false).

End PineconeLegacy.

(** ** Observations on results and traces *)

Module Obs.

(** [ceil (n / c)] for a positive [c]. *)
Definition ceil_div (n c : Z) : Z := (n + c - 1) / c.

(** The line ranges of [chunks], in order, tile [start .. last]: each
    range is non-empty, begins where the previous one ended, and the last
    one ends at [last]. *)
Fixpoint tiles (start : Z) (chunks : list Chunker.CodeChunk) (last : Z) : Prop :=
  match chunks with
  | [] => start = last + 1
  | c :: rest =>
      Chunker.startLine c = start /\ Chunker.startLine c <= Chunker.endLine c
      /\ tiles (Chunker.endLine c + 1) rest last
  end.

(** Number of lines of a chunk. *)
Definition span (c : Chunker.CodeChunk) : Z :=
  Chunker.endLine c - Chunker.startLine c + 1.

(** The concatenation of the [content] fields. *)
Definition contents (chunks : list Chunker.CodeChunk) : string :=
  foldr (fun c acc => Chunker.content c +:+ acc) EmptyString chunks.

(** The directories a walk from the root has gone through to reach a file,
    and the predicate [processDirectory] applies to each of them. *)
Definition dir_allowed (name : string) : bool :=
  negb (Js.includes Chunker.IGNORED_DIRS name) && negb (Js.startsWith name ".").

(** The files [processDirectory] hands to [chunkFile], with their full
    paths, in order. *)
Fixpoint visited_of (dirPath : string) (entry : Chunker.fs_entry)
    : list (string * option string) :=
  match entry with
  | Chunker.Directory name sub =>
      if dir_allowed name then
        match sub with
        | Some entries => flat_map (visited_of (Path.join dirPath name)) entries
        | None => []
        end
      else []
  | Chunker.File name data =>
      if Chunker.shouldProcessFile (Path.join dirPath name)
      then [(Path.join dirPath name, data)] else []
  | Chunker.Special _ => []
  end.

(** [reaches dirPath entries dirs p data]: below [dirPath], file [p] with
    contents [data] is found by going down the directories named [dirs]. *)
Inductive reaches : string -> list Chunker.fs_entry -> list string -> string
    -> option string -> Prop :=
| reaches_file dirPath entries name data :
    In (Chunker.File name data) entries ->
    reaches dirPath entries [] (Path.join dirPath name) data
| reaches_dir dirPath entries name sub dirs p data :
    In (Chunker.Directory name (Some sub)) entries ->
    reaches (Path.join dirPath name) sub dirs p data ->
    reaches dirPath entries (name :: dirs) p data.

(** The claim's reading of "inside an ignored directory", on a path alone:
    one of its directory segments (every segment between ['/'] but the
    last) is a configured ignored name or starts with ['.']. *)
Definition inside_ignored_dir (p : string) : bool :=
  existsb (fun segment => negb (dir_allowed segment)) (removelast (Js.split "/" p)).

(** *** Kinds of calls *)

Inductive kind :=
| KLog | KTimer | KUuid | KFs | KGit | KLedger | KOpenAI | KPinecone.

Definition kind_of {X : Type} (e : event X) : kind :=
  match e with
  | Log _ _ => KLog
  | Delay _ => KTimer
  | Uuidv4 => KUuid
  | Mkdir _ | FsRm _ | ReadTree _ => KFs
  | GitClone _ _ | GitCheckout _ _ => KGit
  | FindOneAndUpdate _ _ => KLedger
  | CreateEmbedding _ => KOpenAI
  | ListIndexes | CreateIndex _ | DescribeIndex _ | NsUpsert _ _
  | NsQuery _ _ _ _ | NsDeleteAll _ | DescribeIndexStats => KPinecone
  end.

Definition entry_kind (en : entry) : kind := kind_of (entry_event en).

Definition kind_eqb (a b : kind) : bool :=
  match a, b with
  | KLog, KLog | KTimer, KTimer | KUuid, KUuid | KFs, KFs | KGit, KGit
  | KLedger, KLedger | KOpenAI, KOpenAI | KPinecone, KPinecone => true
  | _, _ => false
  end.

(** The calls of a trace that are of kind [k]. *)
Definition calls_of (k : kind) (t : trace) : trace :=
  List.filter (fun en => kind_eqb (entry_kind en) k) t.

(** Whatever the environment answers, every call the program makes
    satisfies [Q]. *)
Inductive emits (Q : forall X : Type, event X -> bool) {A : Type} : io A -> Prop :=
| emits_Ret a : emits Q (Ret a)
| emits_Vis X (e : event X) k :
    Q X e = true -> (forall x, emits Q (k x)) -> emits Q (Vis e k).

Definition emitsP (Q : forall X : Type, event X -> bool) {A : Type} (p : P A) : Prop :=
  forall s, emits Q (p s).

(** Calls of a kind other than [k]. *)
Definition other_than (k : kind) (X : Type) (e : event X) : bool :=
  negb (kind_eqb (kind_of e) k).

(** Calls other than an upsert request. *)
Definition not_upsert (X : Type) (e : event X) : bool :=
  match e with
  | NsUpsert _ _ => false
  | _ => true
  end.

Definition satisfies (Q : forall X : Type, event X -> bool) (en : entry) : Prop :=
  Q _ (entry_event en) = true.

(** *** The job ledger seen through a trace *)

(** The update documents sent for [jobId], in order, each with whether
    the ledger found and updated the record. *)
Definition ledger_write (jobId : string) (en : entry)
    : option (JobModel.JobUpdate * bool) :=
  match en with
  | Entry ev reply =>
      match ev in event X return X -> option (JobModel.JobUpdate * bool) with
      | FindOneAndUpdate j u =>
          fun reply =>
            if String.eqb j jobId then
              Some (u, match reply with Ok (Some _) => true | _ => false end)
            else None
      | _ => fun _ => None
      end reply
  end.

Definition ledger_writes (jobId : string) (t : trace)
    : list (JobModel.JobUpdate * bool) :=
  omap (ledger_write jobId) t.

(** The (status, progress) pairs sent for [jobId]. *)
Definition progress_reports (jobId : string) (t : trace)
    : list (JobModel.JobStatus * Z) :=
  map (fun w => (JobModel.set_status (fst w), JobModel.set_progress (fst w)))
      (ledger_writes jobId t).

(** The successive states of job [j] under the writes of a trace that the
    ledger applied. *)
Fixpoint trajectory (j : JobModel.IJob) (ws : list (JobModel.JobUpdate * bool))
    : list JobModel.IJob :=
  match ws with
  | [] => []
  | (u, true) :: rest =>
      let j' := JobModel.apply_update j u in j' :: trajectory j' rest
  | (_, false) :: rest => trajectory j rest
  end.


(** *** File-system and git calls *)

Inductive fs_op := OpMkdir | OpClone | OpCheckout | OpRm.

Definition fs_call (en : entry) : option (fs_op * string * option exn) :=
  match en with
  | Entry ev reply =>
      match ev in event X return X -> option (fs_op * string * option exn) with
      | Mkdir d =>
          fun r => Some (OpMkdir, d, match r with Ok _ => None | Err e => Some e end)
      | GitClone _ d =>
          fun r => Some (OpClone, d, match r with Ok _ => None | Err e => Some e end)
      | GitCheckout d _ =>
          fun r => Some (OpCheckout, d, match r with Ok _ => None | Err e => Some e end)
      | FsRm d =>
          fun r => Some (OpRm, d, match r with Ok _ => None | Err e => Some e end)
      | _ => fun _ => None
      end reply
  end.

Definition fs_calls (t : trace) : list (fs_op * string * option exn) :=
  omap fs_call t.

(** The directories that exist, after the calls of a trace: [mkdir] and
    [git clone] create their target, [rm -rf] removes it; a call that
    rejected leaves what it may have created. *)
Definition dirs_step (dirs : gset string) (c : fs_op * string * option exn)
    : gset string :=
  match c with
  | (OpMkdir, d, _) | (OpClone, d, _) => {[d]} ∪ dirs
  | (OpRm, d, None) => dirs ∖ {[d]}
  | _ => dirs
  end.

Definition dirs_after (dirs : gset string) (t : trace) : gset string :=
  foldl dirs_step dirs (fs_calls t).

(** *** Pinecone calls *)

Definition upsert_request (en : entry)
    : option (string * list Types.Vector * bool) :=
  match en with
  | Entry ev reply =>
      match ev in event X return X -> option (string * list Types.Vector * bool) with
      | NsUpsert ns batch =>
          fun r => Some (ns, batch, match r with Ok _ => true | Err _ => false end)
      | _ => fun _ => None
      end reply
  end.

(** The upsert requests of a trace: namespace, batch, accepted or not. *)
Definition upsert_requests (t : trace) : list (string * list Types.Vector * bool) :=
  omap upsert_request t.

(** The records written to namespace [ns] by the accepted requests. *)
Definition written_to (ns : string) (t : trace) : list Types.Vector :=
  flat_map (fun r => if snd r && String.eqb (fst (fst r)) ns then snd (fst r) else [])
           (upsert_requests t).

Definition describe_reply (en : entry) : option (outcome IndexModel) :=
  match en with
  | Entry ev reply =>
      match ev in event X return X -> option (outcome IndexModel) with
      | DescribeIndex _ => fun r => Some r
      | _ => fun _ => None
      end reply
  end.

(** What [describeIndex] resolved to, call by call. *)
Definition describe_replies (t : trace) : list (outcome IndexModel) :=
  omap describe_reply t.

Definition delay_of (en : entry) : option Z :=
  match entry_event en with
  | Delay ms => Some ms
  | _ => None
  end.

(** The waits of a trace, in milliseconds. *)
Definition delays (t : trace) : list Z := omap delay_of t.

Definition poll_or_wait (en : entry) : option (outcome IndexModel + Z) :=
  match describe_reply en, delay_of en with
  | Some r, _ => Some (inl r)
  | None, Some ms => Some (inr ms)
  | None, None => None
  end.

(** The polls and the waits of a trace, in the order they happened. *)
Definition schedule (t : trace) : list (outcome IndexModel + Z) := omap poll_or_wait t.

Definition create_request (en : entry) : option (IndexConfig * bool) :=
  match en with
  | Entry ev reply =>
      match ev in event X return X -> option (IndexConfig * bool) with
      | CreateIndex c =>
          fun r => Some (c, match r with Ok _ => true | Err _ => false end)
      | _ => fun _ => None
      end reply
  end.

(** The index creations requested in a trace, each with whether it was
    accepted. *)
Definition create_requests (t : trace) : list (IndexConfig * bool) :=
  omap create_request t.

Definition query_namespace (en : entry) : option string :=
  match entry_event en with
  | NsQuery ns _ _ _ => Some ns
  | _ => None
  end.

(** The namespaces queried in a trace. *)
Definition query_namespaces (t : trace) : list string := omap query_namespace t.

Definition log_of (lvl : level) (en : entry) : option string :=
  match entry_event en with
  | Log l msg =>
      match l, lvl with
      | Linfo, Linfo | Lwarn, Lwarn | Lerror, Lerror => Some msg
      | _, _ => None
      end
  | _ => None
  end.

(** The messages logged at level [lvl]. *)
Definition logged (lvl : level) (t : trace) : list string := omap (log_of lvl) t.

(** A poll that did not find the index ready. *)
Definition not_ready (r : outcome IndexModel) : bool :=
  match r with
  | Ok status => negb (ready status)
  | Err _ => true
  end.

(** A poll that rejected with something other than a 404. *)
Definition poll_warned (r : outcome IndexModel) : bool :=
  match r with
  | Ok _ => false
  | Err e => negb (bool_decide (code e = Some "404"%string))
  end.

(** Polls at a fixed interval: every poll that does not find the index
    ready is followed by one wait of [ms] milliseconds. *)
Definition fixed_interval (ms : Z) (replies : list (outcome IndexModel))
    : list (outcome IndexModel + Z) :=
  flat_map (fun r => inl r :: if not_ready r then [inr ms] else []) replies.

Definition poll_warning : string := "Error describing index while waiting, retrying...".

(** What a readiness loop does, for every environment and every number
    [n] of passes allowed: the state of the service is untouched; at most
    [n] polls are made, at a fixed interval of 5 seconds; a warning is
    logged for each poll that rejected with something other than a 404;
    nothing is created or upserted; and either all [n] polls found the
    index not ready and the loop ends as [exhausted], or the last poll
    found it ready and the loop ends as [found k] after [k] failed polls. *)
Definition wait_outcome {R : Type} (n : nat) (exhausted : outcome R)
    (found : nat -> outcome R) (res : (outcome R * svc) * trace) (s : svc) : Prop :=
  let replies := describe_replies (snd res) in
  snd (fst res) = s
  /\ (length replies <= n)%nat
  /\ schedule (snd res) = fixed_interval 5000 replies
  /\ logged Lwarn (snd res)
     = map (fun _ => poll_warning) (List.filter poll_warned replies)
  /\ upsert_requests (snd res) = []
  /\ create_requests (snd res) = []
  /\ ((Forall (fun r => not_ready r = true) replies /\ length replies = n
       /\ fst (fst res) = exhausted)
      \/ (exists before status,
            replies = before ++ [Ok status] /\ ready status = true
            /\ Forall (fun r => not_ready r = true) before
            /\ fst (fst res) = found (length before))).

(** A request made for the group [vs] of one tenant, to namespace [ns]. *)
Definition request_of_group (ns : string) (vs : list Types.Vector)
    (rq : string * list Types.Vector * bool) : Prop :=
  fst (fst rq) = ns
  /\ forall v, In v (snd (fst rq)) -> exists v0, In v0 vs /\ v = Pinecone.normalize v0.

(** The vectors of [seen] that carry tenant [u], in order. *)
Definition of_tenant (u : string) (seen : list Types.Vector) : list Types.Vector :=
  filter (fun v => Types.userId (Types.metadata v) = u) seen.

(** The group an object built from [seen] holds under key [u]. *)
Definition group_of (u : string) (seen : list Types.Vector)
    : option (list Types.Vector) :=
  match of_tenant u seen with
  | [] => None
  | vs => Some vs
  end.

(** The object built so far holds, under each tenant, the vectors of that
    tenant seen so far, in order, and nothing else. *)
Definition grouping (seen : list Types.Vector)
    (acc : list (string * list Types.Vector)) : Prop :=
  NoDup (map fst acc) /\ forall u, JsObject.own acc u = group_of u seen.

(** Calls made while the index is provisioned. *)
Definition provisioning_call (X : Type) (e : event X) : bool :=
  match e with
  | Log _ _ | Delay _ | ListIndexes | CreateIndex _ | DescribeIndex _ => true
  | _ => false
  end.

(** *** The remote index seen through a trace: namespace, then id. *)

Definition write_batch (recs : gmap string Types.Vector) (batch : list Types.Vector)
    : gmap string Types.Vector :=
  foldl (fun m v => <[Types.id v := v]> m) recs batch.

Definition store_step (st : gmap string (gmap string Types.Vector))
    (r : string * list Types.Vector * bool) : gmap string (gmap string Types.Vector) :=
  match r with
  | (ns, batch, true) => <[ns := write_batch (default ∅ (st !! ns)) batch]> st
  | (_, _, false) => st
  end.

Definition store_after (st : gmap string (gmap string Types.Vector)) (t : trace)
    : gmap string (gmap string Types.Vector) :=
  foldl store_step st (upsert_requests t).

(** Every record sits in the namespace of the tenant its metadata names. *)
Definition isolated (st : gmap string (gmap string Types.Vector)) : Prop :=
  forall ns recs i v,
    st !! ns = Some recs -> recs !! i = Some v ->
    ns = Pinecone.getNamespaceForUser (Types.userId (Types.metadata v)).

(** The records a query on namespace [ns] can return. *)
Definition stored_in (st : gmap string (gmap string Types.Vector)) (ns : string)
    (v : Types.Vector) : Prop :=
  exists recs i, st !! ns = Some recs /\ recs !! i = Some v.


Definition embedding_input (en : entry) : option string :=
  match entry_event en with
  | CreateEmbedding input => Some input
  | _ => None
  end.

(** The texts sent to the embedding service, in order. *)
Definition embedding_inputs (t : trace) : list string := omap embedding_input t.

Definition delete_request (en : entry) : option (string * bool) :=
  match en with
  | Entry ev reply =>
      match ev in event X return X -> option (string * bool) with
      | NsDeleteAll ns =>
          fun r => Some (ns, match r with Ok _ => true | Err _ => false end)
      | _ => fun _ => None
      end reply
  end.

(** The namespaces a trace asked to empty, each with whether the request
    was accepted. *)
Definition delete_requests (t : trace) : list (string * bool) := omap delete_request t.

Definition query_reply (en : entry) : option (string * outcome (list Types.Vector)) :=
  match en with
  | Entry ev reply =>
      match ev in event X return X -> option (string * outcome (list Types.Vector)) with
      | NsQuery ns _ _ _ => fun r => Some (ns, r)
      | _ => fun _ => None
      end reply
  end.

(** The queries of a trace: the namespace asked and what it answered. *)
Definition query_replies (t : trace) : list (string * outcome (list Types.Vector)) :=
  omap query_reply t.

Definition stats_reply (en : entry) : option bool :=
  match en with
  | Entry ev reply =>
      match ev in event X return X -> option bool with
      | DescribeIndexStats => fun r => Some match r with Ok _ => true | Err _ => false end
      | _ => fun _ => None
      end reply
  end.

(** The [describeIndexStats] calls of a trace, each with whether it
    resolved. *)
Definition stats_replies (t : trace) : list bool := omap stats_reply t.

(** The metadata [processChunk] attaches to the vector of a chunk. *)
Definition metadata_of (repoUrl userId commit : string) (chunk : Chunker.CodeChunk)
    : Types.VectorMetadata :=
  {| Types.repoUrl := repoUrl;
     Types.filePath := Chunker.filePath chunk;
     Types.chunkIndex := Chunker.chunkIndex chunk;
     Types.commit := Some commit;
     Types.userId := userId;
     Types.startLine := Chunker.startLine chunk;
     Types.endLine := Chunker.endLine chunk |}.

(** The update document that marks a job as failed. *)
Definition failed_update (msg : string) : JobModel.JobUpdate :=
  {| JobModel.set_status := JobModel.failed; JobModel.set_progress := 0;
     JobModel.set_error := Some msg |}.

(** The calls of the [try] block of the pipeline: no file-system or git
    operation other than reading the tree, and no ledger update that sets
    [failed]. *)
Definition job_call (X : Type) (e : event X) : bool :=
  match e with
  | FindOneAndUpdate _ u =>
      match JobModel.set_status u with JobModel.failed => false | _ => true end
  | Mkdir _ | FsRm _ | GitClone _ _ | GitCheckout _ _ => false
  | _ => true
  end.

(** [ensures Q Post p]: in every environment, every call [p] makes
    satisfies [Q], and when [p] resolves, its value satisfies [Post]. *)
Definition ensures (Q : forall X : Type, event X -> bool) {A : Type}
    (Post : A -> Prop) (p : P A) : Prop :=
  forall s o h,
    Forall (satisfies Q) (snd (exec p s o h))
    /\ forall a, fst (fst (exec p s o h)) = Ok a -> Post a.

(** Calls that touch no namespace other than the one of tenant [u]: an
    upsert goes to [user_<u>], and nothing is queried or deleted. *)
Definition own_namespace (u : string) (X : Type) (e : event X) : bool :=
  match e with
  | NsUpsert ns _ => String.eqb ns (Pinecone.getNamespaceForUser u)
  | NsQuery _ _ _ _ | NsDeleteAll _ => false
  | _ => true
  end.

(** An upsert request carries at least one vector and at most
    [BATCH_SIZE]. *)
Definition batch_sized (X : Type) (e : event X) : bool :=
  match e with
  | NsUpsert _ batch =>
      (1 <=? length batch)%nat && (length batch <=? Pinecone.BATCH_SIZE)%nat
  | _ => true
  end.

(** The requests of a call that stops at the first rejected one: either
    every request was accepted, or the last one was rejected, every one
    before it was accepted, and the call rejects. *)
Definition stops_at_rejection {A : Type}
    (rqs : list (string * list Types.Vector * bool)) (r : outcome A) : Prop :=
  Forall (fun rq => snd rq = true) rqs
  \/ exists before ns batch e,
       rqs = before ++ [(ns, batch, false)]
       /\ Forall (fun rq => snd rq = true) before
       /\ r = Err e.

(** Calls that do not provision the index: no listing, creation or
    description of an index, and no wait. *)
Definition no_provisioning (X : Type) (e : event X) : bool :=
  match e with
  | ListIndexes | CreateIndex _ | DescribeIndex _ | Delay _ => false
  | _ => true
  end.

Definition clone_request (en : entry) : option (string * string) :=
  match entry_event en with
  | GitClone repoUrl dir => Some (repoUrl, dir)
  | _ => None
  end.

(** The clones of a trace: repository and target directory. *)
Definition clone_requests (t : trace) : list (string * string) := omap clone_request t.

Definition checkout_request (en : entry) : option (string * string) :=
  match entry_event en with
  | GitCheckout dir commit => Some (dir, commit)
  | _ => None
  end.

(** The checkouts of a trace: working copy and revision. *)
Definition checkout_requests (t : trace) : list (string * string) :=
  omap checkout_request t.

(** The text of a list of lines, each followed by a line feed. *)
Definition lines_text (lines : list string) : string :=
  foldr (fun l acc => l +:+ Js.newline +:+ acc) EmptyString lines.

(** The lines of a file that chunk [c] claims to cover: lines
    [startLine c] to [endLine c], counted from 1. *)
Definition lines_of (c : Chunker.CodeChunk) (lines : list string) : list string :=
  Pinecone.array_slice lines (Z.to_nat (Chunker.startLine c - 1))
    (Z.to_nat (Chunker.endLine c)).

(** A trace that holds log entries only. *)
Definition log_entries (t : trace) : Prop :=
  Forall (satisfies (fun X e => kind_eqb (kind_of e) KLog)) t.

(** The file-system and git calls [cloneRepository] sets out to make, in
    order: the checkout only when a non-empty commit is asked for. *)
Definition planned (commit : option string) : list fs_op :=
  [OpMkdir; OpClone] ++ (if Js.truthy commit then [OpCheckout] else []).

(** The remote index, which held [st] at first, answers a query on a
    namespace with records that namespace holds when the query arrives. *)
Definition answers_from (st : gmap string (gmap string Types.Vector)) (o : oracle)
    : Prop :=
  forall h ns vector topK filter matches,
    o _ h (NsQuery ns vector topK filter) = Ok matches ->
    Forall (stored_in (store_after st h) ns) matches.

(** The file-system and git calls resolve, whatever they are asked. *)
Definition working_copy_available (o : oracle) : Prop :=
  (forall h d, o _ h (Mkdir d) = Ok tt)
  /\ (forall h r d, o _ h (GitClone r d) = Ok tt)
  /\ (forall h d c, o _ h (GitCheckout d c) = Ok tt).

(** What the health route answers, given [readyState] and the calls it
    made: never 500; 200 with status "ok" exactly when mongoose is
    connected ([readyState] 1) and Pinecone's statistics call was made
    once and resolved, and 503 with status "degraded" otherwise; the body
    reports the two connections as they were found. *)
Definition health_answer (readyState : Z)
    (res : (outcome (Z * Health.report) * svc) * trace) : Prop :=
  exists code body,
    fst (fst res) = Ok (code, body)
    /\ (code = 200 /\ Health.status body = "ok"%string
        \/ code = 503 /\ Health.status body = "degraded"%string)
    /\ (code = 200 <-> readyState = 1 /\ stats_replies (snd res) = [true])
    /\ Health.mongo_connected body = (readyState =? 1)
    /\ (Health.pinecone_connected body = true <-> stats_replies (snd res) = [true]).

(** The warning the earlier revision logs before it initializes itself
    from [upsert] or [query]. *)
Definition legacy_init_warning : entry :=
  Entry (Log Lwarn "Pinecone client not initialized. Attempting initialization now...") tt.

End Obs.

Import Obs.

(** ** Concrete environments *)

Module Scenario.

Definition cfg : Config.config :=
  {| Config.tempDir := "./work"; Config.indexName := "code";
     Config.cloud := "aws"; Config.region := "us-east-1" |}.

Definition job0 : JobModel.IJob :=
  {| JobModel.jobId := "job1"; JobModel.userId := "u1";
     JobModel.repoUrl := "https://github.com/u/r.git"; JobModel.commit := None;
     JobModel.status := JobModel.queued; JobModel.progress := 0;
     JobModel.error := None |}.

Definition boom : exn := Error "boom".

Definition ready_index : IndexModel :=
  {| dimension := 1536; metric := "cosine"; ready := true |}.

Definition pending_index : IndexModel :=
  {| dimension := 1536; metric := "cosine"; ready := false |}.

(** Every call succeeds; the repository holds [tree]; the index exists
    and is ready. *)
Definition accept (tree : option (list Chunker.fs_entry)) {X : Type} (e : event X) : X :=
  match e in event X return X with
  | Log _ _ => tt
  | Delay _ => tt
  | Uuidv4 => "00000000-0000-4000-8000-000000000000"%string
  | Mkdir _ => Ok tt
  | GitClone _ _ => Ok tt
  | GitCheckout _ _ => Ok tt
  | FsRm _ => Ok tt
  | ReadTree _ => tree
  | FindOneAndUpdate _ u => Ok (Some (JobModel.apply_update job0 u))
  | CreateEmbedding _ => Ok []
  | ListIndexes => Ok ["code"%string]
  | CreateIndex _ => Ok tt
  | DescribeIndex _ => Ok ready_index
  | NsUpsert _ _ => Ok tt
  | NsQuery _ _ _ _ => Ok []
  | NsDeleteAll _ => Ok tt
  | DescribeIndexStats => Ok tt
  end.

(** The call rejects with [err], when it is one that can reject. *)
Definition reject (err : exn) {X : Type} (e : event X) : X :=
  match e in event X return X with
  | Log _ _ => tt
  | Delay _ => tt
  | Uuidv4 => "00000000-0000-4000-8000-000000000000"%string
  | Mkdir _ => Err err
  | GitClone _ _ => Err err
  | GitCheckout _ _ => Err err
  | FsRm _ => Err err
  | ReadTree _ => None
  | FindOneAndUpdate _ _ => Err err
  | CreateEmbedding _ => Err err
  | ListIndexes => Err err
  | CreateIndex _ => Err err
  | DescribeIndex _ => Err err
  | NsUpsert _ _ => Err err
  | NsQuery _ _ _ _ => Err err
  | NsDeleteAll _ => Err err
  | DescribeIndexStats => Err err
  end.

(** The environment in which the calls of the kinds in [failing] reject
    with [boom] and every other call succeeds. *)
Definition world (failing : kind -> bool) (tree : option (list Chunker.fs_entry))
    : oracle :=
  fun X _ e => if failing (kind_of e) then reject boom e else accept tree e.

Definition nothing_fails (k : kind) : bool := false.

Definition git_fails (k : kind) : bool := kind_eqb k KGit.

Definition openai_fails (k : kind) : bool := kind_eqb k KOpenAI.

(** A repository with one source file of two lines. *)
Definition small_repo : option (list Chunker.fs_entry) :=
  Some [Chunker.File "main.ts" (Some ("let x = 1;" +:+ Js.newline +:+ "let y = 2;"))].


(** The index does not exist yet and, once created, never becomes ready:
    [describeIndex] rejects with a 404 on even polls and reports
    [ready: false] on odd ones. *)
Definition never_ready : oracle :=
  fun X h e =>
    match e in event X return X with
    | ListIndexes => Ok []
    | DescribeIndex _ =>
        if Nat.even (length h)
        then Err {| message := Some "not found"%string; code := Some "404"%string |}
        else Ok pending_index
    | e' => accept None e'
    end.

(** The clone goes through and the checkout of the commit rejects. *)
Definition checkout_fails : oracle :=
  fun X h e =>
    match e in event X return X with
    | GitCheckout _ _ => Err boom
    | e' => accept small_repo e'
    end.

Definition busy : exn := Error "EBUSY: resource busy or locked".

(** The clone rejects and the job directory cannot be removed. *)
Definition stuck_directory : oracle :=
  fun X h e =>
    match e in event X return X with
    | GitClone _ _ => Err boom
    | FsRm _ => Err busy
    | e' => accept small_repo e'
    end.

(** A remote index that is empty at first, accepts every upsert, and
    answers a query on a namespace with the records that namespace holds,
    at most [topK] of them. *)
Definition remote_index : oracle :=
  fun X h e =>
    match e in event X return X with
    | NsQuery ns _ topK _ =>
        Ok (take (Z.to_nat topK)
              (map snd (map_to_list (default ∅ (store_after ∅ h !! ns)))))
    | e' => accept None e'
    end.

(** One vector of tenant [alice] and one of tenant [7]. *)
Definition vector_of_alice : Types.Vector :=
  {| Types.id := "a"; Types.values := [];
     Types.metadata :=
       {| Types.repoUrl := "r"; Types.filePath := "f"; Types.chunkIndex := 0;
          Types.commit := None; Types.userId := "alice";
          Types.startLine := 1; Types.endLine := 2 |} |}.

Definition vector_of_7 : Types.Vector :=
  {| Types.id := "b"; Types.values := [];
     Types.metadata :=
       {| Types.repoUrl := "r"; Types.filePath := "g"; Types.chunkIndex := 0;
          Types.commit := Some "c0ffee"%string; Types.userId := "7";
          Types.startLine := 1; Types.endLine := 9 |} |}.

(** The index does not exist yet and, once created, never becomes ready:
    of every three polls, [describeIndex] rejects the first with a 404,
    rejects the second with another error, and reports [ready: false] on
    the third. *)
Definition flaky_provisioning : oracle :=
  fun X h e =>
    match e in event X return X with
    | ListIndexes => Ok []
    | DescribeIndex _ =>
        match (length (describe_replies h) mod 3)%nat with
        | O => Err {| message := Some "not found"%string; code := Some "404"%string |}
        | S O => Err boom
        | _ => Ok pending_index
        end
    | e' => accept None e'
    end.

End Scenario.

(** * Properties *)

(** ** Paths *)

(** [path.join] normalizes what it joins: a leading [./] and doubled
    separators go, [..] climbs, a trailing separator stays, and an empty
    result is [.]. *)
Example join_normalizes :
  map (fun p => Path.join (fst p) (snd p))
    [("./work", "job1"); ("work/", "job1"); ("", "a"); ("/tmp", ".."); ("a", "../../b");
     ("", ""); ("/tmp/embed", "x/"); ("a//b", "./c"); ("a/b/", ""); ("a", "..")]%string
  = ["work/job1"; "work/job1"; "a"; "/"; "../b";
     "."; "/tmp/embed/x/"; "a/b/c"; "a/b/"; "."]%string.
Proof. vm_compute. reflexivity. Qed.

(** ** The chunker *)

Section ChunkerFacts.

Local Open Scope Z_scope.
Local Arguments String.append !_ _ : simpl nomatch.

Lemma str_app_assoc (a b c : string) : (a +:+ b) +:+ c = a +:+ (b +:+ c).
Proof. induction a as [|x a IH]; [reflexivity | simpl; f_equal; exact IH]. Qed.

Lemma str_app_nil_r (a : string) : a +:+ EmptyString = a.
Proof. induction a as [|x a IH]; [reflexivity | simpl; f_equal; exact IH]. Qed.

(** The text of a list of lines, each followed by a line feed. *)
Lemma split_nonempty (sep : ascii) (s : string) : Js.split sep s <> [].
Proof.
  induction s as [|c s IH]; simpl; [discriminate|].
  destruct (Ascii.eqb c sep); [discriminate|].
  destruct (Js.split sep s); discriminate.
Qed.

Lemma split_length_pos (sep : ascii) (s : string) :
  1 <= Z.of_nat (length (Js.split sep s)).
Proof.
  pose proof (split_nonempty sep s) as H.
  destruct (Js.split sep s); [congruence | simpl length; lia].
Qed.

Lemma lines_text_split (s : string) :
  foldr (fun l acc => l +:+ Js.newline +:+ acc) EmptyString (Js.split Js.LF s)
  = s +:+ Js.newline.
Proof.
  induction s as [|c s IH]; [reflexivity|].
  simpl Js.split. destruct (Ascii.eqb c Js.LF) eqn:Hc.
  - apply Ascii.eqb_eq in Hc. subst c. cbn [foldr]. rewrite IH. reflexivity.
  - pose proof (split_nonempty Js.LF s) as Hne.
    destruct (Js.split Js.LF s) as [|piece pieces]; [congruence|].
    cbn [foldr] in *. apply (f_equal (String c)) in IH. exact IH.
Qed.

Lemma chunk_loop_contents fp C lines cur lc ci sl :
  contents (Chunker.chunk_loop fp C lines cur lc ci sl)
  = match lines with
    | [] => EmptyString
    | _ => cur +:+ foldr (fun l acc => l +:+ Js.newline +:+ acc) EmptyString lines
    end.
Proof.
  revert cur lc ci sl.
  induction lines as [|line rest IH]; intros cur lc ci sl; [reflexivity|].
  cbn [Chunker.chunk_loop foldr].
  destruct ((C <=? lc + 1) || match rest with [] => true | _ => false end) eqn:Hc.
  - cbn [contents foldr Chunker.content]. fold (contents (Chunker.chunk_loop fp C rest "" 0 (ci + 1) (sl + (lc + 1)))).
    rewrite IH. rewrite !str_app_assoc.
    destruct rest; [now rewrite !str_app_nil_r | reflexivity].
  - rewrite IH. destruct rest as [|l2 rest].
    + rewrite orb_true_r in Hc. discriminate.
    + now rewrite !str_app_assoc.
Qed.

(** C10: for every file readable as text, the [content] fields of the
    chunks of [chunkFile], concatenated in order, are the file's text
    followed by exactly one line feed: every line, the last one included,
    is stored with a trailing line feed. *)
Theorem chunkFile_contents (filePath text : string) (chunkSize : Z) :
  contents (Chunker.chunkFile filePath (Some text) chunkSize) = text +:+ Js.newline.
Proof.
  unfold Chunker.chunkFile. rewrite chunk_loop_contents.
  pose proof (split_nonempty Js.LF text) as Hne.
  destruct (Js.split Js.LF text) eqn:Hs; [congruence|].
  rewrite <- Hs, lines_text_split. reflexivity.
Qed.

Lemma ceil_div_bounds (n c : Z) :
  0 < c -> (ceil_div n c - 1) * c < n <= ceil_div n c * c.
Proof.
  intros Hc. unfold ceil_div.
  pose proof (Z.div_mod (n + c - 1) c ltac:(lia)) as Hdm.
  pose proof (Z.mod_pos_bound (n + c - 1) c Hc) as Hm.
  nia.
Qed.

Lemma ceil_div_step (n c : Z) : 0 < c -> ceil_div (c + n) c = 1 + ceil_div n c.
Proof.
  intros Hc. unfold ceil_div.
  replace (c + n + c - 1) with (1 * c + (n + c - 1)) by lia.
  rewrite Z.div_add_l by lia. reflexivity.
Qed.

Lemma ceil_div_one (n c : Z) : 1 <= n <= c -> ceil_div n c = 1.
Proof.
  intros Hn. unfold ceil_div.
  symmetry. apply (Z.div_unique (n + c - 1) c 1 (n - 1)); lia.
Qed.

Lemma chunk_loop_shape fp C lines cur lc ci sl :
  1 <= C -> 0 <= lc < C -> lines <> [] ->
  let out := Chunker.chunk_loop fp C lines cur lc ci sl in
  let len := Z.of_nat (length lines) in
  Z.of_nat (length out) = ceil_div (lc + len) C
  /\ (forall i c, out !! i = Some c -> Chunker.chunkIndex c = ci + Z.of_nat i)
  /\ (forall i c, out !! i = Some c -> (S i < length out)%nat -> span c = C)
  /\ tiles sl out (sl + lc + len - 1).
Proof.
  intros HC. revert cur lc ci sl.
  induction lines as [|line rest IH]; intros cur lc ci sl Hlc Hne; [congruence|].
  cbn [Chunker.chunk_loop]. cbv zeta.
  destruct rest as [|l2 rest'].
  - (* the last line: a chunk is always emitted *)
    rewrite orb_true_r. cbn [Chunker.chunk_loop length].
    split; [|split; [|split]].
    + rewrite ceil_div_one; simpl; lia.
    + intros [|i] c Hi; simpl in Hi; [|discriminate].
      injection Hi as <-. simpl. lia.
    + intros i c _ Hi. simpl in Hi. lia.
    + cbn [tiles Chunker.startLine Chunker.endLine]. simpl length. lia.
  - set (rest := l2 :: rest') in *.
    assert (Hrest : rest <> []) by (subst rest; discriminate).
    rewrite orb_false_r.
    destruct (C <=? lc + 1) eqn:Hfull.
    + apply Z.leb_le in Hfull. assert (Hlc1 : lc + 1 = C) by lia.
      destruct (IH "" 0 (ci + 1) (sl + (lc + 1)) ltac:(lia) Hrest)
        as (Hlen & Hidx & Hspan & Htiles).
      cbv zeta in Hlen, Hidx, Hspan, Htiles.
      split; [|split; [|split]].
      * cbn [length]. rewrite Nat2Z.inj_succ, Hlen.
        replace (lc + Z.of_nat (S (length rest))) with (C + (0 + Z.of_nat (length rest)))
          by (rewrite Nat2Z.inj_succ; lia).
        rewrite ceil_div_step by lia. lia.
      * intros [|i] c Hi; simpl in Hi.
        -- injection Hi as <-. simpl. lia.
        -- rewrite (Hidx i c Hi). lia.
      * intros [|i] c Hi Hlt; simpl in Hi.
        -- injection Hi as <-. unfold span. simpl. lia.
        -- apply (Hspan i c Hi). cbn [length] in Hlt. lia.
      * cbn [tiles Chunker.startLine Chunker.endLine].
        split; [reflexivity | split; [lia|]].
        replace (sl + (lc + 1) - 1 + 1) with (sl + (lc + 1)) by lia.
        replace (sl + lc + Z.of_nat (length (line :: rest)) - 1)
          with (sl + (lc + 1) + 0 + Z.of_nat (length rest) - 1)
          by (cbn [length]; rewrite Nat2Z.inj_succ; lia).
        exact Htiles.
    + apply Z.leb_gt in Hfull.
      destruct (IH (cur +:+ line +:+ Js.newline) (lc + 1) ci sl ltac:(lia) Hrest)
        as (Hlen & Hidx & Hspan & Htiles).
      cbv zeta in Hlen, Hidx, Hspan, Htiles.
      replace (lc + Z.of_nat (length (line :: rest)))
        with (lc + 1 + Z.of_nat (length rest))
        by (cbn [length]; rewrite Nat2Z.inj_succ; lia).
      split; [|split; [|split]]; try assumption.
      replace (sl + lc + Z.of_nat (length (line :: rest)) - 1)
        with (sl + (lc + 1) + Z.of_nat (length rest) - 1)
        by (cbn [length]; rewrite Nat2Z.inj_succ; lia).
      exact Htiles.
Qed.

(** C2 (as amended): for every file readable as text and every chunk size
    [C > 0], with [N] the number of lines [split('\n')] gives (one more
    than the number of line feeds, so at least 1, also for an empty file),
    [chunkFile] returns exactly [ceil (N / C)] chunks; their sequence
    indices are [0 .. k-1] in order; every chunk but the last spans exactly
    [C] lines; and the line ranges are contiguous, non-overlapping and
    cover exactly [1 .. N].  A file that cannot be read gives no chunk. *)
Theorem chunkFile_shape (filePath text : string) (chunkSize : Z) :
  0 < chunkSize ->
  let N := Z.of_nat (length (Js.split Js.LF text)) in
  let chunks := Chunker.chunkFile filePath (Some text) chunkSize in
  1 <= N
  /\ Z.of_nat (length chunks) = ceil_div N chunkSize
  /\ (Z.of_nat (length chunks) - 1) * chunkSize < N <= Z.of_nat (length chunks) * chunkSize
  /\ (forall i c, chunks !! i = Some c -> Chunker.chunkIndex c = Z.of_nat i)
  /\ (forall i c, chunks !! i = Some c -> (S i < length chunks)%nat -> span c = chunkSize)
  /\ tiles 1 chunks N
  /\ Chunker.chunkFile filePath None chunkSize = [].
Proof.
  intros HC N chunks.
  pose proof (split_length_pos Js.LF text) as HN. fold N in HN.
  destruct (chunk_loop_shape filePath chunkSize (Js.split Js.LF text) "" 0 0 1
              ltac:(lia) ltac:(lia) (split_nonempty Js.LF text))
    as (Hlen & Hidx & Hspan & Htiles).
  cbv zeta in Hlen, Hidx, Hspan, Htiles.
  change (Chunker.chunk_loop filePath chunkSize (Js.split Js.LF text) "" 0 0 1)
    with chunks in *.
  fold N in Hlen, Htiles.
  replace (0 + N) with N in Hlen by lia.
  replace (1 + 0 + N - 1) with N in Htiles by lia.
  split; [exact HN|]. split; [exact Hlen|].
  split; [rewrite Hlen; apply ceil_div_bounds; lia|].
  split; [intros i c Hi; rewrite (Hidx i c Hi); lia|].
  split; [exact Hspan|]. split; [exact Htiles | reflexivity].
Qed.

(** A three-line file without final line feed, chunk size 2: two chunks,
    lines 1-2 and 3-3. *)
Lemma chunkFile_shape_witness :
  let chunks :=
    Chunker.chunkFile "a.ts"
      (Some ("x" +:+ Js.newline +:+ "y" +:+ Js.newline +:+ "z")) 2 in
  0 < 2 /\ Z.of_nat (length chunks) = 2 /\ tiles 1 chunks 3.
Proof.
  pose proof (chunkFile_shape "a.ts"
                ("x" +:+ Js.newline +:+ "y" +:+ Js.newline +:+ "z") 2 eq_refl) as H.
  cbv zeta in H. destruct H as (_ & Hlen & _ & _ & _ & Htiles & _).
  split; [reflexivity|]. split; [exact Hlen | exact Htiles].
Defined.

(** C2 as stated fails on an empty file: [''.split('\n')] is [['']], the
    loop runs once, and [chunkFile] returns one chunk whose content is a
    single line feed, covering line 1. *)
Lemma chunkFile_empty_file :
  Chunker.chunkFile "empty.ts" (Some EmptyString) 500
  = [ {| Chunker.content := Js.newline; Chunker.filePath := "empty.ts";
         Chunker.chunkIndex := 0; Chunker.startLine := 1; Chunker.endLine := 1 |} ]
  /\ length (Chunker.chunkFile "empty.ts" (Some EmptyString) 500) <> 0%nat.
Proof. split; [reflexivity | discriminate]. Qed.

(** The scenario of the spec: files of 1200 and 10 lines and an empty
    file, chunk size 500. *)
Example chunkFile_1200_lines :
  map (fun c => (Chunker.startLine c, Chunker.endLine c))
      (Chunker.chunk_loop "big.ts" 500 (repeat EmptyString 1200) EmptyString 0 0 1)
  = [(1, 500); (501, 1000); (1001, 1200)].
Proof. vm_compute. reflexivity. Qed.

Lemma includes_In (xs : list string) (x : string) :
  Js.includes xs x = true <-> In x xs.
Proof.
  unfold Js.includes. rewrite existsb_exists. split.
  - intros (y & Hy & Heq). apply String.eqb_eq in Heq. now subst.
  - intros Hx. exists x. split; [exact Hx | apply String.eqb_refl].
Qed.

Lemma processEntry_visited (chunkSize : Z) (e : Chunker.fs_entry) :
  forall dirPath,
    Chunker.processEntry chunkSize dirPath e
    = flat_map (fun f => Chunker.chunkFile (fst f) (snd f) chunkSize) (visited_of dirPath e).
Proof.
  induction e as [name data | name | name | name entries IH]
    using Chunker.fs_entry_nested_ind; intros dirPath.
  - cbn [Chunker.processEntry visited_of].
    destruct (Chunker.shouldProcessFile (Path.join dirPath name)); simpl;
      [now rewrite app_nil_r | reflexivity].
  - reflexivity.
  - cbn [Chunker.processEntry visited_of]. unfold dir_allowed.
    destruct (negb _ && negb _); reflexivity.
  - cbn [Chunker.processEntry visited_of]. unfold dir_allowed.
    destruct (negb _ && negb _); [|reflexivity].
    induction IH as [|x l Hx _ IHl]; [reflexivity|].
    cbn [flat_map]. rewrite flat_map_app, Hx, IHl. reflexivity.
Qed.

Lemma walk_visited root entries chunkSize :
  Chunker.walkAndChunkDirectory root (Some entries) chunkSize
  = flat_map (fun f => Chunker.chunkFile (fst f) (snd f) chunkSize)
      (flat_map (visited_of root) entries).
Proof.
  unfold Chunker.walkAndChunkDirectory, Chunker.processDirectory.
  induction entries as [|e l IH]; [reflexivity|].
  cbn [flat_map]. rewrite flat_map_app, processEntry_visited, IH. reflexivity.
Qed.

Lemma reaches_weaken dirPath e entries dirs p data :
  In e entries -> reaches dirPath [e] dirs p data -> reaches dirPath entries dirs p data.
Proof.
  intros He Hr.
  inversion Hr as [? ? n d Hn | ? ? n sub ds ? ? Hn Hsub]; subst.
  - destruct Hn as [-> | []]. now constructor.
  - destruct Hn as [-> | []]. now apply reaches_dir with (sub := sub).
Qed.

Lemma visited_reaches (e : Chunker.fs_entry) :
  forall dirPath p data,
    In (p, data) (visited_of dirPath e) ->
    exists dirs, reaches dirPath [e] dirs p data
                 /\ forallb dir_allowed dirs = true
                 /\ Chunker.shouldProcessFile p = true.
Proof.
  induction e as [name data0 | name | name | name entries IH]
    using Chunker.fs_entry_nested_ind; intros dirPath p data Hin.
  - cbn [visited_of] in Hin.
    destruct (Chunker.shouldProcessFile (Path.join dirPath name)) eqn:Hs;
      [|destruct Hin].
    destruct Hin as [Heq | []]. injection Heq as <- <-.
    exists []. split; [constructor; left; reflexivity | split; [reflexivity | exact Hs]].
  - destruct Hin.
  - cbn [visited_of] in Hin. destruct (dir_allowed name); destruct Hin.
  - cbn [visited_of] in Hin. destruct (dir_allowed name) eqn:Hd; [|destruct Hin].
    apply in_flat_map in Hin. destruct Hin as (x & Hx & Hin).
    rewrite Forall_forall in IH.
    destruct (IH x ltac:(now apply list_elem_of_In) _ _ _ Hin) as (dirs & Hr & Hall & Hs).
    exists (name :: dirs). split; [|split; [simpl; now rewrite Hd | exact Hs]].
    apply reaches_dir with (sub := entries); [left; reflexivity|].
    now apply reaches_weaken with (e := x).
Qed.

Lemma reaches_visited dirPath entries dirs p data :
  reaches dirPath entries dirs p data ->
  forallb dir_allowed dirs = true ->
  Chunker.shouldProcessFile p = true ->
  In (p, data) (flat_map (visited_of dirPath) entries).
Proof.
  induction 1 as [dirPath entries name data Hin
                 | dirPath entries name sub dirs p data Hin Hr IH];
    intros Hall Hs.
  - apply in_flat_map. exists (Chunker.File name data). split; [exact Hin|].
    cbn [visited_of]. rewrite Hs. left; reflexivity.
  - simpl in Hall. apply andb_prop in Hall as [Hd Hall].
    apply in_flat_map. exists (Chunker.Directory name (Some sub)). split; [exact Hin|].
    cbn [visited_of]. rewrite Hd. now apply IH.
Qed.

(** C8 (as amended): [shouldProcessFile] returns true iff the extension of
    the path ([path.extname], compared lower-cased) is in the allow-list;
    it does not look at the directories of the path.  Ignored directories
    are left out by the walk: [walkAndChunkDirectory] chunks exactly the
    files it reaches from the root through sub-directories whose names are
    neither in [IGNORED_DIRS] nor start with ['.'], and whose full path
    [shouldProcessFile] accepts. *)
Theorem shouldProcessFile_and_walk :
  (forall p, Chunker.shouldProcessFile p = true
             <-> In (Js.toLowerCase (Path.extname p)) Chunker.extensions)
  /\ (forall root entries chunkSize,
        Chunker.walkAndChunkDirectory root (Some entries) chunkSize
        = flat_map (fun f => Chunker.chunkFile (fst f) (snd f) chunkSize)
            (flat_map (visited_of root) entries))
  /\ (forall root entries p data,
        In (p, data) (flat_map (visited_of root) entries)
        <-> exists dirs, reaches root entries dirs p data
                         /\ forallb dir_allowed dirs = true
                         /\ Chunker.shouldProcessFile p = true).
Proof.
  split; [|split].
  - intros p. unfold Chunker.shouldProcessFile. apply includes_In.
  - apply walk_visited.
  - intros root entries p data. split.
    + intros Hin. apply in_flat_map in Hin. destruct Hin as (e & He & Hin).
      destruct (visited_reaches e root p data Hin) as (dirs & Hr & Hall & Hs).
      exists dirs. split; [|split; assumption].
      now apply reaches_weaken with (e := e).
    + intros (dirs & Hr & Hall & Hs). now apply reaches_visited with (dirs := dirs).
Qed.

(** C8 as stated fails on the path the unit tests use: its extension is
    allowed, it lies under a directory whose name starts with ['.'], and
    [shouldProcessFile] accepts it. *)
Lemma shouldProcessFile_ignores_directories :
  ~ (Chunker.shouldProcessFile ".github/workflows/test.yml" = true
     <-> (Js.includes Chunker.extensions
            (Js.toLowerCase (Path.extname ".github/workflows/test.yml")) = true
          /\ inside_ignored_dir ".github/workflows/test.yml" = false)).
Proof.
  intros [H _]. destruct (H eq_refl) as [_ Hdir]. vm_compute in Hdir. discriminate.
Qed.

(** The unit tests of [shouldProcessFile]. *)
Example shouldProcessFile_tests :
  forallb (fun ext => Chunker.shouldProcessFile ("/path/to/file" +:+ ext)) Chunker.extensions
  = true
  /\ forallb (fun ext => negb (Chunker.shouldProcessFile ("/path/to/file" +:+ ext)))
       [".md"; ".txt"; ".yaml"; ".lock"; ".png"; ".jpg"; ".svg"; ".pdf"; ".doc";
        ".xls"; ".csv"; ".git"; ".env"; ".log"; ".bak"]%string = true
  /\ map Chunker.shouldProcessFile
       ["/path/with.dot/file.js"; "/path/with.dot/file.md"; "/path/to/file.JS";
        "/path/to/file.TS"; "/path/to/file.PY"; ""; "file"; ".gitignore";
        "Dockerfile"; "/path/to/.env"]%string
     = [true; false; true; true; true; false; false; false; false; false].
Proof. vm_compute. repeat split. Qed.

End ChunkerFacts.

(** ** Running programs *)

Lemma run_bind {A B : Type} (m : io A) (f : A -> io B) (o : oracle) (h : trace) :
  run (io_bind m f) o h
  = (fst (run (f (fst (run m o h))) o (h ++ snd (run m o h))),
     snd (run m o h) ++ snd (run (f (fst (run m o h))) o (h ++ snd (run m o h)))).
Proof.
  revert h. induction m as [a | X e k IH]; intros h.
  - cbn [run io_bind fst snd]. rewrite app_nil_r. cbn [app].
    now destruct (run (f a) o h).
  - cbn [run io_bind fst snd]. rewrite IH. cbn [fst snd].
    rewrite <- !app_assoc. reflexivity.
Qed.

Section EffFacts.

Context {A B : Type}.

Lemma exec_bind (m : P A) (f : A -> P B) s o h :
  exec (m ≫= f) s o h
  = match exec m s o h with
    | ((Ok a, s1), t1) => after t1 (exec (f a) s1 o (h ++ t1))
    | ((Err e, s1), t1) => ((Err e, s1), t1)
    end.
Proof.
  unfold exec, mbind, P_bind, bind, after. rewrite run_bind.
  destruct (run (m s) o h) as [[[a | e] s1] t1]; cbn [fst snd run];
    [reflexivity | now rewrite app_nil_r].
Qed.

End EffFacts.

Section EffFacts1.

Context {A : Type}.

Lemma exec_ret (a : A) s o h : exec (mret a) s o h = ((Ok a, s), []).
Proof. reflexivity. Qed.

Lemma exec_throw (e : exn) s o h : exec (throw e : P A) s o h = ((Err e, s), []).
Proof. reflexivity. Qed.

Lemma exec_perform (e : event A) s o h :
  exec (perform e) s o h = ((Ok (o _ h e), s), [Entry e (o _ h e)]).
Proof. reflexivity. Qed.

Lemma exec_await (e : event (outcome A)) s o h :
  exec (await e) s o h = ((o _ h e, s), [Entry e (o _ h e)]).
Proof. reflexivity. Qed.

Lemma exec_try_catch (m : P A) (handler : exn -> P A) s o h :
  exec (try_catch m handler) s o h
  = match exec m s o h with
    | ((Ok a, s1), t1) => ((Ok a, s1), t1)
    | ((Err e, s1), t1) => after t1 (exec (handler e) s1 o (h ++ t1))
    end.
Proof.
  unfold exec, try_catch, after. rewrite run_bind.
  destruct (run (m s) o h) as [[[a | e] s1] t1]; cbn [fst snd run];
    [now rewrite app_nil_r | reflexivity].
Qed.

Lemma exec_try_finally (m : P A) (fin : P unit) s o h :
  exec (try_finally m fin) s o h
  = match exec m s o h with
    | ((r, s1), t1) =>
        after t1
          match exec fin s1 o (h ++ t1) with
          | ((Ok _, s2), t2) => ((r, s2), t2)
          | ((Err e, s2), t2) => ((Err e, s2), t2)
          end
    end.
Proof.
  unfold exec, try_finally, after. rewrite run_bind. cbv beta. cbn [fst snd].
  rewrite run_bind.
  destruct (run (m s) o h) as [[r1 s1] t1]; cbn [fst snd].
  destruct (run (fin s1) o (h ++ t1)) as [[[u | e] s2] t2]; cbn [fst snd run];
    now rewrite app_nil_r.
Qed.

Lemma exec_settle (m : P A) s o h :
  exec (settle m) s o h
  = match exec m s o h with
    | ((r, s1), t1) => ((Ok r, s1), t1)
    end.
Proof.
  unfold exec, settle. rewrite run_bind.
  destruct (run (m s) o h) as [[r s1] t1]. cbn [fst snd run]. now rewrite app_nil_r.
Qed.

End EffFacts1.

Lemma exec_log lvl msg s o h :
  exec (log lvl msg) s o h = ((Ok tt, s), [Entry (Log lvl msg) tt]).
Proof. unfold log. rewrite exec_perform. now destruct (o unit h (Log lvl msg)). Qed.

Lemma exec_delay ms s o h :
  exec (perform (Delay ms)) s o h = ((Ok tt, s), [Entry (Delay ms) tt]).
Proof. rewrite exec_perform. now destruct (o unit h (Delay ms)). Qed.

Lemma exec_get_initialized s o h :
  exec get_initialized s o h = ((Ok (initialized s), s), []).
Proof. reflexivity. Qed.

Lemma exec_set_initialized b s o h :
  exec (set_initialized b) s o h = ((Ok tt, {| initialized := b |}), []).
Proof. reflexivity. Qed.

(** One step of symbolic execution: the outermost construct of the
    program under [exec]. *)
Ltac exec_step :=
  first
    [ rewrite exec_bind
    | rewrite exec_try_catch
    | rewrite exec_try_finally
    | rewrite exec_settle
    | rewrite exec_log
    | rewrite exec_delay
    | rewrite exec_await
    | rewrite exec_perform
    | rewrite exec_ret
    | rewrite exec_throw
    | rewrite exec_get_initialized
    | rewrite exec_set_initialized ];
  cbn [fst snd after app negb].

Ltac exec_run := repeat exec_step.

(** The next call of the program under [exec], with what it resolves to
    taken as an arbitrary value. *)
Ltac exec_call :=
  match goal with
  | |- context [exec (await ?e) ?s ?o ?h] =>
      rewrite (exec_await e s o h); destruct (o _ h e)
  | |- context [exec (perform ?e) ?s ?o ?h] =>
      rewrite (exec_perform e s o h); generalize (o _ h e); intro
  end;
  cbn [fst snd after app negb].

Ltac exec_pure :=
  first
    [ rewrite exec_bind
    | rewrite exec_try_catch
    | rewrite exec_try_finally
    | rewrite exec_settle
    | rewrite exec_log
    | rewrite exec_delay
    | rewrite exec_ret
    | rewrite exec_throw
    | rewrite exec_get_initialized
    | rewrite exec_set_initialized ];
  cbn [fst snd after app negb].

Ltac exec_all := repeat first [exec_pure | exec_call].

(** ** The working-copy manager *)

Lemma exec_cleanWorkingDirectory workDir s o h :
  exec (Git.cleanWorkingDirectory workDir) s o h
  = ((Ok tt, s),
     [Entry (FsRm workDir) (o _ h (FsRm workDir));
      Entry (Log (match o _ h (FsRm workDir) with Ok _ => Linfo | Err _ => Lerror end)
                 (match o _ h (FsRm workDir) with
                  | Ok _ => "Cleaned working directory"
                  | Err _ => "Failed to clean working directory"
                  end)) tt]).
Proof.
  unfold Git.cleanWorkingDirectory. exec_run.
  destruct (o (outcome unit) h (FsRm workDir)) as [[]|e]; exec_run; reflexivity.
Qed.

(** ** What a program can call *)

Lemma emits_run Q {A : Type} (m : io A) (o : oracle) (h : trace) :
  emits Q m -> Forall (satisfies Q) (snd (run m o h)).
Proof.
  intros Hm. revert h. induction Hm as [a | X e k He _ IH]; intros h.
  - constructor.
  - cbn [run snd]. constructor; [exact He | apply IH].
Qed.

Lemma emits_exec Q {A : Type} (p : P A) s o h :
  emitsP Q p -> Forall (satisfies Q) (snd (exec p s o h)).
Proof. intros Hp. apply emits_run, Hp. Qed.

Lemma emits_io_bind Q {A B : Type} (m : io A) (f : A -> io B) :
  emits Q m -> (forall a, emits Q (f a)) -> emits Q (io_bind m f).
Proof.
  intros Hm Hf. induction Hm as [a | X e k He _ IH]; cbn [io_bind].
  - apply Hf.
  - constructor; [exact He | exact IH].
Qed.

Lemma emits_weaken (Q Q' : forall X : Type, event X -> bool) {A : Type} (m : io A) :
  (forall X (e : event X), Q X e = true -> Q' X e = true) -> emits Q m -> emits Q' m.
Proof.
  intros HQ Hm. induction Hm as [a | X e k He _ IH]; constructor; auto.
Qed.

Lemma emits_weaken_P (Q Q' : forall X : Type, event X -> bool) {A : Type} (p : P A) :
  (forall X (e : event X), Q X e = true -> Q' X e = true) -> emitsP Q p -> emitsP Q' p.
Proof. intros HQ Hp s. eapply emits_weaken; [exact HQ | apply Hp]. Qed.

Section EmitsP.

Variable Q : forall X : Type, event X -> bool.

Lemma emitsP_ret {A : Type} (a : A) : emitsP Q (mret a).
Proof. intros s. constructor. Qed.

Lemma emitsP_throw {A : Type} (e : exn) : emitsP Q (throw e : P A).
Proof. intros s. constructor. Qed.

Lemma emitsP_bind {A B : Type} (m : P A) (f : A -> P B) :
  emitsP Q m -> (forall a, emitsP Q (f a)) -> emitsP Q (m ≫= f).
Proof.
  intros Hm Hf s. unfold mbind, P_bind, bind. apply emits_io_bind; [apply Hm|].
  intros [[a | e] s1]; cbn [fst snd]; [apply Hf | constructor].
Qed.

Lemma emitsP_try_catch {A : Type} (m : P A) (handler : exn -> P A) :
  emitsP Q m -> (forall e, emitsP Q (handler e)) -> emitsP Q (try_catch m handler).
Proof.
  intros Hm Hh s. unfold try_catch. apply emits_io_bind; [apply Hm|].
  intros [[a | e] s1]; cbn [fst snd]; [constructor | apply Hh].
Qed.

Lemma emitsP_try_finally {A : Type} (m : P A) (fin : P unit) :
  emitsP Q m -> emitsP Q fin -> emitsP Q (try_finally m fin).
Proof.
  intros Hm Hf s. unfold try_finally. apply emits_io_bind; [apply Hm|].
  intros [r s1]; cbn [fst snd]. apply emits_io_bind; [apply Hf|].
  intros [[u | e] s2]; constructor.
Qed.

Lemma emitsP_settle {A : Type} (m : P A) : emitsP Q m -> emitsP Q (settle m).
Proof.
  intros Hm s. unfold settle. apply emits_io_bind; [apply Hm|].
  intros [r s1]. constructor.
Qed.

Lemma emitsP_perform {X : Type} (e : event X) : Q X e = true -> emitsP Q (perform e).
Proof. intros He s. constructor; [exact He | intros x; constructor]. Qed.

Lemma emitsP_await {X : Type} (e : event (outcome X)) :
  Q _ e = true -> emitsP Q (await e).
Proof. intros He s. constructor; [exact He | intros x; constructor]. Qed.

Lemma emitsP_get_initialized : emitsP Q get_initialized.
Proof. intros s. constructor. Qed.

Lemma emitsP_set_initialized b : emitsP Q (set_initialized b).
Proof. intros s. constructor. Qed.

Lemma emitsP_for_each {A : Type} (xs : list A) (body : A -> P unit) :
  (forall x, emitsP Q (body x)) -> emitsP Q (for_each xs body).
Proof.
  intros Hb. induction xs as [|x xs IH]; cbn [for_each].
  - apply emitsP_ret.
  - apply (emitsP_bind (body x)); [apply Hb | intros _; exact IH].
Qed.

Lemma emitsP_settle_all {A : Type} (ps : list (P A)) :
  Forall (emitsP Q) ps -> emitsP Q (settle_all ps).
Proof.
  induction 1 as [|p ps Hp _ IH]; cbn [settle_all].
  - apply emitsP_ret.
  - apply (emitsP_bind (settle p)); [now apply emitsP_settle|].
    intros r. apply (emitsP_bind (settle_all ps)); [exact IH|].
    intros rs. apply emitsP_ret.
Qed.

Lemma emitsP_promise_all {A : Type} (ps : list (P A)) :
  Forall (emitsP Q) ps -> emitsP Q (promise_all ps).
Proof.
  intros Hps. unfold promise_all.
  apply (emitsP_bind (settle_all ps)); [now apply emitsP_settle_all|].
  intros rs. destruct (collect rs); [apply emitsP_ret | apply emitsP_throw].
Qed.

End EmitsP.

(** Decompose a program into its calls; what is left are the side
    conditions [Q e = true] and the programs the tactic does not know. *)
Ltac emits_step :=
  first
    [ apply emitsP_ret
    | apply emitsP_throw
    | apply emitsP_get_initialized
    | apply emitsP_set_initialized
    | apply emitsP_perform; reflexivity
    | apply emitsP_await; reflexivity
    | apply emitsP_bind; [|intros ?]
    | apply emitsP_try_catch; [|intros ?]
    | apply emitsP_try_finally
    | apply emitsP_settle
    | apply emitsP_for_each; intros ?
    | match goal with
      | |- emitsP _ (if ?b then _ else _) => destruct b
      | |- emitsP _ (match ?x with _ => _ end) => destruct x
      end ].

Ltac emits_auto := unfold log; repeat emits_step.

(** ** The vector-store adapter: empty input *)

(** [upsert] on an empty list resolves at once: it logs a warning and
    returns; the [initialized] flag is not looked at and no call reaches
    Pinecone. *)
Lemma exec_upsert_empty (cfg : Config.config) (s : svc) (o : oracle) (h : trace) :
  exec (Pinecone.upsert cfg []) s o h
  = ((Ok tt, s), [Entry (Log Lwarn "No vectors provided for upserting") tt])
  /\ calls_of KPinecone (snd (exec (Pinecone.upsert cfg []) s o h)) = []
  /\ upsert_requests (snd (exec (Pinecone.upsert cfg []) s o h)) = [].
Proof.
  assert (H : exec (Pinecone.upsert cfg []) s o h
              = ((Ok tt, s), [Entry (Log Lwarn "No vectors provided for upserting") tt])).
  { unfold Pinecone.upsert. cbn [length Nat.eqb]. now rewrite exec_log. }
  rewrite H. repeat split.
Qed.

(** ** The vector-store adapter: waiting for a new index *)

Lemma exec_poll indexName s o h :
  exec (Pinecone.poll indexName) s o h
  = ((Ok (negb (not_ready (o _ h (DescribeIndex indexName)))), s),
     Entry (DescribeIndex indexName) (o _ h (DescribeIndex indexName))
     :: (if negb (not_ready (o _ h (DescribeIndex indexName)))
         then [Entry (Log Linfo "Index created and ready.") tt]
         else if poll_warned (o _ h (DescribeIndex indexName))
              then [Entry (Log Lwarn poll_warning) tt]
              else [])).
Proof.
  unfold Pinecone.poll. rewrite exec_try_catch, exec_bind, exec_await.
  destruct (o (outcome IndexModel) h (DescribeIndex indexName)) as [st | e];
    cbn [after fst snd not_ready poll_warned].
  - destruct (ready st); exec_run; reflexivity.
  - destruct (bool_decide (code e = Some "404"%string)); exec_run; reflexivity.
Qed.

(** Compute the observations of the calls that are known. *)
Ltac obs_simpl :=
  cbn [describe_replies schedule logged upsert_requests create_requests delays
       fs_calls ledger_writes progress_reports query_namespaces
       omap list_omap describe_reply poll_or_wait delay_of log_of upsert_request
       create_request fs_call ledger_write query_namespace entry_event
       app length map fst snd].

Ltac obs_unfold :=
  unfold describe_replies, schedule, logged, upsert_requests, create_requests,
    delays, fs_calls, ledger_writes, query_namespaces in *.

(** Observations of a trace made of known calls and of unknown parts. *)
Ltac obs_norm := obs_unfold; obs_simpl; rewrite ?omap_app; obs_simpl.

Lemma describe_replies_app t1 t2 :
  describe_replies (t1 ++ t2) = describe_replies t1 ++ describe_replies t2.
Proof. apply omap_app. Qed.

Lemma schedule_app t1 t2 : schedule (t1 ++ t2) = schedule t1 ++ schedule t2.
Proof. apply omap_app. Qed.

Lemma logged_app lvl t1 t2 : logged lvl (t1 ++ t2) = logged lvl t1 ++ logged lvl t2.
Proof. apply omap_app. Qed.

Lemma upsert_requests_app t1 t2 :
  upsert_requests (t1 ++ t2) = upsert_requests t1 ++ upsert_requests t2.
Proof. apply omap_app. Qed.

Lemma create_requests_app t1 t2 :
  create_requests (t1 ++ t2) = create_requests t1 ++ create_requests t2.
Proof. apply omap_app. Qed.

Lemma delays_schedule t :
  delays t = omap (fun x => match x with inr ms => Some ms | inl _ => None end) (schedule t).
Proof.
  unfold delays, schedule. induction t as [|[X ev r] t IH]; [reflexivity|].
  destruct ev; cbn; rewrite ?IH; reflexivity.
Qed.

Lemma waitForIndexReady_from_spec n indexName s o h :
  wait_outcome n (Err (Error (Pinecone.not_ready_message indexName))) (fun _ => Ok tt)
    (exec (Pinecone.waitForIndexReady_from n indexName) s o h) s.
Proof.
  revert h. induction n as [|n IH]; intros h.
  - cbn [Pinecone.waitForIndexReady_from]. exec_run.
    unfold wait_outcome. cbn. repeat split; try reflexivity.
    left. repeat split; constructor.
  - cbn [Pinecone.waitForIndexReady_from]. rewrite exec_bind, exec_poll.
    destruct (not_ready (o _ h (DescribeIndex indexName))) eqn:Hnr; cbn [negb].
    + (* not ready: wait and poll again *)
      revert Hnr. generalize (o _ h (DescribeIndex indexName)). intros r Hnr.
      assert (Hw : exists warn,
                 (if poll_warned r then [Entry (Log Lwarn poll_warning) tt] else []) = warn
                 /\ describe_replies warn = [] /\ schedule warn = []
                 /\ upsert_requests warn = [] /\ create_requests warn = []
                 /\ logged Lwarn warn = (if poll_warned r then [poll_warning] else [])).
      { eexists. split; [reflexivity|]. destruct (poll_warned r); repeat split. }
      destruct Hw as (warn & -> & Hw1 & Hw2 & Hw3 & Hw4 & Hw5).
      exec_run.
      match goal with
      | |- context [exec (Pinecone.waitForIndexReady_from n indexName) s o ?h'] =>
          specialize (IH h');
          destruct (exec (Pinecone.waitForIndexReady_from n indexName) s o h')
            as [[r' s'] t'] eqn:Hrec
      end.
      unfold wait_outcome in *. cbn [fst snd after] in *.
      destruct IH as (Hs & Hlen & Hsched & Hwarn & Hup & Hcr & Hout).
      change (Entry (DescribeIndex indexName) r :: warn)
        with ([Entry (DescribeIndex indexName) r] ++ warn).
      rewrite !describe_replies_app, !schedule_app, !logged_app, !upsert_requests_app,
        !create_requests_app, Hw1, Hw2, Hw3, Hw4, Hw5, Hup, Hcr, Hsched, Hwarn.
      obs_simpl.
      split; [exact Hs|]. split; [lia|].
      split; [unfold fixed_interval; cbn [flat_map]; now rewrite Hnr|].
      split; [cbn [List.filter]; destruct (poll_warned r); reflexivity|].
      split; [reflexivity|]. split; [reflexivity|].
      destruct Hout as [(Hall & Hn & Hr) | (before & status & Hrs & Hready & Hall & Hr)].
      * left. split; [now constructor|]. split; [now rewrite Hn | exact Hr].
      * right. exists (r :: before), status. rewrite Hrs.
        split; [reflexivity|]. split; [exact Hready|]. split; [now constructor | exact Hr].
    + (* ready: return *)
      exec_run. unfold wait_outcome. cbn [fst snd].
      destruct (o _ h (DescribeIndex indexName)) as [status | e] eqn:Hr;
        cbn [not_ready] in Hnr; [|discriminate].
      apply negb_false_iff in Hnr.
      cbn. unfold fixed_interval. cbn. rewrite Hnr. cbn.
      repeat split; try reflexivity; try lia.
      right. exists [], status. repeat split; [exact Hnr | constructor].
Qed.

Lemma fixed_interval_delays ms replies :
  Forall (fun r => not_ready r = true) replies ->
  omap (fun x => match x with inr d => Some d | inl _ => None end)
       (fixed_interval ms replies)
  = repeat ms (length replies).
Proof.
  induction 1 as [|r rs Hr _ IH]; [reflexivity|].
  unfold fixed_interval in *. cbn [flat_map]. rewrite Hr. cbn. now rewrite IH.
Qed.

(** What [init] does, for every environment. *)
Lemma init_spec cfg s o h :
  let res := exec (Pinecone.init cfg) s o h in
  upsert_requests (snd res) = []
  /\ (forall u, fst (fst res) = Ok u -> initialized (snd (fst res)) = true)
  /\ (forall e, fst (fst res) = Err e -> snd (fst res) = s)
  /\ (existsb snd (create_requests (snd res)) = true ->
      Forall (fun r => not_ready r = true) (describe_replies (snd res)) ->
      fst (fst res) = Err (Error (Pinecone.not_ready_message (Config.indexName cfg)))
      /\ length (describe_replies (snd res)) = 12%nat
      /\ schedule (snd res) = fixed_interval 5000 (describe_replies (snd res))).
Proof.
  cbv zeta. remember (exec (Pinecone.init cfg) s o h) as res eqn:Hres. revert Hres.
  unfold Pinecone.init. cbv zeta.
  rewrite exec_try_catch, exec_bind, exec_await.
  destruct (o _ h ListIndexes) as [names | e]; cbn [after fst snd].
  2:{ exec_run. intros ->. unfold after; cbn [fst snd app]. obs_simpl. cbn. repeat split; try discriminate; congruence. }
  destruct (existsb (String.eqb (Config.indexName cfg)) names); cbn [negb].
  - (* the index exists: describe and validate it *)
    rewrite exec_bind, exec_bind, exec_log. cbn [after fst snd app].
    rewrite exec_bind, exec_await.
    match goal with
    | |- context [o ?X ?hh (DescribeIndex ?c)] =>
        destruct (o X hh (DescribeIndex c)) as [description | e]
    end; cbn [after fst snd app].
    2:{ exec_run. intros ->. unfold after; cbn [fst snd app]. obs_simpl. cbn. repeat split; try discriminate; congruence. }
    unfold Pinecone.validateExistingIndex.
    destruct (dimension description =? Pinecone.INDEX_DIMENSION);
      destruct (String.eqb (metric description) Pinecone.INDEX_METRIC);
      cbn [negb].
    all: exec_run.
    all: intros ->; unfold after; cbn [fst snd app].
    all: obs_simpl.
    all: cbn.
    all: repeat split.
    all: try discriminate.
    all: congruence.
  - (* the index is absent: create it and wait *)
    rewrite exec_bind, exec_bind, exec_log. cbn [after fst snd app].
    rewrite exec_bind, exec_await.
    match goal with
    | |- context [o ?X ?hh (CreateIndex ?c)] => destruct (o X hh (CreateIndex c)) as [[] | e]
    end; cbn [after fst snd app].
    2:{ exec_run. intros ->. unfold after; cbn [fst snd app]. obs_simpl. cbn. repeat split; try discriminate; congruence. }
    match goal with
    | |- context [exec (Pinecone.waitForIndexReady ?i) ?s0 o ?hh] =>
        pose proof (waitForIndexReady_from_spec (Z.to_nat Pinecone.MAX_RETRIES) i s0 o hh) as Hw;
        fold (Pinecone.waitForIndexReady i) in Hw;
        destruct (exec (Pinecone.waitForIndexReady i) s0 o hh) as [[r1 s1] t1]
    end.
    unfold wait_outcome in Hw. cbn [fst snd] in Hw.
    destruct Hw as (-> & Hlen & Hsched & Hwarn & Hup & Hcr & Hout).
    destruct Hout as [(Hall & Hn & ->) | (before & status & Hrs & Hready & Hall & ->)];
      cbn [after fst snd app]; exec_run; cbn [Z.to_nat Pos.to_nat Pos.iter_op Init.Nat.add] in *.
    + intros ->. unfold after; cbn [fst snd app]. obs_norm. rewrite Hup, Hcr, Hsched, !app_nil_r.
      repeat split; try discriminate; try congruence.
      rewrite Hn. reflexivity.
    + intros ->. unfold after; cbn [fst snd app]. obs_norm. rewrite Hup, Hcr, Hsched, !app_nil_r.
      repeat split; try discriminate; try congruence.
      all: exfalso;
        match goal with
        | Hnone : Forall _ (omap describe_reply _) |- _ =>
            rewrite Hrs in Hnone; apply Forall_app in Hnone as [_ Hlast];
            inversion Hlast as [|? ? Hst _]; subst; cbn in Hst; rewrite Hready in Hst;
            discriminate
        end.
Qed.

(** ** The vector-store adapter: writing per tenant *)

Lemma exec_processBatch ns vs i bs total s o h :
  exec (Pinecone.processBatch ns vs i bs total) s o h
  = match o _ h (NsUpsert ns (map Pinecone.normalize (Pinecone.array_slice vs i (i + bs)))) with
    | Ok u =>
        ((Ok tt, s),
         [Entry (NsUpsert ns (map Pinecone.normalize (Pinecone.array_slice vs i (i + bs))))
                (Ok u);
          Entry (Log Linfo "Upserted vectors to Pinecone namespace") tt])
    | Err e =>
        ((Err e, s),
         [Entry (NsUpsert ns (map Pinecone.normalize (Pinecone.array_slice vs i (i + bs))))
                (Err e)])
    end.
Proof.
  unfold Pinecone.processBatch. cbv zeta. rewrite exec_bind, exec_await.
  destruct (o _ h (NsUpsert ns _)) as [u | e]; exec_run; reflexivity.
Qed.

Lemma array_slice_batch {A : Type} (xs : list A) (i n : nat) :
  Pinecone.array_slice xs i (i + n) = take n (drop i xs).
Proof. unfold Pinecone.array_slice. now replace (i + n - i)%nat with n by lia. Qed.

Lemma in_array_slice {A : Type} (xs : list A) (i j : nat) (x : A) :
  In x (Pinecone.array_slice xs i j) -> In x xs.
Proof.
  unfold Pinecone.array_slice. rewrite <- !list_elem_of_In. intros Hx.
  apply elem_of_take in Hx as (k & Hk & _). rewrite lookup_drop in Hk.
  apply list_elem_of_lookup. eauto.
Qed.

Lemma upsert_batches_spec fuel ns vs i s o h :
  let res := exec (Pinecone.upsert_batches fuel ns vs i) s o h in
  snd (fst res) = s
  /\ Forall (request_of_group ns vs) (upsert_requests (snd res))
  /\ (forall u, fst (fst res) = Ok u -> (length vs <= i + fuel * Pinecone.BATCH_SIZE)%nat ->
      concat (map (fun rq => snd (fst rq)) (upsert_requests (snd res)))
      = map Pinecone.normalize (drop i vs)
      /\ Forall (fun rq => snd rq = true) (upsert_requests (snd res))).
Proof.
  revert i h. induction fuel as [|fuel IH]; intros i h; cbn [Pinecone.upsert_batches].
  - rewrite exec_ret. cbn. repeat split; try constructor.
    rewrite drop_ge by lia. reflexivity.
  - destruct (i <? length vs)%nat eqn:Hi.
    2:{ rewrite exec_ret. apply Nat.ltb_ge in Hi. cbn. repeat split; try constructor.
        rewrite drop_ge by lia. reflexivity. }
    apply Nat.ltb_lt in Hi.
    rewrite exec_bind, exec_processBatch, array_slice_batch.
    set (batch := map Pinecone.normalize (take Pinecone.BATCH_SIZE (drop i vs))).
    assert (Hbatch : forall v, In v batch -> exists v0, In v0 vs /\ v = Pinecone.normalize v0).
    { subst batch. intros v Hv. apply in_map_iff in Hv as (v0 & <- & Hv0).
      exists v0. split; [|reflexivity].
      apply (in_array_slice vs i (i + Pinecone.BATCH_SIZE)).
      now rewrite array_slice_batch. }
    destruct (o _ h (NsUpsert ns batch)) as [u | e]; cbn [after fst snd].
    + match goal with
      | |- context [exec (Pinecone.upsert_batches fuel ns vs ?j) s o ?h'] =>
          specialize (IH j h');
          destruct (exec (Pinecone.upsert_batches fuel ns vs j) s o h') as [[r' s'] t']
      end.
      cbn [fst snd after] in *. destruct IH as (Hs & Hreq & Hok).
      obs_norm. split; [exact Hs|]. split.
      * constructor; [split; [reflexivity | exact Hbatch] | exact Hreq].
      * intros u' Hr Hfuel. destruct (Hok u' Hr ltac:(lia)) as (Hcat & Hacc).
        split; [|constructor; [reflexivity | exact Hacc]].
        cbn [map concat fst snd]. rewrite Hcat. subst batch.
        rewrite <- map_app. f_equal.
        rewrite <- (take_drop Pinecone.BATCH_SIZE (drop i vs)) at 2.
        rewrite drop_drop. reflexivity.
    + obs_norm. split; [reflexivity|]. split.
      * constructor; [split; [reflexivity | exact Hbatch] | constructor].
      * intros u' Hr. discriminate Hr.
Qed.

(** *** Objects as maps *)

Section JsObjectFacts.

Context {V : Type}.
Implicit Types (o : JsObject.object V) (k : string) (v : V).

Lemma own_None o k : JsObject.own o k = None <-> ~ In k (map fst o).
Proof.
  induction o as [|[k' v'] o IH]; cbn [JsObject.own map fst In]; [tauto|].
  destruct (String.eqb k' k) eqn:Hk.
  - apply String.eqb_eq in Hk. split; [discriminate | tauto].
  - apply String.eqb_neq in Hk. rewrite IH. tauto.
Qed.

Lemma own_In o k v : JsObject.own o k = Some v -> In (k, v) o.
Proof.
  induction o as [|[k' v'] o IH]; cbn [JsObject.own In]; [discriminate|].
  destruct (String.eqb k' k) eqn:Hk.
  - apply String.eqb_eq in Hk. intros [= <-]. left. now subst.
  - intros H. right. now apply IH.
Qed.

Lemma In_own o k v : NoDup (map fst o) -> In (k, v) o -> JsObject.own o k = Some v.
Proof.
  induction o as [|[k' v'] o IH]; cbn [JsObject.own map fst In]; [tauto|].
  intros Hnd [Heq | Hin].
  - injection Heq as -> ->. now rewrite String.eqb_refl.
  - apply NoDup_cons in Hnd as [Hk' Hnd].
    destruct (String.eqb k' k) eqn:Hk; [|now apply IH].
    apply String.eqb_eq in Hk. subst k'. exfalso. apply Hk'.
    apply list_elem_of_In. apply in_map_iff. now exists (k, v).
Qed.

Lemma keys_assign o k v : map fst (JsObject.assign o k v) = map fst o.
Proof.
  induction o as [|[k' v'] o IH]; [reflexivity|]. cbn [JsObject.assign].
  destruct (String.eqb k' k); cbn [map fst]; [reflexivity | now rewrite IH].
Qed.

Lemma own_assign o k v k' :
  JsObject.own o k <> None ->
  JsObject.own (JsObject.assign o k v) k'
  = if String.eqb k k' then Some v else JsObject.own o k'.
Proof.
  induction o as [|[k0 v0] o IH]; cbn [JsObject.own JsObject.assign]; [congruence|].
  destruct (String.eqb k0 k) eqn:Hk0.
  - apply String.eqb_eq in Hk0. subst k0. intros _. cbn [JsObject.own].
    destruct (String.eqb k k'); reflexivity.
  - intros Hk. cbn [JsObject.own]. rewrite (IH Hk).
    destruct (String.eqb k0 k') eqn:Hk0'; [|reflexivity].
    apply String.eqb_eq in Hk0'. subst k0. now rewrite String.eqb_sym, Hk0.
Qed.

Lemma own_app_new o k v k' :
  JsObject.own o k = None ->
  JsObject.own (o ++ [(k, v)]) k'
  = if String.eqb k k' then Some v else JsObject.own o k'.
Proof.
  induction o as [|[k0 v0] o IH]; cbn [JsObject.own app].
  - intros _. destruct (String.eqb k k'); reflexivity.
  - destruct (String.eqb k0 k) eqn:Hk0; [discriminate|]. intros Hk.
    rewrite (IH Hk). destruct (String.eqb k0 k') eqn:Hk0'; [|reflexivity].
    apply String.eqb_eq in Hk0'. subst k0. now rewrite String.eqb_sym, Hk0.
Qed.

Lemma insert_by_index_perm n (kv : string * V) l :
  JsObject.insert_by_index n kv l ≡ₚ (n, kv) :: l.
Proof.
  induction l as [|[m kw] l IH]; cbn [JsObject.insert_by_index]; [reflexivity|].
  destruct (n <? m)%N; [reflexivity|]. rewrite IH. apply Permutation_swap.
Qed.

Lemma index_keyed_perm o :
  map snd (JsObject.index_keyed o)
  ≡ₚ filter (fun kv => ~ JsObject.array_index (fst kv) = None) o.
Proof.
  induction o as [|[k v] o IH]; cbn [JsObject.index_keyed]; [reflexivity|].
  rewrite filter_cons. cbn [fst].
  destruct (JsObject.array_index k) as [n|] eqn:Hk.
  - rewrite decide_True by congruence.
    rewrite insert_by_index_perm. cbn [map snd]. now rewrite IH.
  - rewrite decide_False by tauto. exact IH.
Qed.

Lemma entries_perm o : JsObject.entries o ≡ₚ o.
Proof.
  unfold JsObject.entries, JsObject.string_keyed. rewrite index_keyed_perm.
  rewrite Permutation_app_comm. apply filter_app_complement.
Qed.

Lemma entries_In o kv : In kv (JsObject.entries o) <-> In kv o.
Proof. rewrite <- !list_elem_of_In. now rewrite entries_perm. Qed.

Lemma entries_NoDup o : NoDup (map fst o) -> NoDup (map fst (JsObject.entries o)).
Proof. intros H. now rewrite entries_perm. Qed.

End JsObjectFacts.

(** *** Grouping by tenant *)

Lemma of_tenant_snoc u seen v :
  of_tenant u (seen ++ [v])
  = of_tenant u seen ++ (if decide (Types.userId (Types.metadata v) = u) then [v] else []).
Proof. unfold of_tenant. rewrite filter_app. f_equal. Qed.

Lemma group_of_Some u seen vs : group_of u seen = Some vs -> of_tenant u seen = vs /\ vs <> [].
Proof.
  unfold group_of. destruct (of_tenant u seen); [discriminate|].
  intros [= <-]. split; [reflexivity | discriminate].
Qed.

Lemma group_of_None u seen : group_of u seen = None -> of_tenant u seen = [].
Proof. unfold group_of. destruct (of_tenant u seen); [reflexivity | discriminate]. Qed.

Lemma group_of_snoc u seen v :
  group_of u (seen ++ [v])
  = if String.eqb (Types.userId (Types.metadata v)) u
    then Some (of_tenant u seen ++ [v]) else group_of u seen.
Proof.
  unfold group_of. rewrite of_tenant_snoc.
  destruct (String.eqb (Types.userId (Types.metadata v)) u) eqn:Hu.
  - apply String.eqb_eq in Hu. rewrite decide_True by exact Hu.
    destruct (of_tenant u seen); reflexivity.
  - apply String.eqb_neq in Hu. rewrite decide_False by exact Hu.
    now rewrite app_nil_r.
Qed.

Lemma group_step_grouping seen acc v acc' :
  grouping seen acc -> Pinecone.group_step acc v = Ok acc' ->
  grouping (seen ++ [v]) acc'.
Proof.
  intros [Hnd Hown]. unfold Pinecone.group_step. cbv zeta.
  destruct (JsObject.own acc (Types.userId (Types.metadata v))) as [vs0|] eqn:Hu0.
  - intros [= <-]. split; [now rewrite keys_assign|].
    intros u. rewrite own_assign by congruence. rewrite group_of_snoc.
    destruct (String.eqb (Types.userId (Types.metadata v)) u) eqn:Hu; [|apply Hown].
    apply String.eqb_eq in Hu. subst u. rewrite Hown in Hu0.
    apply group_of_Some in Hu0 as [-> _]. reflexivity.
  - destruct (Js.includes _ _); [discriminate|]. intros [= <-]. split.
    + rewrite map_app. cbn [map fst]. apply NoDup_app. split; [exact Hnd|].
      split; [|apply NoDup_singleton].
      intros k Hk Hk'. apply list_elem_of_In in Hk. apply list_elem_of_singleton in Hk'.
      subst k. now apply own_None in Hu0.
    + intros u. rewrite own_app_new by exact Hu0. rewrite group_of_snoc.
      destruct (String.eqb (Types.userId (Types.metadata v)) u) eqn:Hu; [|apply Hown].
      apply String.eqb_eq in Hu. subst u. rewrite Hown in Hu0.
      apply group_of_None in Hu0. now rewrite Hu0.
Qed.

Lemma group_by_user_grouping vectors seen acc acc' :
  grouping seen acc -> Pinecone.group_by_user acc vectors = Ok acc' ->
  grouping (seen ++ vectors) acc'.
Proof.
  revert seen acc. induction vectors as [|v vectors IH]; intros seen acc Hg;
    cbn [Pinecone.group_by_user].
  - intros [= <-]. now rewrite app_nil_r.
  - destruct (Pinecone.group_step acc v) as [acc1|e] eqn:Hstep; [|discriminate].
    intros H. replace (seen ++ v :: vectors) with ((seen ++ [v]) ++ vectors)
      by now rewrite <- app_assoc.
    apply (IH _ acc1); [|exact H]. now apply group_step_grouping with (acc := acc).
Qed.

(** The grouping is a partition of the input by tenant: each tenant with
    a vector gets one group, holding its vectors in input order. *)
Lemma group_by_user_partition vectors acc :
  Pinecone.group_by_user [] vectors = Ok acc ->
  NoDup (map fst acc)
  /\ forall u vs,
       In (u, vs) acc <-> (vs = of_tenant u vectors /\ vs <> []).
Proof.
  intros H.
  destruct (group_by_user_grouping vectors [] [] acc) as [Hnd Hown];
    [split; [constructor | reflexivity] | exact H |].
  cbn [app] in Hown. split; [exact Hnd|]. intros u vs. split.
  - intros Hin. apply (In_own _ _ _ Hnd) in Hin. rewrite Hown in Hin.
    apply group_of_Some in Hin as [<- Hne]. now split.
  - intros [-> Hne]. apply own_In. rewrite Hown. unfold group_of.
    destruct (of_tenant u vectors); [congruence | reflexivity].
Qed.

Lemma getNamespaceForUser_inj u1 u2 :
  Pinecone.getNamespaceForUser u1 = Pinecone.getNamespaceForUser u2 -> u1 = u2.
Proof. unfold Pinecone.getNamespaceForUser. intros H. cbv in H. now injection H. Qed.

Lemma normalize_userId v :
  Types.userId (Types.metadata (Pinecone.normalize v)) = Types.userId (Types.metadata v).
Proof. reflexivity. Qed.

(** *** Calls of [init] and of [ensureInitialized] *)

Lemma poll_emits indexName : emitsP provisioning_call (Pinecone.poll indexName).
Proof. unfold Pinecone.poll. emits_auto. Qed.

Lemma waitForIndexReady_from_emits n indexName :
  emitsP provisioning_call (Pinecone.waitForIndexReady_from n indexName).
Proof.
  induction n as [|n IH]; cbn [Pinecone.waitForIndexReady_from]; [emits_auto|].
  apply emitsP_bind; [apply poll_emits|]. intros [|]; emits_auto. exact IH.
Qed.

Lemma init_emits cfg : emitsP provisioning_call (Pinecone.init cfg).
Proof.
  unfold Pinecone.init, Pinecone.validateExistingIndex. emits_auto.
  all: try apply waitForIndexReady_from_emits.
Qed.

Lemma ensureInitialized_emits cfg :
  emitsP provisioning_call (Pinecone.ensureInitialized cfg).
Proof. unfold Pinecone.ensureInitialized. emits_auto. all: try apply init_emits. Qed.

Lemma provisioning_no_requests t :
  Forall (satisfies provisioning_call) t ->
  upsert_requests t = [] /\ query_namespaces t = [].
Proof.
  induction 1 as [|[X e r] t He _ [IH1 IH2]]; [split; reflexivity|].
  unfold satisfies in He. cbn [entry_event] in He.
  destruct e; try discriminate He; obs_unfold; cbn; auto.
Qed.

Lemma ensureInitialized_spec cfg s o h :
  let res := exec (Pinecone.ensureInitialized cfg) s o h in
  Forall (satisfies provisioning_call) (snd res)
  /\ (forall x, fst (fst res) = Ok x -> initialized (snd (fst res)) = true)
  /\ (forall e, fst (fst res) = Err e -> snd (fst res) = s).
Proof.
  cbv zeta. split; [apply emits_exec, ensureInitialized_emits|].
  unfold Pinecone.ensureInitialized. rewrite exec_bind, exec_get_initialized.
  cbn [after fst snd app]. destruct (initialized s) eqn:Hs; cbn [negb].
  - rewrite exec_ret. cbn. split; [auto | discriminate].
  - rewrite exec_bind, exec_log. cbn [after fst snd app]. rewrite exec_bind.
    match goal with
    | |- context [exec (Pinecone.init cfg) s o ?h'] =>
        pose proof (init_spec cfg s o h') as Hi;
        destruct (exec (Pinecone.init cfg) s o h') as [[r1 s1] t1]
    end.
    cbv zeta in Hi. cbn [fst snd] in Hi. destruct Hi as (_ & Hok & Herr & _).
    destruct r1 as [[]|e]; cbn [after fst snd].
    + specialize (Hok tt eq_refl). exec_run. rewrite Hok. exec_run.
      cbn. split; [auto | discriminate].
    + cbn. split; [discriminate|]. intros e' _. now apply (Herr e).
Qed.

(** *** Writing the groups *)

Lemma written_one_namespace ns' ns (rqs : list (string * list Types.Vector * bool)) :
  Forall (fun rq => fst (fst rq) = ns') rqs ->
  Forall (fun rq => snd rq = true) rqs ->
  flat_map (fun r => if snd r && String.eqb (fst (fst r)) ns then snd (fst r) else []) rqs
  = if String.eqb ns' ns then concat (map (fun rq => snd (fst rq)) rqs) else [].
Proof.
  induction 1 as [|[[n b] a] rqs Hn _ IH]; intros Hok;
    [now destruct (String.eqb ns' ns)|].
  apply Forall_cons in Hok as [Ha Hok]. cbn [fst snd] in *. subst n a.
  cbn [flat_map map concat fst snd andb]. rewrite (IH Hok).
  destruct (String.eqb ns' ns); reflexivity.
Qed.

Lemma written_to_app ns t1 t2 :
  written_to ns (t1 ++ t2) = written_to ns t1 ++ written_to ns t2.
Proof. unfold written_to. now rewrite upsert_requests_app, flat_map_app. Qed.

Lemma exec_upsert_user u vs s o h :
  exec (Pinecone.upsert_user (u, vs)) s o h
  = after [Entry (Log Linfo "Processing vectors for user namespace") tt]
      (exec (Pinecone.upsert_batches (length vs) (Pinecone.getNamespaceForUser u) vs 0) s o
         (h ++ [Entry (Log Linfo "Processing vectors for user namespace") tt])).
Proof. unfold Pinecone.upsert_user. now rewrite exec_bind, exec_log. Qed.

Lemma for_each_upsert_user_spec entries s o h :
  let res := exec (for_each entries Pinecone.upsert_user) s o h in
  snd (fst res) = s
  /\ Forall (fun rq => exists u vs, In (u, vs) entries
                        /\ request_of_group (Pinecone.getNamespaceForUser u) vs rq)
       (upsert_requests (snd res))
  /\ (forall x, fst (fst res) = Ok x ->
      forall u, written_to (Pinecone.getNamespaceForUser u) (snd res)
                = flat_map (fun e => if String.eqb (fst e) u
                                     then map Pinecone.normalize (snd e) else [])
                    entries).
Proof.
  revert h. induction entries as [|[u' vs] entries IH]; intros h; cbn [for_each].
  - rewrite exec_ret. cbn. repeat split; constructor.
  - change (bind ?m ?f) with (m ≫= f). cbv zeta.
    rewrite exec_bind, exec_upsert_user.
    match goal with
    | |- context [exec (Pinecone.upsert_batches ?f ?ns vs 0) s o ?h'] =>
        pose proof (upsert_batches_spec f ns vs 0 s o h') as Hb;
        destruct (exec (Pinecone.upsert_batches f ns vs 0) s o h') as [[r1 s1] t1]
    end.
    cbv zeta in Hb. cbn [fst snd] in Hb. destruct Hb as (-> & Hreq & Hok).
    assert (Hreq' : Forall (fun rq => exists u vs0, In (u, vs0) ((u', vs) :: entries)
                       /\ request_of_group (Pinecone.getNamespaceForUser u) vs0 rq)
                      (upsert_requests t1)).
    { eapply Forall_impl; [exact Hreq|]. intros rq Hrq. exists u', vs.
      split; [left; reflexivity | exact Hrq]. }
    destruct r1 as [[]|e]; cbn [after fst snd app].
    + match goal with
      | |- context [exec (for_each entries Pinecone.upsert_user) s o ?h'] =>
          specialize (IH h');
          destruct (exec (for_each entries Pinecone.upsert_user) s o h') as [[r2 s2] t2]
      end.
      cbv zeta in IH. cbn [fst snd after] in *. destruct IH as (-> & Hreq2 & Hok2).
      split; [reflexivity|]. split.
      * change (Entry (Log Linfo "Processing vectors for user namespace") tt :: t1 ++ t2)
          with ([Entry (Log Linfo "Processing vectors for user namespace") tt] ++ t1 ++ t2).
        rewrite !upsert_requests_app. apply Forall_app. split; [constructor|].
        apply Forall_app. split; [exact Hreq'|].
        eapply Forall_impl; [exact Hreq2|]. intros rq (u & vs0 & Hin & Hrq).
        exists u, vs0. split; [right; exact Hin | exact Hrq].
      * intros x Hx u. specialize (Hok2 x Hx u).
        destruct (Hok tt eq_refl ltac:(unfold Pinecone.BATCH_SIZE; lia)) as (Hcat & Hacc).
        change (Entry (Log Linfo "Processing vectors for user namespace") tt :: t1 ++ t2)
          with ([Entry (Log Linfo "Processing vectors for user namespace") tt] ++ t1 ++ t2).
        rewrite !written_to_app, Hok2.
        change (written_to (Pinecone.getNamespaceForUser u)
                  [Entry (Log Linfo "Processing vectors for user namespace") tt])
          with (@nil Types.Vector).
        cbn [app flat_map fst snd]. f_equal. unfold written_to.
        rewrite (written_one_namespace (Pinecone.getNamespaceForUser u'));
          [| eapply Forall_impl; [exact Hreq|]; intros rq [Hns _]; exact Hns
           | exact Hacc].
        rewrite Hcat, drop_0.
        destruct (String.eqb u' u) eqn:Hu.
        -- apply String.eqb_eq in Hu. subst u'. now rewrite String.eqb_refl.
        -- destruct (String.eqb (Pinecone.getNamespaceForUser u')
                       (Pinecone.getNamespaceForUser u)) eqn:Hns; [|reflexivity].
           apply String.eqb_eq, getNamespaceForUser_inj in Hns. subst u'.
           now rewrite String.eqb_refl in Hu.
    + split; [reflexivity|]. split; [|discriminate].
      change (Entry (Log Linfo "Processing vectors for user namespace") tt :: t1)
        with ([Entry (Log Linfo "Processing vectors for user namespace") tt] ++ t1).
      rewrite upsert_requests_app. apply Forall_app. split; [constructor | exact Hreq'].
Qed.

Lemma own_perm {V : Type} (l l' : list (string * V)) u :
  NoDup (map fst l) -> l ≡ₚ l' -> JsObject.own l u = JsObject.own l' u.
Proof.
  intros Hnd Hp. assert (Hnd' : NoDup (map fst l')) by now rewrite <- Hp.
  destruct (JsObject.own l u) as [vs|] eqn:Hl.
  - symmetry. apply In_own; [exact Hnd'|]. apply own_In in Hl.
    apply list_elem_of_In. rewrite <- Hp. now apply list_elem_of_In.
  - destruct (JsObject.own l' u) as [vs'|] eqn:Hl'; [|reflexivity].
    apply own_In in Hl'. apply list_elem_of_In in Hl'. rewrite <- Hp in Hl'.
    apply list_elem_of_In, (In_own _ _ _ Hnd) in Hl'. congruence.
Qed.

Lemma flat_map_key {V W : Type} (l : list (string * V)) u (g : V -> list W) :
  NoDup (map fst l) ->
  flat_map (fun e => if String.eqb (fst e) u then g (snd e) else []) l
  = match JsObject.own l u with Some vs => g vs | None => [] end.
Proof.
  induction l as [|[k v] l IH]; cbn [flat_map JsObject.own map fst snd]; [reflexivity|].
  intros Hnd. apply NoDup_cons in Hnd as [Hk Hnd]. rewrite (IH Hnd).
  destruct (String.eqb k u) eqn:Hku; [|reflexivity].
  apply String.eqb_eq in Hku. subst k.
  assert (Hnone : JsObject.own l u = None).
  { apply own_None. intros Hin. apply Hk. now apply list_elem_of_In. }
  rewrite Hnone. apply app_nil_r.
Qed.

(** What [upsert] does on a non-empty list, for every environment. *)
Lemma upsert_spec cfg vectors s o h :
  vectors <> [] ->
  let res := exec (Pinecone.upsert cfg vectors) s o h in
  Forall (fun rq => exists u,
            request_of_group (Pinecone.getNamespaceForUser u) (of_tenant u vectors) rq)
    (upsert_requests (snd res))
  /\ (forall x, fst (fst res) = Ok x ->
      forall u, written_to (Pinecone.getNamespaceForUser u) (snd res)
                = map Pinecone.normalize (of_tenant u vectors))
  /\ (initialized s = false -> initialized (snd (fst res)) = false ->
      upsert_requests (snd res) = [] /\ exists e, fst (fst res) = Err e).
Proof.
  intros Hne. unfold Pinecone.upsert.
  assert (Hlen : (length vectors =? 0)%nat = false)
    by (destruct vectors; [congruence | reflexivity]).
  rewrite Hlen. cbv zeta. rewrite exec_bind.
  pose proof (ensureInitialized_spec cfg s o h) as Hinit. cbv zeta in Hinit.
  destruct (exec (Pinecone.ensureInitialized cfg) s o h) as [[r1 s1] t1].
  cbn [fst snd] in Hinit. destruct Hinit as (Hprov & Hok1 & Herr1).
  apply provisioning_no_requests in Hprov as [Hup1 _].
  destruct r1 as [[]|e1]; cbn [after fst snd].
  2:{ rewrite Hup1. split; [constructor|]. split; [discriminate|].
      intros _ _. split; [reflexivity | eauto]. }
  specialize (Hok1 tt eq_refl).
  rewrite exec_try_catch, exec_bind.
  destruct (Pinecone.group_by_user [] vectors) as [acc|e] eqn:Hgroup.
  2:{ exec_run. rewrite ?app_nil_r, upsert_requests_app, Hup1. obs_norm.
      split; [constructor|]. split; [discriminate|].
      intros _ Hs1. congruence. }
  apply group_by_user_partition in Hgroup as Hpart. destruct Hpart as [Hnd Hpart].
  rewrite exec_ret. cbn [after fst snd app].
  match goal with
  | |- context [exec (for_each ?es Pinecone.upsert_user) s1 o ?h'] =>
      pose proof (for_each_upsert_user_spec es s1 o h') as Hfor;
      destruct (exec (for_each es Pinecone.upsert_user) s1 o h') as [[r2 s2] t2]
  end.
  cbv zeta in Hfor. cbn [fst snd] in Hfor. destruct Hfor as (-> & Hreq & Hok2).
  assert (Hreq' : Forall (fun rq => exists u,
                    request_of_group (Pinecone.getNamespaceForUser u) (of_tenant u vectors) rq)
                    (upsert_requests t2)).
  { eapply Forall_impl; [exact Hreq|]. intros rq (u & vs & Hin & Hrq).
    exists u. apply entries_In, Hpart in Hin as [-> _]. exact Hrq. }
  destruct r2 as [[]|e2]; cbn [after fst snd app]; exec_run.
  - rewrite upsert_requests_app, Hup1. cbn [app].
    split; [exact Hreq'|]. split; [|intros _ Hs1; congruence].
    intros x _ u. rewrite written_to_app.
    replace (written_to (Pinecone.getNamespaceForUser u) t1) with (@nil Types.Vector)
      by (unfold written_to; now rewrite Hup1).
    cbn [app]. rewrite (Hok2 tt eq_refl u).
    rewrite flat_map_key by now apply entries_NoDup.
    rewrite <- (own_perm acc (JsObject.entries acc) u Hnd)
      by (symmetry; apply entries_perm).
    destruct (JsObject.own acc u) as [vs|] eqn:Hown.
    + apply own_In, Hpart in Hown as [-> _]. reflexivity.
    + destruct (of_tenant u vectors) as [|w ws] eqn:Hof; [reflexivity|].
      exfalso. assert (Hin : In (u, w :: ws) acc)
        by (apply Hpart; split; [now rewrite Hof | discriminate]).
      apply (In_own _ _ _ Hnd) in Hin. congruence.
  - rewrite !upsert_requests_app, Hup1. obs_norm. rewrite app_nil_r.
    split; [exact Hreq'|]. split; [discriminate | intros _ Hs1; congruence].
Qed.

(** *** The remote index *)

Lemma write_batch_lookup (batch : list Types.Vector) (recs : gmap string Types.Vector) i v :
  write_batch recs batch !! i = Some v -> recs !! i = Some v \/ In v batch.
Proof.
  unfold write_batch. revert recs.
  induction batch as [|w batch IH]; intros recs; cbn [foldl]; [now left|].
  intros H. apply IH in H as [H | H]; [|right; now right].
  destruct (decide (Types.id w = i)) as [<- | Hne].
  - rewrite lookup_insert_eq in H. injection H as <-. right. now left.
  - rewrite lookup_insert_ne in H by exact Hne. now left.
Qed.

Lemma store_step_isolated st rq :
  isolated st ->
  (forall v, In v (snd (fst rq)) ->
             fst (fst rq) = Pinecone.getNamespaceForUser (Types.userId (Types.metadata v))) ->
  isolated (store_step st rq).
Proof.
  destruct rq as [[ns batch] [|]]; cbn [store_step fst snd]; [|auto].
  intros Hst Hbatch ns' recs i v Hns' Hv.
  destruct (decide (ns = ns')) as [<- | Hne].
  - rewrite lookup_insert_eq in Hns'. injection Hns' as <-.
    apply write_batch_lookup in Hv as [Hv | Hv]; [|now apply Hbatch].
    destruct (st !! ns) as [recs0|] eqn:Hrecs0; cbn [default] in Hv.
    + now apply (Hst ns recs0 i v).
    + rewrite lookup_empty in Hv. discriminate.
  - rewrite lookup_insert_ne in Hns' by exact Hne. now apply (Hst ns' recs i v).
Qed.

Lemma store_after_isolated st t :
  isolated st ->
  Forall (fun rq => forall v, In v (snd (fst rq)) ->
            fst (fst rq) = Pinecone.getNamespaceForUser (Types.userId (Types.metadata v)))
    (upsert_requests t) ->
  isolated (store_after st t).
Proof.
  unfold store_after. generalize (upsert_requests t). intros rqs. revert st.
  induction rqs as [|rq rqs IH]; intros st Hst Hall; cbn [foldl]; [exact Hst|].
  apply Forall_cons in Hall as [Hrq Hall]. apply IH; [|exact Hall].
  now apply store_step_isolated.
Qed.

(** ** The earlier revision of the service: its readiness loop *)

Lemma legacy_wait_loop_spec n retries indexName s o h :
  wait_outcome n (Ok (retries + Z.of_nat n)) (fun k => Ok (retries + Z.of_nat k))
    (exec (PineconeLegacy.wait_loop n retries indexName) s o h) s.
Proof.
  revert retries h. induction n as [|n IH]; intros retries h.
  - cbn [PineconeLegacy.wait_loop]. exec_run.
    unfold wait_outcome. cbn. repeat split; try reflexivity.
    left. repeat split; [constructor | f_equal; lia].
  - cbn [PineconeLegacy.wait_loop]. rewrite exec_bind, exec_poll.
    destruct (not_ready (o _ h (DescribeIndex indexName))) eqn:Hnr; cbn [negb].
    + revert Hnr. generalize (o _ h (DescribeIndex indexName)). intros r Hnr.
      assert (Hw : exists warn,
                 (if poll_warned r then [Entry (Log Lwarn poll_warning) tt] else []) = warn
                 /\ describe_replies warn = [] /\ schedule warn = []
                 /\ upsert_requests warn = [] /\ create_requests warn = []
                 /\ logged Lwarn warn = (if poll_warned r then [poll_warning] else [])).
      { eexists. split; [reflexivity|]. destruct (poll_warned r); repeat split. }
      destruct Hw as (warn & -> & Hw1 & Hw2 & Hw3 & Hw4 & Hw5).
      exec_run.
      match goal with
      | |- context [exec (PineconeLegacy.wait_loop n ?r1 indexName) s o ?h'] =>
          specialize (IH r1 h');
          destruct (exec (PineconeLegacy.wait_loop n r1 indexName) s o h')
            as [[r' s'] t'] eqn:Hrec
      end.
      unfold wait_outcome in *. cbn [fst snd after] in *.
      destruct IH as (Hs & Hlen & Hsched & Hwarn & Hup & Hcr & Hout).
      change (Entry (DescribeIndex indexName) r :: warn)
        with ([Entry (DescribeIndex indexName) r] ++ warn).
      rewrite !describe_replies_app, !schedule_app, !logged_app, !upsert_requests_app,
        !create_requests_app, Hw1, Hw2, Hw3, Hw4, Hw5, Hup, Hcr, Hsched, Hwarn.
      obs_simpl.
      split; [exact Hs|]. split; [lia|].
      split; [unfold fixed_interval; cbn [flat_map]; now rewrite Hnr|].
      split; [cbn [List.filter]; destruct (poll_warned r); reflexivity|].
      split; [reflexivity|]. split; [reflexivity|].
      destruct Hout as [(Hall & Hn & Hr) | (before & status & Hrs & Hready & Hall & Hr)].
      * left. split; [now constructor|]. split; [now rewrite Hn|].
        rewrite Hr. f_equal. lia.
      * right. exists (r :: before), status. rewrite Hrs.
        split; [reflexivity|]. split; [exact Hready|]. split; [now constructor|].
        rewrite Hr. f_equal. cbn [length]. lia.
    + exec_run. unfold wait_outcome. cbn [fst snd].
      destruct (o _ h (DescribeIndex indexName)) as [status | e] eqn:Hr;
        cbn [not_ready] in Hnr; [|discriminate].
      apply negb_false_iff in Hnr.
      cbn. unfold fixed_interval. cbn. rewrite Hnr. cbn.
      repeat split; try reflexivity; try lia.
      right. exists [], status. repeat split; [exact Hnr | constructor | f_equal; cbn; lia].
Qed.

Lemma legacy_init_spec cfg s o h :
  let res := exec (PineconeLegacy.init cfg) s o h in
  existsb snd (create_requests (snd res)) = true ->
  Forall (fun r => not_ready r = true) (describe_replies (snd res)) ->
  fst (fst res) = Err (Error (PineconeLegacy.not_ready_message (Config.indexName cfg)))
  /\ snd (fst res) = s
  /\ length (describe_replies (snd res)) = 12%nat
  /\ schedule (snd res) = fixed_interval 5000 (describe_replies (snd res))
  /\ upsert_requests (snd res) = [].
Proof.
  cbv zeta. remember (exec (PineconeLegacy.init cfg) s o h) as res eqn:Hres. revert Hres.
  unfold PineconeLegacy.init. cbv zeta.
  rewrite exec_try_catch, exec_bind, exec_await.
  destruct (o _ h ListIndexes) as [names | e]; cbn [after fst snd].
  2:{ exec_run. intros ->. unfold after; cbn [fst snd app]. obs_norm. cbn. discriminate. }
  destruct (existsb (String.eqb (Config.indexName cfg)) names); cbn [negb].
  - rewrite exec_bind, exec_bind, exec_log. cbn [after fst snd app].
    rewrite exec_bind, exec_await.
    match goal with
    | |- context [o ?X ?hh (DescribeIndex ?c)] =>
        destruct (o X hh (DescribeIndex c)) as [description | e]
    end; cbn [after fst snd app].
    2:{ exec_run. intros ->. unfold after; cbn [fst snd app]. obs_norm. cbn. discriminate. }
    destruct (dimension description =? PineconeLegacy.INDEX_DIMENSION);
      destruct (String.eqb (metric description) PineconeLegacy.INDEX_METRIC);
      cbn [negb].
    all: exec_run.
    all: intros ->; unfold after; cbn [fst snd app].
    all: obs_norm.
    all: cbn.
    all: discriminate.
  - rewrite exec_bind, exec_bind, exec_log. cbn [after fst snd app].
    rewrite exec_bind, exec_await.
    match goal with
    | |- context [o ?X ?hh (CreateIndex ?c)] => destruct (o X hh (CreateIndex c)) as [[] | e]
    end; cbn [after fst snd app].
    2:{ exec_run. intros ->. unfold after; cbn [fst snd app]. obs_norm. cbn. discriminate. }
    rewrite exec_bind.
    match goal with
    | |- context [exec (PineconeLegacy.wait_loop ?n ?r ?i) ?s0 o ?hh] =>
        pose proof (legacy_wait_loop_spec n r i s0 o hh) as Hw;
        destruct (exec (PineconeLegacy.wait_loop n r i) s0 o hh) as [[r1 s1] t1]
    end.
    unfold wait_outcome in Hw. cbn [fst snd] in Hw.
    destruct Hw as (-> & Hlen & Hsched & Hwarn & Hup & Hcr & Hout).
    destruct Hout as [(Hall & Hn & ->) | (before & status & Hrs & Hready & Hall & ->)];
      cbn [after fst snd app].
    + change (0 + Z.of_nat (Z.to_nat PineconeLegacy.maxRetries) =? PineconeLegacy.maxRetries)
        with true. cbv iota. exec_run. intros ->. unfold after; cbn [fst snd app].
      obs_norm. rewrite Hup, Hcr, Hsched, !app_nil_r. intros _ _.
      repeat split. rewrite Hn. reflexivity.
    + destruct (0 + Z.of_nat (length before) =? PineconeLegacy.maxRetries);
        exec_run; intros ->; unfold after; cbn [fst snd app]; obs_norm;
        rewrite ?app_nil_r; intros _ Hnone; exfalso;
        rewrite Hrs in Hnone; apply Forall_app in Hnone as [_ Hlast];
        inversion Hlast as [|? ? Hst _]; subst; cbn in Hst; rewrite Hready in Hst;
        discriminate.
Qed.

Example two_tenants_one_call :
  upsert_requests
    (snd (exec (Pinecone.upsert Scenario.cfg
                  [ {| Types.id := "a"; Types.values := [];
                       Types.metadata :=
                         {| Types.repoUrl := "r"; Types.filePath := "f"; Types.chunkIndex := 0;
                            Types.commit := None; Types.userId := "alice";
                            Types.startLine := 1; Types.endLine := 2 |} |};
                    {| Types.id := "b"; Types.values := [];
                       Types.metadata :=
                         {| Types.repoUrl := "r"; Types.filePath := "g"; Types.chunkIndex := 0;
                            Types.commit := Some "c0ffee"%string; Types.userId := "7";
                            Types.startLine := 1; Types.endLine := 9 |} |} ])
            {| initialized := true |}
            (Scenario.world Scenario.nothing_fails None) []))
  = [ ("user_7"%string,
       [ {| Types.id := "b"; Types.values := [];
            Types.metadata :=
              {| Types.repoUrl := "r"; Types.filePath := "g"; Types.chunkIndex := 0;
                 Types.commit := Some "c0ffee"%string; Types.userId := "7";
                 Types.startLine := 1; Types.endLine := 9 |} |} ], true);
      ("user_alice"%string,
       [ {| Types.id := "a"; Types.values := [];
            Types.metadata :=
              {| Types.repoUrl := "r"; Types.filePath := "f"; Types.chunkIndex := 0;
                 Types.commit := Some ""%string; Types.userId := "alice";
                 Types.startLine := 1; Types.endLine := 2 |} |} ], true) ].
Proof. vm_compute. reflexivity. Qed.

(** ** The pipeline: who writes to the ledger *)

Lemma other_than_calls k t :
  Forall (satisfies (other_than k)) t -> calls_of k t = [].
Proof.
  induction 1 as [|en t Hen _ IH]; [reflexivity|].
  unfold calls_of in *. cbn [List.filter]. unfold satisfies, other_than in Hen.
  unfold entry_kind. apply negb_true_iff in Hen. now rewrite Hen.
Qed.

Lemma no_ledger_writes jobId t :
  Forall (satisfies (other_than KLedger)) t -> ledger_writes jobId t = [].
Proof.
  induction 1 as [|[X e r] t He _ IH]; [reflexivity|].
  unfold satisfies, other_than in He. cbn [entry_event] in He.
  destruct e; try discriminate He; unfold ledger_writes in *; cbn; exact IH.
Qed.

Lemma ledger_writes_app jobId t1 t2 :
  ledger_writes jobId (t1 ++ t2) = ledger_writes jobId t1 ++ ledger_writes jobId t2.
Proof. apply omap_app. Qed.

Lemma progress_reports_app jobId t1 t2 :
  progress_reports jobId (t1 ++ t2)
  = progress_reports jobId t1 ++ progress_reports jobId t2.
Proof. unfold progress_reports. now rewrite ledger_writes_app, map_app. Qed.



Lemma cleanWorkingDirectory_emits workDir :
  emitsP (fun X e => match kind_of e with KLog | KFs => true | _ => false end)
    (Git.cleanWorkingDirectory workDir).
Proof. unfold Git.cleanWorkingDirectory. emits_auto. Qed.

Lemma cloneRepository_emits cfg repoUrl jobId commit :
  emitsP (fun X e => match kind_of e with KLog | KFs | KGit => true | _ => false end)
    (Git.cloneRepository cfg repoUrl jobId commit).
Proof. unfold Git.cloneRepository, Git.cleanWorkingDirectory. emits_auto. Qed.

Lemma cleanup_emits workDir :
  emitsP (fun X e => match kind_of e with KLog | KFs => true | _ => false end)
    (Pipeline.cleanup workDir).
Proof. unfold Pipeline.cleanup, Git.cleanWorkingDirectory. emits_auto. Qed.

Lemma processChunk_emits chunk repoUrl userId commit :
  emitsP (fun X e => match kind_of e with KLog | KOpenAI | KUuid => true | _ => false end)
    (Pipeline.processChunk chunk repoUrl userId commit).
Proof. unfold Pipeline.processChunk, OpenAI.generateEmbedding. emits_auto. Qed.

Lemma upsert_batches_emits fuel ns vs i :
  emitsP (fun X e => match kind_of e with KLog | KPinecone => true | _ => false end)
    (Pinecone.upsert_batches fuel ns vs i).
Proof.
  revert i. induction fuel as [|fuel IH]; intros i; cbn [Pinecone.upsert_batches];
    [emits_auto|].
  destruct (i <? length vs)%nat; [|emits_auto].
  unfold Pinecone.processBatch. emits_auto. apply IH.
Qed.

Lemma upsert_emits cfg vectors :
  emitsP (fun X e => match kind_of e with KLog | KTimer | KPinecone => true | _ => false end)
    (Pinecone.upsert cfg vectors).
Proof.
  unfold Pinecone.upsert. destruct (length vectors =? 0)%nat; [emits_auto|].
  apply emitsP_bind.
  - eapply emits_weaken_P; [|apply ensureInitialized_emits].
    intros X e. destruct e; cbn; congruence.
  - intros _. apply emitsP_try_catch; [|intros e; emits_auto].
    apply emitsP_bind; [destruct (Pinecone.group_by_user [] vectors); emits_auto|].
    intros acc. apply emitsP_for_each. intros [u vs]. unfold Pinecone.upsert_user.
    emits_auto. eapply emits_weaken_P; [|apply upsert_batches_emits].
    intros X e. destruct e; cbn; congruence.
Qed.

(** ** The pipeline: a repository without chunks *)


Lemma exec_cleanup workDir s o h :
  exists removal logs,
    exec (Pipeline.cleanup workDir) s o h
    = ((Ok tt, s), Entry (FsRm workDir) removal :: logs)
    /\ Forall (satisfies (fun X e => kind_eqb (kind_of e) KLog)) logs.
Proof.
  unfold Pipeline.cleanup. rewrite exec_try_catch, exec_cleanWorkingDirectory.
  eexists _, _. split; [reflexivity|]. repeat constructor.
Qed.

Lemma log_only t :
  Forall (satisfies (fun X e => kind_eqb (kind_of e) KLog)) t ->
  forall jobId k,
    ledger_writes jobId t = [] /\ fs_calls t = []
    /\ (k <> KLog -> calls_of k t = []).
Proof.
  induction 1 as [|[X e r] t He _ IH]; intros jobId k; [repeat split|].
  destruct (IH jobId k) as (IH1 & IH2 & IH3).
  unfold satisfies in He. cbn [entry_event] in He.
  destruct e; try discriminate He.
  unfold ledger_writes, fs_calls, calls_of in *. cbn.
  split; [exact IH1|]. split; [exact IH2|]. intros Hk.
  destruct k; try congruence; cbn; now apply IH3.
Qed.

(** ** The pipeline: progress *)

Lemma updateJobStatus_spec jobId st p err s o h :
  let res := exec (Mongo.updateJobStatus jobId st p err) s o h in
  snd (fst res) = s
  /\ exists applied,
       ledger_writes jobId (snd res)
       = [({| JobModel.set_status := st; JobModel.set_progress := p;
              JobModel.set_error := if Js.truthy err then err else None |}, applied)].
Proof.
  unfold Mongo.updateJobStatus. cbv zeta. rewrite exec_bind, exec_await.
  match goal with
  | |- context [o ?X ?hh (FindOneAndUpdate ?j ?u)] =>
      destruct (o X hh (FindOneAndUpdate j u)) as [[job|]|e]
  end; exec_run; unfold ledger_writes; obs_simpl; rewrite String.eqb_refl;
    (split; [reflexivity | eexists; reflexivity]).
Qed.

Lemma updateJobStatus_reports jobId st p err s o h :
  progress_reports jobId (snd (exec (Mongo.updateJobStatus jobId st p err) s o h))
  = [(st, p)].
Proof.
  destruct (updateJobStatus_spec jobId st p err s o h) as (_ & applied & Hw).
  unfold progress_reports. now rewrite Hw.
Qed.

Lemma promise_all_processChunk_reports jobId batch repoUrl userId commit s o h :
  progress_reports jobId
    (snd (exec (promise_all
                  (map (fun chunk => Pipeline.processChunk chunk repoUrl userId commit) batch))
            s o h))
  = [].
Proof.
  unfold progress_reports. rewrite no_ledger_writes; [reflexivity|].
  apply emits_exec. apply emitsP_promise_all. apply Forall_forall.
  intros p Hp. apply list_elem_of_In, in_map_iff in Hp as (chunk & <- & _).
  eapply emits_weaken_P; [|apply processChunk_emits].
  intros X e. unfold other_than. destruct (kind_of e); cbn; congruence.
Qed.

Lemma progress_of_mono base c1 c2 n :
  0 <= base <= 100 -> 0 < n -> c1 <= c2 ->
  Pipeline.progress_of base c1 n <= Pipeline.progress_of base c2 n.
Proof.
  intros Hb Hn Hc. unfold Pipeline.progress_of.
  apply Z.add_le_mono_l, Z.div_le_mono; [exact Hn | nia].
Qed.

Lemma progress_of_full base n : 0 < n -> Pipeline.progress_of base n n = 100.
Proof.
  intros Hn. unfold Pipeline.progress_of. rewrite Z.div_mul by lia. lia.
Qed.

Lemma progress_of_zero base n : Pipeline.progress_of base 0 n = base.
Proof. unfold Pipeline.progress_of. rewrite Z.mul_0_r, Zdiv_0_l. lia. Qed.

Lemma length_array_slice {A : Type} (xs : list A) (i : nat) (n : nat) :
  (i < length xs)%nat ->
  (i + length (Pinecone.array_slice xs i (Nat.min (i + n) (length xs))))%nat
  = Nat.min (i + n) (length xs).
Proof.
  intros Hi. unfold Pinecone.array_slice. rewrite length_take, length_drop. lia.
Qed.

Lemma exec_updateProgress jobId base current total s o h :
  exec (Pipeline.updateProgress jobId base current total) s o h
  = match exec (Mongo.updateJobStatus jobId JobModel.running
                  (Pipeline.progress_of base (Z.of_nat current) (Z.of_nat total)) None)
            s o h with
    | ((Ok _, s1), t1) => ((Ok tt, s1), t1)
    | ((Err e, s1), t1) => ((Err e, s1), t1)
    end.
Proof.
  unfold Pipeline.updateProgress. cbv zeta. rewrite exec_bind.
  destruct (exec (Mongo.updateJobStatus _ _ _ _) s o h) as [[[job|e] s1] t1];
    cbn [after fst snd]; exec_run; unfold after; cbn [fst snd]; rewrite ?app_nil_r;
    reflexivity.
Qed.

(** The progress reports of the batch loop, started at index [i]: all
    [running], between the value for [i] chunks done and 100, in
    non-decreasing order. *)
Lemma processChunks_from_reports fuel chunks jobId repoUrl userId commit i vectors s o h :
  let rs :=
    progress_reports jobId
      (snd (exec (Pipeline.processChunks_from fuel chunks jobId repoUrl userId commit
                    i vectors) s o h)) in
  Forall (fun r => fst r = JobModel.running
                   /\ Pipeline.progress_of Constants.CHUNKING_PROGRESS (Z.of_nat i)
                        (Z.of_nat (length chunks)) <= snd r <= 100) rs
  /\ StronglySorted (fun a b => snd a <= snd b) rs.
Proof.
  cbv zeta. revert i vectors s h.
  induction fuel as [|fuel IH]; intros i vectors s h; cbn [Pipeline.processChunks_from].
  - rewrite exec_ret. cbn. split; constructor.
  - destruct (i <? length chunks)%nat eqn:Hi; [|rewrite exec_ret; cbn; split; constructor].
    apply Nat.ltb_lt in Hi. cbv zeta. rewrite exec_bind.
    pose proof (promise_all_processChunk_reports jobId
                  (Pinecone.array_slice chunks i
                     (Nat.min (i + Constants.BATCH_SIZE) (length chunks)))
                  repoUrl userId commit s o h) as Hb.
    destruct (exec (promise_all _) s o h) as [[rb sb] tb]. cbn [snd] in Hb.
    destruct rb as [batchVectors|e]; cbn [after fst snd];
      [|rewrite Hb; split; constructor].
    rewrite progress_reports_app, Hb. cbn [app].
    rewrite exec_bind, exec_updateProgress.
    rewrite length_array_slice by exact Hi.
    set (p := Pipeline.progress_of Constants.CHUNKING_PROGRESS
                (Z.of_nat (Nat.min (i + Constants.BATCH_SIZE) (length chunks)))
                (Z.of_nat (length chunks))).
    assert (Hp : Pipeline.progress_of Constants.CHUNKING_PROGRESS (Z.of_nat i)
                   (Z.of_nat (length chunks)) <= p <= 100).
    { subst p. split.
      - apply progress_of_mono; unfold Constants.CHUNKING_PROGRESS, Constants.BATCH_SIZE; lia.
      - rewrite <- (progress_of_full Constants.CHUNKING_PROGRESS (Z.of_nat (length chunks)))
          by lia.
        apply progress_of_mono; unfold Constants.CHUNKING_PROGRESS; lia. }
    match goal with
    | |- context [exec (Mongo.updateJobStatus jobId ?st p ?err) ?s1 o ?h1] =>
        pose proof (updateJobStatus_reports jobId st p err s1 o h1) as Hu;
        pose proof (updateJobStatus_spec jobId st p err s1 o h1) as (Hus & _);
        destruct (exec (Mongo.updateJobStatus jobId st p err) s1 o h1) as [[ru su] tu]
    end.
    cbn [fst snd] in Hu, Hus. subst su.
    destruct ru as [job|e]; cbn [after fst snd].
    2:{ rewrite Hu. split.
        - constructor; [cbn; split; [reflexivity | exact Hp] | constructor].
        - constructor; constructor. }
    match goal with
    | |- context [exec (Pipeline.processChunks_from fuel chunks jobId repoUrl userId commit
                          ?i' ?v') ?s1 o ?h1] =>
        destruct (IH i' v' s1 h1) as [Hall Hsorted];
        destruct (exec (Pipeline.processChunks_from fuel chunks jobId repoUrl userId commit
                          i' v') s1 o h1) as [[rl sl] tl]
    end.
    cbn [fst snd] in *. rewrite progress_reports_app, Hu. cbn [app].
    assert (Hnext : p <= Pipeline.progress_of Constants.CHUNKING_PROGRESS
                           (Z.of_nat (i + Constants.BATCH_SIZE)) (Z.of_nat (length chunks))).
    { subst p. apply progress_of_mono; unfold Constants.CHUNKING_PROGRESS; lia. }
    split.
    + constructor; [cbn; split; [reflexivity | exact Hp]|].
      eapply Forall_impl; [exact Hall|]. intros r [Hr1 Hr2]. split; [exact Hr1 | lia].
    + constructor; [exact Hsorted|].
      eapply Forall_impl; [exact Hall|]. intros r [_ Hr2]. cbn. lia.
Qed.




(** ** The pipeline: a clone that fails *)

(** X1: [processEmbedding] awaits the clone before its [try] block: when the
    clone rejects, the run rejects with the same error and the calls made
    are those of the clone alone; in particular the ledger is not called,
    so the job record is left as it was (it is not marked [failed]). *)
Theorem clone_failure_not_recorded cfg jobId repoUrl userId commit s o h e s0 t0 :
  exec (Git.cloneRepository cfg repoUrl jobId commit) s o h = ((Err e, s0), t0) ->
  exec (Pipeline.processEmbedding cfg jobId repoUrl userId commit) s o h
  = ((Err e, s0), t0)
  /\ calls_of KLedger t0 = []
  /\ (forall j, ledger_writes j t0 = [])
  /\ (forall job j, trajectory job (ledger_writes j t0) = []).
Proof.
  intros Hclone.
  pose proof (emits_exec _ _ s o h (cloneRepository_emits cfg repoUrl jobId commit)) as Ht0.
  rewrite Hclone in Ht0. cbn [snd] in Ht0.
  assert (Hother : Forall (satisfies (other_than KLedger)) t0).
  { eapply Forall_impl; [exact Ht0|]. intros [X ev r]. unfold satisfies, other_than. cbn.
    destruct (kind_of ev); cbn; congruence. }
  split; [|split; [|split]].
  - unfold Pipeline.processEmbedding. rewrite exec_bind, Hclone. reflexivity.
  - now apply other_than_calls.
  - intros j. now apply no_ledger_writes.
  - intros job j. now rewrite no_ledger_writes.
Qed.

(** The clone rejects: the run rejects with the error of the clone and
    nothing is written to the ledger. *)
Lemma clone_failure_not_recorded_witness :
  fst (fst (exec (Pipeline.processEmbedding Scenario.cfg "job1"
                    "https://github.com/u/r.git" "u1" None)
              {| initialized := false |}
              (Scenario.world Scenario.git_fails Scenario.small_repo) []))
  = Err Scenario.boom
  /\ ledger_writes "job1"
       (snd (exec (Pipeline.processEmbedding Scenario.cfg "job1"
                     "https://github.com/u/r.git" "u1" None)
               {| initialized := false |}
               (Scenario.world Scenario.git_fails Scenario.small_repo) []))
     = [].
Proof.
  edestruct (fun e s0 t0 =>
               clone_failure_not_recorded Scenario.cfg "job1" "https://github.com/u/r.git"
                 "u1" None {| initialized := false |}
                 (Scenario.world Scenario.git_fails Scenario.small_repo) [] e s0 t0)
    as (Hrun & _ & Hledger & _).
  - vm_compute. reflexivity.
  - rewrite Hrun. split; [reflexivity | apply Hledger].
Defined.

(** C3: a run of [processEmbedding] whose clone rejects.  The run rejects
    with the error of the clone, having made the calls of the clone alone
    (the job directory is created, the clone fails, the directory is
    removed): nothing is written to the ledger, so the job record stays
    [queued] and is never marked [failed].  The handler of the earlier
    controller, given the same job in the same environment, does record
    it: it sends [running] with progress 0, then [failed] with progress 0
    and the message of the error. *)
Theorem processEmbedding_clone_failure_unrecorded :
  let o := Scenario.world Scenario.git_fails Scenario.small_repo in
  let run := exec (Pipeline.processEmbedding Scenario.cfg "job1"
                     "https://github.com/u/r.git" "u1" None)
               {| initialized := false |} o [] in
  let inline := exec (InlineController.run_job Scenario.cfg "job1"
                        "https://github.com/u/r.git" "u1" None)
                  {| initialized := false |} o [] in
  fst (fst run) = Err Scenario.boom
  /\ fs_calls (snd run)
     = [(OpMkdir, "work/job1"%string, None);
        (OpClone, "work/job1"%string, Some Scenario.boom);
        (OpRm, "work/job1"%string, None)]
  /\ calls_of KLedger (snd run) = []
  /\ ledger_writes "job1" (snd run) = []
  /\ map JobModel.status (Scenario.job0 :: trajectory Scenario.job0
                                             (ledger_writes "job1" (snd run)))
     = [JobModel.queued]
  /\ fst (fst inline) = Ok tt
  /\ map (fun w => (JobModel.set_status (fst w), JobModel.set_progress (fst w),
                    JobModel.set_error (fst w)))
       (ledger_writes "job1" (snd inline))
     = [(JobModel.running, 0, None); (JobModel.failed, 0, Some "boom"%string)].
Proof. vm_compute. repeat split. Qed.

(** ** The pipeline: what the [try] block calls *)

Lemma updateJobStatus_emits Q jobId st p err :
  (forall X (e : event X), kind_of e = KLog -> Q X e = true) ->
  Q _ (FindOneAndUpdate jobId
         {| JobModel.set_status := st; JobModel.set_progress := p;
            JobModel.set_error := if Js.truthy err then err else None |}) = true ->
  emitsP Q (Mongo.updateJobStatus jobId st p err).
Proof.
  intros Hlog Hu. unfold Mongo.updateJobStatus. cbv zeta.
  apply emitsP_bind; [now apply emitsP_await|].
  intros job. apply emitsP_bind; [|intros _; apply emitsP_ret].
  destruct job; apply emitsP_perform, Hlog; reflexivity.
Qed.

Lemma processChunks_from_emits Q fuel chunks jobId repoUrl userId commit i vectors :
  (forall X (e : event X),
      match kind_of e with KLog | KOpenAI | KUuid => True | _ => False end ->
      Q X e = true) ->
  (forall p, Q _ (FindOneAndUpdate jobId
                    {| JobModel.set_status := JobModel.running;
                       JobModel.set_progress := p;
                       JobModel.set_error := None |}) = true) ->
  emitsP Q
    (Pipeline.processChunks_from fuel chunks jobId repoUrl userId commit i vectors).
Proof.
  intros Hk Hu. revert i vectors. induction fuel as [|fuel IH]; intros i vectors;
    cbn [Pipeline.processChunks_from]; [apply emitsP_ret|].
  destruct (i <? length chunks)%nat; [|apply emitsP_ret]. cbv zeta.
  apply emitsP_bind.
  - apply emitsP_promise_all, Forall_forall. intros p Hp.
    apply list_elem_of_In, in_map_iff in Hp as (chunk & <- & _).
    eapply emits_weaken_P; [|apply processChunk_emits].
    intros X e He. apply Hk. cbv beta in He.
    destruct (kind_of e); first [exact I | discriminate He].
  - intros batchVectors. apply emitsP_bind; [|intros _; apply IH].
    unfold Pipeline.updateProgress. cbv zeta.
    apply emitsP_bind; [|intros _; apply emitsP_ret].
    apply updateJobStatus_emits; [|apply Hu].
    intros X e He. apply Hk. now rewrite He.
Qed.

Lemma embedding_job_emits cfg jobId repoUrl userId workDir commit :
  emitsP job_call (Pipeline.embedding_job cfg jobId repoUrl userId workDir commit).
Proof.
  assert (Hlog : forall X (e : event X), kind_of e = KLog -> job_call X e = true)
    by (intros X e; destruct e; cbn; congruence).
  assert (Hupd : forall st p,
             st <> JobModel.failed ->
             emitsP job_call (Mongo.updateJobStatus jobId st p None)).
  { intros st p Hst. apply updateJobStatus_emits; [exact Hlog|].
    cbn. now destruct st. }
  unfold Pipeline.embedding_job.
  apply emitsP_bind; [now apply Hupd|]. intros _.
  apply emitsP_bind; [now apply emitsP_perform|]. intros _.
  apply emitsP_bind; [now apply Hupd|]. intros _.
  apply emitsP_bind; [now apply emitsP_perform|]. intros _.
  apply emitsP_bind; [unfold Pipeline.walkAndChunk; emits_auto|]. intros chunks.
  destruct (length chunks =? 0)%nat.
  - apply emitsP_bind; [now apply emitsP_perform|]. intros _.
    apply emitsP_bind; [now apply Hupd | intros _; apply emitsP_ret].
  - apply emitsP_bind; [now apply emitsP_perform|]. intros _.
    apply emitsP_bind; [now apply Hupd|]. intros _.
    apply emitsP_bind.
    { apply processChunks_from_emits; [|reflexivity].
      intros X e. destruct e; cbn; tauto. }
    intros vectors.
    apply emitsP_bind.
    + unfold Pipeline.upsertVectors. apply emitsP_try_catch.
      * apply emitsP_bind; [now apply emitsP_perform|]. intros _.
        eapply emits_weaken_P; [|apply upsert_emits].
        intros X e. destruct e; cbn; congruence.
      * intros e. emits_auto.
    + intros _. apply emitsP_bind; [now apply Hupd|]. intros _.
      now apply emitsP_perform.
Qed.

Lemma job_call_trace jobId t :
  Forall (satisfies job_call) t ->
  fs_calls t = []
  /\ Forall (fun w => JobModel.set_status (fst w) <> JobModel.failed)
       (ledger_writes jobId t).
Proof.
  induction 1 as [|[X e r] t He _ [IH1 IH2]]; [split; constructor|].
  unfold satisfies in He. cbn [entry_event] in He.
  destruct e; try discriminate He; unfold fs_calls, ledger_writes in *; cbn;
    try (split; [exact IH1 | exact IH2]).
  split; [exact IH1|].
  destruct (String.eqb jobId0 jobId); [|exact IH2].
  constructor; [|exact IH2]. cbn in *. intros Hst. now rewrite Hst in He.
Qed.

Lemma clone_trace cfg repoUrl jobId commit s o h j :
  ledger_writes j (snd (exec (Git.cloneRepository cfg repoUrl jobId commit) s o h)) = [].
Proof.
  apply no_ledger_writes.
  eapply Forall_impl; [apply emits_exec, cloneRepository_emits|].
  intros [X ev r]. unfold satisfies, other_than. cbn.
  destruct (kind_of ev); cbn; congruence.
Qed.

Lemma trajectory_app job ws1 ws2 :
  trajectory job (ws1 ++ ws2)
  = trajectory job ws1
    ++ trajectory (List.last (trajectory job ws1) job) ws2.
Proof.
  revert job. induction ws1 as [|[u []] ws1 IH]; intros job; cbn [trajectory app].
  - reflexivity.
  - cbv zeta. rewrite IH. cbn [app]. f_equal. f_equal.
    destruct (trajectory (JobModel.apply_update job u) ws1) eqn:Ht; [reflexivity|].
    rewrite <- Ht. clear.
    generalize (JobModel.apply_update job u). intros j.
    generalize (trajectory j ws1). intros l.
    destruct l as [|x l]; [reflexivity|].
    revert x. induction l as [|y l IHl]; intros x; [reflexivity|].
    cbn [List.last] in *. apply IHl.
  - apply IH.
Qed.

Lemma or_else_nonempty o d : d <> EmptyString -> Js.or_else o d <> EmptyString.
Proof. intros Hd. destruct o as [[|c s]|]; cbn; congruence. Qed.

Lemma or_else_truthy o d : d <> EmptyString -> Js.truthy (Some (Js.or_else o d)) = true.
Proof.
  intros Hd. pose proof (or_else_nonempty o d Hd) as H.
  destruct (Js.or_else o d); [congruence | reflexivity].
Qed.

(** What the [catch] block of the pipeline does with the error [e1]. *)
Lemma exec_job_failed jobId e1 s o h :
  let msg := Js.or_else (message e1) Pipeline.unknown_error in
  exists reply logs,
    exec (Pipeline.job_failed jobId e1) s o h
    = ((Err (match reply with Err e2 => e2 | Ok _ => e1 end), s),
       Entry (Log Lerror "Embedding job failed") tt
       :: Entry (FindOneAndUpdate jobId (failed_update msg)) reply :: logs)
    /\ Forall (satisfies (fun X e => kind_eqb (kind_of e) KLog)) logs.
Proof.
  cbv zeta.
  exists (o _ (h ++ [Entry (Log Lerror "Embedding job failed") tt])
            (FindOneAndUpdate jobId
               (failed_update (Js.or_else (message e1) Pipeline.unknown_error)))).
  unfold Pipeline.job_failed, Mongo.updateJobStatus, failed_update. cbv zeta.
  rewrite or_else_truthy by discriminate.
  match goal with
  | |- context [o ?X ?hh (FindOneAndUpdate ?j ?u)] =>
      destruct (o X hh (FindOneAndUpdate j u)) as [[job|]|e2] eqn:Hreply
  end; eexists; (split; [exec_run; rewrite Hreply; exec_run; reflexivity|]);
    repeat constructor.
Qed.

Lemma trajectory_last_applied job ws u :
  exists j,
    last (trajectory job (ws ++ [(u, true)])) = Some (JobModel.apply_update j u).
Proof.
  rewrite trajectory_app. cbn [trajectory]. eexists. apply last_snoc.
Qed.

(** ** The pipeline after the clone *)


(** The run, once the clone has resolved: the [try] block, then the
    [catch] block when it rejected, then the removal of the working
    directory. *)
Lemma processEmbedding_after_clone cfg jobId repoUrl userId commit s o h workDir s0 t0 :
  exec (Git.cloneRepository cfg repoUrl jobId commit) s o h = ((Ok workDir, s0), t0) ->
  exists r1 s1 t1 res tail removal logs,
    exec (Pipeline.embedding_job cfg jobId repoUrl userId workDir (Js.or_else commit ""))
      s0 o (h ++ t0) = ((r1, s1), t1)
    /\ exec (Pipeline.processEmbedding cfg jobId repoUrl userId commit) s o h
       = ((res, s1), t0 ++ t1 ++ tail ++ Entry (FsRm workDir) removal :: logs)
    /\ log_entries logs
    /\ match r1 with
       | Ok _ => tail = [] /\ res = Ok tt
       | Err e1 =>
           exists reply logs1,
             tail = Entry (Log Lerror "Embedding job failed") tt
                    :: Entry (FindOneAndUpdate jobId
                                (failed_update
                                   (Js.or_else (message e1) Pipeline.unknown_error)))
                         reply
                    :: logs1
             /\ log_entries logs1
             /\ res = Err (match reply with Err e2 => e2 | Ok _ => e1 end)
       end.
Proof.
  intros Hclone.
  unfold Pipeline.processEmbedding. rewrite exec_bind, Hclone. cbn [after fst snd].
  rewrite exec_try_finally, exec_try_catch.
  destruct (exec (Pipeline.embedding_job _ _ _ _ _ _) s0 o (h ++ t0)) as [[r1 s1] t1].
  exists r1, s1, t1.
  destruct r1 as [[]|e1]; cbn [after fst snd].
  - match goal with
    | |- context [exec (Pipeline.cleanup workDir) ?s2 o ?h2] =>
        destruct (exec_cleanup workDir s2 o h2) as (removal & logs & -> & Hlogs)
    end.
    exists (Ok tt), [], removal, logs. cbn [after fst snd app].
    split; [reflexivity|]. split; [reflexivity|]. split; [exact Hlogs|].
    split; reflexivity.
  - match goal with
    | |- context [exec (Pipeline.job_failed jobId e1) ?s2 o ?h2] =>
        destruct (exec_job_failed jobId e1 s2 o h2) as (reply & logs1 & -> & Hlogs1)
    end.
    cbn [after fst snd app].
    match goal with
    | |- context [exec (Pipeline.cleanup workDir) ?s2 o ?h2] =>
        destruct (exec_cleanup workDir s2 o h2) as (removal & logs & -> & Hlogs)
    end.
    cbn [after fst snd app].
    exists (Err (match reply with Err e2 => e2 | Ok _ => e1 end)),
      (Entry (Log Lerror "Embedding job failed") tt
       :: Entry (FindOneAndUpdate jobId
                   (failed_update (Js.or_else (message e1) Pipeline.unknown_error)))
            reply
       :: logs1), removal, logs.
    split; [reflexivity|].
    split; [unfold after; cbn [fst snd app]; rewrite <- ?app_assoc; reflexivity|].
    split; [exact Hlogs|].
    exists reply, logs1. split; [reflexivity|]. split; [exact Hlogs1 | reflexivity].
Qed.

Lemma log_entries_obs t jobId :
  log_entries t -> ledger_writes jobId t = [] /\ fs_calls t = [].
Proof. intros H. destruct (log_only t H jobId KLog) as (H1 & H2 & _). now split. Qed.

(** ** The pipeline: a failure after the clone *)

(** X2: Once the clone has resolved, when the [try] block of the run rejects
    (chunking, embedding or upserting failed, or the ledger did), the run
    records the failure and rejects: the last update sent to the ledger
    for the job sets status [failed], progress 0 and the message of the
    error (the "unknown error" text when it has none), which is not empty,
    and no earlier update of the run sets [failed]; when the ledger
    applied that update, the run rejects with the error of the stage and
    the job record ends [failed] with progress 0 and that message. *)
Theorem pipeline_failure_recorded cfg jobId repoUrl userId commit s o h workDir s0 t0 e :
  exec (Git.cloneRepository cfg repoUrl jobId commit) s o h = ((Ok workDir, s0), t0) ->
  fst (fst (exec (Pipeline.embedding_job cfg jobId repoUrl userId workDir
                    (Js.or_else commit "")) s0 o (h ++ t0))) = Err e ->
  let res := exec (Pipeline.processEmbedding cfg jobId repoUrl userId commit) s o h in
  let msg := Js.or_else (message e) Pipeline.unknown_error in
  exists before applied,
    ledger_writes jobId (snd res) = before ++ [(failed_update msg, applied)]
    /\ Forall (fun w => JobModel.set_status (fst w) <> JobModel.failed) before
    /\ msg <> EmptyString
    /\ (exists e', fst (fst res) = Err e')
    /\ (applied = true ->
        fst (fst res) = Err e
        /\ forall job, exists j,
             last (trajectory job (ledger_writes jobId (snd res))) = Some j
             /\ JobModel.status j = JobModel.failed
             /\ JobModel.progress j = 0
             /\ JobModel.error j = Some msg).
Proof.
  intros Hclone Hstage res msg. subst res.
  pose proof (clone_trace cfg repoUrl jobId commit s o h jobId) as Hl0.
  rewrite Hclone in Hl0. cbn [snd] in Hl0.
  destruct (processEmbedding_after_clone cfg jobId repoUrl userId commit s o h
              workDir s0 t0 Hclone)
    as (r1 & s1 & t1 & res & tail & removal & logs & Hjob & -> & Hlogs & Hr1).
  pose proof (emits_exec _ _ s0 o (h ++ t0)
                (embedding_job_emits cfg jobId repoUrl userId workDir
                   (Js.or_else commit ""))) as Hcalls.
  rewrite Hjob in Hcalls, Hstage. cbn [fst snd] in Hcalls, Hstage. subst r1.
  apply (job_call_trace jobId) in Hcalls as [_ Hw1].
  cbn [fst snd].
  destruct Hr1 as (reply & logs1 & -> & Hlogs1 & ->).
  apply (log_entries_obs _ jobId) in Hlogs as [Hlw _], Hlogs1 as [Hlw1 _].
  fold msg.
  match goal with
  | |- context [ledger_writes jobId ?t] =>
      assert (Hwrites :
                ledger_writes jobId t
                = ledger_writes jobId t1
                  ++ [(failed_update msg,
                       match reply with Ok (Some _) => true | _ => false end)])
  end.
  { obs_norm. rewrite String.eqb_refl. obs_norm. rewrite Hl0, Hlw1, Hlw. cbn [app].
    now rewrite ?app_nil_r. }
  exists (ledger_writes jobId t1),
    (match reply with Ok (Some _) => true | _ => false end).
  split; [exact Hwrites|]. split; [exact Hw1|].
  split; [apply or_else_nonempty; discriminate|].
  split; [eauto|].
  intros Happlied. destruct reply as [[job|]|e2]; try discriminate Happlied.
  split; [reflexivity|]. intros job0.
  rewrite Hwrites.
  destruct (trajectory_last_applied job0 (ledger_writes jobId t1) (failed_update msg))
    as [j Hj].
  exists (JobModel.apply_update j (failed_update msg)). split; [exact Hj|].
  repeat split.
Qed.

(** The embedding service rejects: the run rejects with its error, and
    the last update of the ledger sets [failed] with the message of that
    error. *)
Lemma pipeline_failure_recorded_witness :
  let res := exec (Pipeline.processEmbedding Scenario.cfg "job1"
                     "https://github.com/u/r.git" "u1" None)
               {| initialized := false |}
               (Scenario.world Scenario.openai_fails Scenario.small_repo) [] in
  fst (fst res) = Err Scenario.boom
  /\ exists before,
       ledger_writes "job1" (snd res) = before ++ [(failed_update "boom", true)].
Proof.
  cbv zeta.
  edestruct (fun s0 t0 =>
               pipeline_failure_recorded Scenario.cfg "job1" "https://github.com/u/r.git"
                 "u1" None {| initialized := false |}
                 (Scenario.world Scenario.openai_fails Scenario.small_repo) []
                 "work/job1"%string s0 t0 Scenario.boom)
    as (before & applied & Hwrites & _ & _ & _ & Hrun).
  - vm_compute. reflexivity.
  - vm_compute. reflexivity.
  - assert (Happlied : applied = true).
    { apply (f_equal (fun l => option_map snd (last l))) in Hwrites.
      rewrite last_snoc in Hwrites. vm_compute in Hwrites. now injection Hwrites. }
    destruct (Hrun Happlied) as [Herr _]. split; [exact Herr|].
    exists before. rewrite Hwrites, Happlied. reflexivity.
Defined.

(** ** The pipeline: the working directory *)



(** ** The pipeline: progress of a run that succeeds *)

Lemma StronglySorted_snoc {A : Type} (R : A -> A -> Prop) (l : list A) (x : A) :
  StronglySorted R l -> Forall (fun a => R a x) l -> StronglySorted R (l ++ [x]).
Proof.
  induction 1 as [|a l Hl IH Ha]; intros Hx; cbn [app].
  - repeat constructor.
  - inversion Hx as [|? ? Hax Hlx]; subst. constructor; [now apply IH|].
    apply Forall_app. split; [exact Ha | now constructor].
Qed.

Lemma upsertVectors_reports cfg vectors jobId s o h :
  progress_reports jobId (snd (exec (Pipeline.upsertVectors cfg vectors) s o h)) = [].
Proof.
  unfold progress_reports. rewrite no_ledger_writes; [reflexivity|].
  apply emits_exec. unfold Pipeline.upsertVectors.
  apply emitsP_try_catch; [|intros e; emits_auto].
  apply emitsP_bind; [now apply emitsP_perform|]. intros _.
  eapply emits_weaken_P; [|apply upsert_emits].
  intros X e. unfold other_than. destruct (kind_of e); cbn; congruence.
Qed.

Lemma progress_reports_skip jobId en t :
  ledger_write jobId en = None ->
  progress_reports jobId (en :: t) = progress_reports jobId t.
Proof.
  intros H. unfold progress_reports, ledger_writes. cbn [omap list_omap].
  now rewrite H.
Qed.

(** The reports of a trace made of logs, of other calls that are not
    updates of the ledger, and of parts whose reports are known. *)
Ltac reports_norm :=
  repeat first
    [ rewrite progress_reports_app
    | rewrite progress_reports_skip by reflexivity ];
  change (progress_reports _ []) with (@nil (JobModel.JobStatus * Z)).

(** The next step of the program is an update of the ledger: its
    report is recorded, and the case in which it rejects is left to the
    caller. *)
Ltac step_ledger jobId Hname :=
  rewrite exec_bind;
  match goal with
  | |- context [exec (Mongo.updateJobStatus jobId ?st ?p ?err) ?s1 ?o ?h1] =>
      pose proof (updateJobStatus_reports jobId st p err s1 o h1) as Hname;
      destruct (exec (Mongo.updateJobStatus jobId st p err) s1 o h1) as [[[?|?] ?] ?];
      cbn [after fst snd] in Hname |- *
  end.

Lemma embedding_job_reports cfg jobId repoUrl userId workDir commit s o h :
  let res := exec (Pipeline.embedding_job cfg jobId repoUrl userId workDir commit) s o h in
  fst (fst res) = Ok tt ->
  exists middle,
    progress_reports jobId (snd res)
    = (JobModel.running, 0) :: middle ++ [(JobModel.succeeded, 100)]
    /\ Forall (fun r => fst r = JobModel.running /\ 0 <= snd r <= 100) middle
    /\ StronglySorted (fun a b => snd a <= snd b) (progress_reports jobId (snd res)).
Proof.
  cbv zeta. unfold Pipeline.embedding_job.
  step_ledger jobId H0; [|intros H; discriminate H].
  rewrite exec_bind, exec_log. cbn [after fst snd app].
  step_ledger jobId H1; [|intros H; discriminate H].
  rewrite exec_bind, exec_log. cbn [after fst snd app].
  unfold Pipeline.walkAndChunk. rewrite exec_bind, exec_bind, exec_perform.
  cbn [after fst snd app]. rewrite exec_ret. cbn [after fst snd app].
  match goal with
  | |- context [Chunker.walkAndChunkDirectory workDir ?tree 500] =>
      generalize (Chunker.walkAndChunkDirectory workDir tree 500);
      generalize tree
  end.
  intros tree chunks. destruct (length chunks =? 0)%nat.
  - rewrite exec_bind, exec_log. cbn [after fst snd app].
    step_ledger jobId H2; [|intros H; discriminate H].
    rewrite exec_ret. cbn [after fst snd app]. intros _.
    exists [(JobModel.running, Constants.INITIAL_PROGRESS)].
    reports_norm. rewrite H0, H1, H2. cbn [app].
    split; [reflexivity|]. split.
    + repeat constructor; cbn; unfold Constants.INITIAL_PROGRESS; lia.
    + unfold Constants.INITIAL_PROGRESS, Constants.FINAL_PROGRESS.
      repeat constructor; cbn; lia.
  - rewrite exec_bind, exec_log. cbn [after fst snd app].
    step_ledger jobId H2; [|intros H; discriminate H].
    rewrite exec_bind. unfold Pipeline.processChunksInBatches.
    match goal with
    | |- context [exec (Pipeline.processChunks_from ?f chunks jobId repoUrl userId commit
                          ?i ?v) ?s1 o ?h1] =>
        pose proof (processChunks_from_reports f chunks jobId repoUrl userId commit i v
                      s1 o h1) as [Hall Hsorted];
        destruct (exec (Pipeline.processChunks_from f chunks jobId repoUrl userId commit
                          i v) s1 o h1) as [[[vectors|?] ?] tb]
    end; cbn [after fst snd] in Hall, Hsorted |- *; [|intros H; discriminate H].
    rewrite exec_bind.
    match goal with
    | |- context [exec (Pipeline.upsertVectors cfg vectors) ?s1 o ?h1] =>
        pose proof (upsertVectors_reports cfg vectors jobId s1 o h1) as Hup;
        destruct (exec (Pipeline.upsertVectors cfg vectors) s1 o h1) as [[[?|?] ?] tu]
    end; cbn [after fst snd] in Hup |- *; [|intros H; discriminate H].
    step_ledger jobId H3; [|intros H; discriminate H].
    rewrite exec_log. cbn [after fst snd app]. intros _.
    rewrite progress_of_zero in Hall.
    exists ((JobModel.running, Constants.INITIAL_PROGRESS)
            :: (JobModel.running, Constants.CHUNKING_PROGRESS)
            :: progress_reports jobId tb).
    reports_norm. rewrite H0, H1, H2, H3, Hup. cbn [app]; rewrite ?app_nil_r.
    split; [reflexivity|]. split.
    + constructor; [cbn; unfold Constants.INITIAL_PROGRESS; split; [reflexivity | lia]|].
      constructor; [cbn; unfold Constants.CHUNKING_PROGRESS; split; [reflexivity | lia]|].
      eapply Forall_impl; [exact Hall|]. intros r [Hr1 Hr2].
      unfold Constants.CHUNKING_PROGRESS in Hr2. split; [exact Hr1 | lia].
    + assert (Hle : Forall (fun r : JobModel.JobStatus * Z =>
                              Constants.CHUNKING_PROGRESS <= snd r <= 100)
                      (progress_reports jobId tb)).
      { eapply Forall_impl; [exact Hall|]. now intros r [_ Hr2]. }
      unfold Constants.INITIAL_PROGRESS, Constants.CHUNKING_PROGRESS,
        Constants.FINAL_PROGRESS in *.
      constructor; [constructor; [constructor|]|].
      * apply StronglySorted_snoc; [exact Hsorted|].
        eapply Forall_impl; [exact Hle|]. intros r Hr. cbn in *. lia.
      * apply Forall_app. split; [|repeat constructor; cbn; lia].
        eapply Forall_impl; [exact Hle|]. intros r Hr. cbn in *. lia.
      * constructor; [cbn; lia|]. apply Forall_app.
        split; [|repeat constructor; cbn; lia].
        eapply Forall_impl; [exact Hle|]. intros r Hr. cbn in *. lia.
      * constructor; [cbn; lia|]. constructor; [cbn; lia|]. apply Forall_app.
        split; [|repeat constructor; cbn; lia].
        eapply Forall_impl; [exact Hle|]. intros r Hr. cbn in *. lia.
Qed.

(** ** The pipeline: progress *)

Lemma run_progress_after_clone cfg jobId repoUrl userId commit s o h workDir s0 t0 :
  exec (Git.cloneRepository cfg repoUrl jobId commit) s o h = ((Ok workDir, s0), t0) ->
  let res := exec (Pipeline.processEmbedding cfg jobId repoUrl userId commit) s o h in
  fst (fst res) = Ok tt ->
  exists middle,
    progress_reports jobId (snd res)
    = (JobModel.running, 0) :: middle ++ [(JobModel.succeeded, 100)]
    /\ Forall (fun r => fst r = JobModel.running /\ 0 <= snd r <= 100) middle
    /\ StronglySorted (fun a b => snd a <= snd b) (progress_reports jobId (snd res)).
Proof.
  intros Hclone res. subst res.
  pose proof (clone_trace cfg repoUrl jobId commit s o h jobId) as Hl0.
  rewrite Hclone in Hl0. cbn [snd] in Hl0.
  destruct (processEmbedding_after_clone cfg jobId repoUrl userId commit s o h
              workDir s0 t0 Hclone)
    as (r1 & s1 & t1 & res & tail & removal & logs & Hjob & -> & Hlogs & Hr1).
  pose proof (embedding_job_reports cfg jobId repoUrl userId workDir
                (Js.or_else commit "") s0 o (h ++ t0)) as Hreports.
  cbv zeta in Hreports. rewrite Hjob in Hreports. cbn [fst snd] in Hreports |- *.
  intros ->. destruct r1 as [[]|e1].
  2:{ destruct Hr1 as (reply & logs1 & _ & _ & Hres). discriminate Hres. }
  destruct Hr1 as [-> _]. specialize (Hreports eq_refl).
  apply (log_entries_obs _ jobId) in Hlogs as [Hlw _].
  assert (Heq : progress_reports jobId (t0 ++ t1 ++ [] ++ Entry (FsRm workDir) removal :: logs)
                = progress_reports jobId t1).
  { reports_norm. unfold progress_reports at 1 3. rewrite Hl0, Hlw. cbn [map app].
    now rewrite app_nil_r. }
  rewrite Heq. exact Hreports.
Qed.

(** C5: the progress values a run of [processEmbedding] that resolves has
    written to the ledger for its job, in every environment: the first
    update is [running] with progress 0, the last one is [succeeded] with
    progress exactly 100, every update in between is [running] with a
    progress between 0 and 100, and over the whole sequence no value is
    smaller than one written before it. *)
Theorem successful_run_progress cfg jobId repoUrl userId commit s o h :
  let res := exec (Pipeline.processEmbedding cfg jobId repoUrl userId commit) s o h in
  fst (fst res) = Ok tt ->
  exists middle,
    progress_reports jobId (snd res)
    = (JobModel.running, 0) :: middle ++ [(JobModel.succeeded, 100)]
    /\ Forall (fun r => fst r = JobModel.running /\ 0 <= snd r <= 100) middle
    /\ StronglySorted (fun a b => snd a <= snd b) (progress_reports jobId (snd res)).
Proof.
  intros res Hok.
  destruct (exec (Git.cloneRepository cfg repoUrl jobId commit) s o h)
    as [[[workDir|e] s0] t0] eqn:Hclone.
  - exact (run_progress_after_clone cfg jobId repoUrl userId commit s o h workDir s0 t0
             Hclone Hok).
  - subst res. unfold Pipeline.processEmbedding in Hok.
    rewrite exec_bind, Hclone in Hok. discriminate Hok.
Qed.

(** A repository with one source file of two lines, every service
    available: five updates, ending at 100. *)
Lemma successful_run_progress_witness :
  let res := exec (Pipeline.processEmbedding Scenario.cfg "job1"
                     "https://github.com/u/r.git" "u1" None)
               {| initialized := false |}
               (Scenario.world Scenario.nothing_fails Scenario.small_repo) [] in
  progress_reports "job1" (snd res)
  = [(JobModel.running, 0); (JobModel.running, 10); (JobModel.running, 30);
     (JobModel.running, 100); (JobModel.succeeded, 100)]
  /\ StronglySorted (fun a b => snd a <= snd b) (progress_reports "job1" (snd res)).
Proof.
  cbv zeta.
  destruct (successful_run_progress Scenario.cfg "job1" "https://github.com/u/r.git"
              "u1" None {| initialized := false |}
              (Scenario.world Scenario.nothing_fails Scenario.small_repo) [])
    as (middle & _ & _ & Hsorted).
  - vm_compute. reflexivity.
  - split; [vm_compute; reflexivity | exact Hsorted].
Defined.

(** ** The pipeline: embedding the chunks in batches *)

Lemma embedding_inputs_app t1 t2 :
  embedding_inputs (t1 ++ t2) = embedding_inputs t1 ++ embedding_inputs t2.
Proof. apply omap_app. Qed.

Lemma processChunk_spec chunk repoUrl userId commit s o h :
  let res := exec (Pipeline.processChunk chunk repoUrl userId commit) s o h in
  snd (fst res) = s
  /\ embedding_inputs (snd res) = [Chunker.content chunk]
  /\ forall v, fst (fst res) = Ok v ->
               Types.metadata v = metadata_of repoUrl userId commit chunk.
Proof.
  cbv zeta. unfold Pipeline.processChunk, OpenAI.generateEmbedding.
  rewrite exec_try_catch, exec_bind, exec_try_catch, exec_await.
  destruct (o _ h (CreateEmbedding (Chunker.content chunk))) as [embedding|e];
    cbn [after fst snd app]; exec_run; (split; [reflexivity|]);
    (split; [reflexivity|]); intros v Hv; [|discriminate Hv].
  injection Hv as <-. reflexivity.
Qed.

Lemma settle_all_processChunk_spec batch repoUrl userId commit s o h :
  let res := exec (settle_all
                     (map (fun chunk => Pipeline.processChunk chunk repoUrl userId commit)
                        batch)) s o h in
  snd (fst res) = s
  /\ embedding_inputs (snd res) = map Chunker.content batch
  /\ exists rs,
       fst (fst res) = Ok rs
       /\ Forall2 (fun r chunk =>
                     forall v, r = Ok v ->
                               Types.metadata v = metadata_of repoUrl userId commit chunk)
            rs batch.
Proof.
  cbv zeta. revert h. induction batch as [|chunk batch IH]; intros h; cbn [map settle_all].
  - rewrite exec_ret. cbn. repeat split. exists []. split; [reflexivity | constructor].
  - change (exec (bind ?m ?f)) with (exec (m ≫= f)).
    rewrite exec_bind, exec_settle.
    pose proof (processChunk_spec chunk repoUrl userId commit s o h) as H1.
    cbv zeta in H1.
    destruct (exec (Pipeline.processChunk chunk repoUrl userId commit) s o h)
      as [[r s1] t].
    cbn [fst snd] in H1. destruct H1 as (-> & Hin & Hr).
    cbn [after fst snd]. change (exec (bind ?m ?f)) with (exec (m ≫= f)).
    rewrite exec_bind. specialize (IH (h ++ t)).
    destruct (exec (settle_all _) s o (h ++ t)) as [[rs' s2] t'].
    cbn [fst snd] in IH. destruct IH as (-> & Hin' & rs & -> & Hrs).
    cbn [after fst snd]. rewrite exec_ret. unfold after. cbn [fst snd].
    rewrite app_nil_r, embedding_inputs_app, Hin, Hin'.
    split; [reflexivity|]. split; [reflexivity|].
    exists (r :: rs). split; [reflexivity | now constructor].
Qed.

Lemma collect_Forall2 {A B : Type} (R : A -> B -> Prop) (rs : list (outcome A))
    (ys : list B) (xs : list A) :
  Forall2 (fun r y => forall x, r = Ok x -> R x y) rs ys ->
  collect rs = Ok xs -> Forall2 R xs ys.
Proof.
  intros H. revert xs. induction H as [|r y rs ys Hr _ IH]; intros xs; cbn [collect].
  - intros Hx. injection Hx as <-. constructor.
  - destruct r as [x|e]; [|discriminate].
    destruct (collect rs) as [xs'|e]; [|discriminate].
    intros Hx. injection Hx as <-. constructor; [now apply Hr | now apply IH].
Qed.

Lemma promise_all_processChunk_spec batch repoUrl userId commit s o h :
  let res := exec (promise_all
                     (map (fun chunk => Pipeline.processChunk chunk repoUrl userId commit)
                        batch)) s o h in
  snd (fst res) = s
  /\ embedding_inputs (snd res) = map Chunker.content batch
  /\ forall vs, fst (fst res) = Ok vs ->
                map Types.metadata vs = map (metadata_of repoUrl userId commit) batch.
Proof.
  cbv zeta. unfold promise_all. change (exec (bind ?m ?f)) with (exec (m ≫= f)).
  rewrite exec_bind.
  pose proof (settle_all_processChunk_spec batch repoUrl userId commit s o h) as H1.
  cbv zeta in H1. destruct (exec (settle_all _) s o h) as [[rs' s1] t].
  cbn [fst snd] in H1. destruct H1 as (-> & Hin & rs & -> & Hrs).
  cbn [after fst snd].
  destruct (collect rs) as [xs|e] eqn:Hc.
  - rewrite exec_ret. unfold after. cbn [fst snd]. rewrite app_nil_r.
    split; [reflexivity|]. split; [exact Hin|].
    intros vs Hvs. injection Hvs as <-.
    pose proof (collect_Forall2 _ rs batch xs Hrs Hc) as H2.
    clear -H2. induction H2 as [|x y xs ys Hxy _ IH]; [reflexivity|].
    cbn [map]. now rewrite Hxy, IH.
  - rewrite exec_throw. unfold after. cbn [fst snd]. rewrite app_nil_r.
    split; [reflexivity|]. split; [exact Hin|]. discriminate.
Qed.

Lemma take_plus_drop {A : Type} (l : list A) (n m : nat) :
  take n l ++ take m (drop n l) = take (n + m) l.
Proof.
  revert l. induction n as [|n IH]; intros [|x l]; cbn [take drop app Nat.add];
    rewrite ?take_nil; [reflexivity..|].
  f_equal. apply IH.
Qed.

Lemma array_slice_min {A : Type} (xs : list A) (i n : nat) :
  Pinecone.array_slice xs i (Nat.min (i + n) (length xs)) = take n (drop i xs).
Proof.
  unfold Pinecone.array_slice.
  destruct (Nat.le_gt_cases (i + n) (length xs)) as [Hle|Hgt].
  - rewrite Nat.min_l by exact Hle. f_equal. lia.
  - rewrite Nat.min_r by lia. rewrite !take_ge; [reflexivity | | ];
      rewrite length_drop; lia.
Qed.

Lemma updateProgress_inputs jobId base current total s o h :
  embedding_inputs (snd (exec (Pipeline.updateProgress jobId base current total) s o h)) = []
  /\ snd (fst (exec (Pipeline.updateProgress jobId base current total) s o h)) = s.
Proof.
  rewrite exec_updateProgress. unfold Mongo.updateJobStatus. cbv zeta.
  rewrite exec_bind, exec_await.
  match goal with
  | |- context [o ?X ?hh (FindOneAndUpdate ?j ?u)] =>
      destruct (o X hh (FindOneAndUpdate j u)) as [[job|]|e]
  end; exec_run; split; reflexivity.
Qed.

Lemma processChunks_from_spec fuel chunks jobId repoUrl userId commit i acc s o h :
  let res := exec (Pipeline.processChunks_from fuel chunks jobId repoUrl userId commit
                     i acc) s o h in
  (exists j : nat,
      embedding_inputs (snd res)
      = map Chunker.content (take (j * Constants.BATCH_SIZE) (drop i chunks)))
  /\ forall vectors,
       fst (fst res) = Ok vectors ->
       (length chunks <= i + fuel * Constants.BATCH_SIZE)%nat ->
       exists rest,
         vectors = acc ++ rest
         /\ map Types.metadata rest
            = map (metadata_of repoUrl userId commit) (drop i chunks)
         /\ embedding_inputs (snd res) = map Chunker.content (drop i chunks).
Proof.
  cbv zeta. revert i acc s h.
  induction fuel as [|fuel IH]; intros i acc s h; cbn [Pipeline.processChunks_from].
  - rewrite exec_ret. cbn [fst snd]. split; [exists 0%nat; reflexivity|].
    intros vectors Hv Hlen. injection Hv as <-. exists [].
    rewrite drop_ge by lia. now rewrite app_nil_r.
  - destruct (i <? length chunks)%nat eqn:Hi.
    2:{ apply Nat.ltb_ge in Hi. rewrite exec_ret. cbn [fst snd].
        split; [exists 0%nat; reflexivity|].
        intros vectors Hv Hlen. injection Hv as <-. exists [].
        rewrite drop_ge by lia. now rewrite app_nil_r. }
    apply Nat.ltb_lt in Hi. cbv zeta. rewrite array_slice_min, exec_bind.
    pose proof (promise_all_processChunk_spec (take Constants.BATCH_SIZE (drop i chunks))
                  repoUrl userId commit s o h) as Hp.
    cbv zeta in Hp. destruct (exec (promise_all _) s o h) as [[r sp] t].
    cbn [fst snd] in Hp. destruct Hp as (-> & Hin & Hr).
    assert (Hsplit : drop i chunks
                     = take Constants.BATCH_SIZE (drop i chunks)
                       ++ drop (i + Constants.BATCH_SIZE) chunks).
    { rewrite <- drop_drop. symmetry. apply take_drop. }
    destruct r as [batchVectors|e]; cbn [after fst snd].
    2:{ split; [|discriminate]. exists 1%nat. rewrite Hin. reflexivity. }
    rewrite exec_bind.
    match goal with
    | |- context [exec (Pipeline.updateProgress ?j ?b ?c ?n) ?s1 o ?h1] =>
        destruct (updateProgress_inputs j b c n s1 o h1) as [Hu Hs];
        destruct (exec (Pipeline.updateProgress j b c n) s1 o h1) as [[ru su] tu]
    end.
    cbn [fst snd] in Hu, Hs. subst su.
    destruct ru as [[]|e]; cbn [after fst snd].
    2:{ split; [|discriminate]. exists 1%nat.
        rewrite embedding_inputs_app, Hin, Hu, app_nil_r. reflexivity. }
    match goal with
    | |- context [exec (Pipeline.processChunks_from fuel chunks jobId repoUrl userId commit
                          ?i' ?acc') s o ?h1] =>
        destruct (IH i' acc' s h1) as [[j Hj] Hok];
        destruct (exec (Pipeline.processChunks_from fuel chunks jobId repoUrl userId commit
                          i' acc') s o h1) as [[rl sl] tl]
    end.
    cbn [fst snd] in Hj, Hok |- *.
    rewrite !embedding_inputs_app, Hin, Hu. cbn [app]. split.
    + exists (S j). rewrite Hj, <- map_app, <- drop_drop. f_equal.
      apply take_plus_drop.
    + intros vectors Hv Hlen.
      destruct (Hok vectors Hv ltac:(lia)) as (rest & -> & Hmeta & Hinputs).
      exists (batchVectors ++ rest). split; [now rewrite app_assoc|].
      split.
      * now rewrite map_app, (Hr batchVectors eq_refl), Hmeta, <- map_app, <- Hsplit.
      * now rewrite Hinputs, <- map_app, <- Hsplit.
Qed.

(** What [processChunksInBatches] sends and returns. *)
Lemma processChunksInBatches_run chunks jobId repoUrl userId commit s o h :
  let res := exec (Pipeline.processChunksInBatches chunks jobId repoUrl userId commit)
               s o h in
  (exists j : nat,
      embedding_inputs (snd res)
      = map Chunker.content (take (j * Constants.BATCH_SIZE) chunks))
  /\ forall vectors,
       fst (fst res) = Ok vectors ->
       map Types.metadata vectors = map (metadata_of repoUrl userId commit) chunks
       /\ embedding_inputs (snd res) = map Chunker.content chunks.
Proof.
  cbv zeta. unfold Pipeline.processChunksInBatches.
  destruct (processChunks_from_spec (length chunks) chunks jobId repoUrl userId commit
              0 [] s o h) as [Hprefix Hok].
  cbv zeta in Hprefix, Hok. rewrite drop_0 in Hprefix. split; [exact Hprefix|].
  intros vectors Hv.
  destruct (Hok vectors Hv) as (rest & -> & Hmeta & Hin).
  { unfold Constants.BATCH_SIZE. lia. }
  rewrite drop_0 in Hmeta, Hin. now split.
Qed.

(** X4: [processChunksInBatches] asks for the embeddings in chunk order,
    batch by batch: whatever happens, the texts sent to the embedding
    service are the contents of the first [j] batches of chunks, for some
    [j] (every chunk of a batch is sent, also when an earlier chunk of the
    batch was rejected, and no chunk of a later batch is); and when it
    resolves, every chunk was sent exactly once, and it returns one vector
    per chunk, in chunk order, carrying the path, index and line range of
    its chunk and the repository, tenant and commit of the job. *)
Theorem processChunksInBatches_spec chunks jobId repoUrl userId commit s o h :
  let res := exec (Pipeline.processChunksInBatches chunks jobId repoUrl userId commit)
               s o h in
  (exists j : nat,
      embedding_inputs (snd res)
      = map Chunker.content (take (j * Constants.BATCH_SIZE) chunks))
  /\ forall vectors,
       fst (fst res) = Ok vectors ->
       map Types.metadata vectors = map (metadata_of repoUrl userId commit) chunks
       /\ embedding_inputs (snd res) = map Chunker.content chunks.
Proof. apply processChunksInBatches_run. Qed.

(** ** Calls and results of a program *)

Section Ensures.

Variable Q : forall X : Type, event X -> bool.

Lemma ensures_emits {A : Type} (p : P A) : emitsP Q p -> ensures Q (fun _ => True) p.
Proof. intros Hp s o h. split; [now apply emits_exec | trivial]. Qed.

Lemma ensures_ret {A : Type} (Post : A -> Prop) (a : A) : Post a -> ensures Q Post (mret a).
Proof.
  intros Ha s o h. rewrite exec_ret. cbn. split; [constructor|].
  intros a' Heq. now injection Heq as <-.
Qed.

Lemma ensures_weaken {A : Type} (Post Post' : A -> Prop) (p : P A) :
  (forall a, Post a -> Post' a) -> ensures Q Post p -> ensures Q Post' p.
Proof.
  intros Hpost Hp s o h. destruct (Hp s o h) as [Hc Hr]. split; [exact Hc|].
  intros a Ha. apply Hpost, Hr, Ha.
Qed.

Lemma ensures_bind {A B : Type} (PostA : A -> Prop) (PostB : B -> Prop)
    (m : P A) (f : A -> P B) :
  ensures Q PostA m -> (forall a, PostA a -> ensures Q PostB (f a)) ->
  ensures Q PostB (m ≫= f).
Proof.
  intros Hm Hf s o h. rewrite exec_bind. destruct (Hm s o h) as [Hc Hr].
  destruct (exec m s o h) as [[[a|e] s1] t1]; cbn [fst snd] in *.
  - destruct (Hf a (Hr a eq_refl) s1 o (h ++ t1)) as [Hc' Hr'].
    unfold after. cbn [fst snd]. split; [|exact Hr'].
    apply Forall_app. now split.
  - split; [exact Hc | discriminate].
Qed.

Lemma ensures_try_catch {A : Type} (Post : A -> Prop) (m : P A) (handler : exn -> P A) :
  ensures Q Post m -> (forall e, ensures Q Post (handler e)) ->
  ensures Q Post (try_catch m handler).
Proof.
  intros Hm Hh s o h. rewrite exec_try_catch. destruct (Hm s o h) as [Hc Hr].
  destruct (exec m s o h) as [[[a|e] s1] t1]; cbn [fst snd] in *.
  - split; [exact Hc | exact Hr].
  - destruct (Hh e s1 o (h ++ t1)) as [Hc' Hr'].
    unfold after. cbn [fst snd]. split; [|exact Hr'].
    apply Forall_app. now split.
Qed.

Lemma ensures_try_finally {A : Type} (Post : A -> Prop) (m : P A) (fin : P unit) :
  ensures Q Post m -> emitsP Q fin -> ensures Q Post (try_finally m fin).
Proof.
  intros Hm Hf s o h. rewrite exec_try_finally. destruct (Hm s o h) as [Hc Hr].
  destruct (exec m s o h) as [[r s1] t1]; cbn [fst snd] in *.
  pose proof (emits_exec Q fin s1 o (h ++ t1) Hf) as Hc'.
  destruct (exec fin s1 o (h ++ t1)) as [[[u|e] s2] t2]; unfold after;
    cbn [fst snd] in *; (split; [apply Forall_app; now split|]);
    [exact Hr | discriminate].
Qed.

End Ensures.

Lemma emitsP_for_each_In Q {A : Type} (xs : list A) (body : A -> P unit) :
  (forall x, In x xs -> emitsP Q (body x)) -> emitsP Q (for_each xs body).
Proof.
  induction xs as [|x xs IH]; intros Hb; cbn [for_each].
  - apply emitsP_ret.
  - apply (emitsP_bind Q (body x)); [apply Hb; now left|].
    intros _. apply IH. intros y Hy. apply Hb. now right.
Qed.

Lemma emitsP_ret_bind Q {A B : Type} (a : A) (f : A -> P B) :
  emitsP Q (f a) -> emitsP Q (mret a ≫= f).
Proof. intros H s. apply H. Qed.

Lemma emitsP_throw_bind Q {A B : Type} (e : exn) (f : A -> P B) :
  emitsP Q (throw e ≫= f).
Proof. intros s. constructor. Qed.

(** ** The adapter writes to the namespaces of the tenants it is given *)

Lemma upsert_batches_namespace Q fuel ns vs i :
  (forall X (e : event X), kind_of e = KLog -> Q X e = true) ->
  (forall batch, Q _ (NsUpsert ns batch) = true) ->
  emitsP Q (Pinecone.upsert_batches fuel ns vs i).
Proof.
  intros Hlog Hup. revert i.
  induction fuel as [|fuel IH]; intros i; cbn [Pinecone.upsert_batches];
    [apply emitsP_ret|].
  destruct (i <? length vs)%nat; [|apply emitsP_ret].
  apply emitsP_bind; [|intros _; apply IH].
  unfold Pinecone.processBatch. cbv zeta.
  apply emitsP_bind; [apply emitsP_await, Hup|].
  intros _. apply emitsP_perform, Hlog. reflexivity.
Qed.

Lemma upsert_own_namespace cfg vectors u :
  Forall (fun v => Types.userId (Types.metadata v) = u) vectors ->
  emitsP (own_namespace u) (Pinecone.upsert cfg vectors).
Proof.
  intros Hu. unfold Pinecone.upsert.
  destruct (length vectors =? 0)%nat; [emits_auto|].
  apply emitsP_bind.
  { eapply emits_weaken_P; [|apply ensureInitialized_emits].
    intros X e. destruct e; cbn; congruence. }
  intros _. apply emitsP_try_catch; [|intros e; emits_auto].
  destruct (Pinecone.group_by_user [] vectors) as [acc|e] eqn:Hg;
    [|apply emitsP_throw_bind].
  apply emitsP_ret_bind. apply emitsP_for_each_In. intros [k vs] Hin.
  apply (proj1 (entries_In _ _)) in Hin.
  destruct (group_by_user_partition vectors acc Hg) as [_ Hpart].
  apply (proj1 (Hpart _ _)) in Hin as [Hvs Hne]. rewrite Hvs in *. clear Hvs.
  assert (Hk : k = u).
  { destruct (of_tenant k vectors) as [|v rest] eqn:Hof; [congruence|].
    assert (Hv : In v (of_tenant k vectors)) by (rewrite Hof; now left).
    unfold of_tenant in Hv. apply list_elem_of_In, list_elem_of_filter in Hv as [Hvk Hv].
    rewrite Forall_forall in Hu. rewrite <- Hvk. now apply Hu. }
  subst k. unfold Pinecone.upsert_user.
  apply emitsP_bind; [now apply emitsP_perform|]. intros _.
  apply upsert_batches_namespace.
  - intros X e. destruct e; cbn; congruence.
  - intros batch. cbn. apply String.eqb_refl.
Qed.

(** ** The pipeline writes to the namespace of the tenant of the job *)

Lemma own_namespace_trace u t :
  Forall (satisfies (own_namespace u)) t ->
  Forall (fun rq => fst (fst rq) = Pinecone.getNamespaceForUser u) (upsert_requests t)
  /\ query_namespaces t = []
  /\ delete_requests t = [].
Proof.
  induction 1 as [|[X e r] t He _ (IH1 & IH2 & IH3)]; [repeat split; constructor|].
  unfold satisfies in He. cbn [entry_event] in He.
  destruct e; try discriminate He;
    unfold upsert_requests, query_namespaces, delete_requests in *; cbn;
    try (split; [exact IH1 | split; [exact IH2 | exact IH3]]).
  split; [|split; [exact IH2 | exact IH3]].
  constructor; [|exact IH1]. cbn in *. now apply String.eqb_eq.
Qed.

Lemma processChunksInBatches_ensures chunks jobId repoUrl userId commit :
  ensures (own_namespace userId)
    (Forall (fun v => Types.userId (Types.metadata v) = userId))
    (Pipeline.processChunksInBatches chunks jobId repoUrl userId commit).
Proof.
  intros s o h. split.
  - apply emits_exec. unfold Pipeline.processChunksInBatches.
    apply processChunks_from_emits; [|reflexivity].
    intros X e. destruct e; cbn; tauto.
  - intros vectors Hv.
    destruct (processChunksInBatches_run chunks jobId repoUrl userId commit s o h)
      as [_ Hok].
    destruct (Hok vectors Hv) as [Hmeta _].
    apply Forall_forall. intros v Hin.
    apply list_elem_of_In, (in_map Types.metadata) in Hin. rewrite Hmeta in Hin.
    apply in_map_iff in Hin as (chunk & <- & _). reflexivity.
Qed.

Lemma processEmbedding_ensures cfg jobId repoUrl userId commit :
  ensures (own_namespace userId) (fun _ => True)
    (Pipeline.processEmbedding cfg jobId repoUrl userId commit).
Proof.
  assert (Hlog : forall X (e : event X),
             kind_of e = KLog -> own_namespace userId X e = true)
    by (intros X e; destruct e; cbn; congruence).
  assert (Hupd : forall st p err,
             ensures (own_namespace userId) (fun _ => True)
               (Mongo.updateJobStatus jobId st p err)).
  { intros st p err. apply ensures_emits, updateJobStatus_emits; [exact Hlog | reflexivity]. }
  assert (Hl : forall lvl msg,
             ensures (own_namespace userId) (fun _ : unit => True) (log lvl msg)).
  { intros lvl msg. apply ensures_emits. now apply emitsP_perform. }
  unfold Pipeline.processEmbedding.
  eapply ensures_bind.
  { apply ensures_emits. eapply emits_weaken_P; [|apply cloneRepository_emits].
    intros X e. destruct e; cbn; congruence. }
  intros workDir _. cbv zeta.
  apply ensures_try_finally.
  2:{ eapply emits_weaken_P; [|apply cleanup_emits].
      intros X e. destruct e; cbn; congruence. }
  apply ensures_try_catch.
  2:{ intros e. apply ensures_emits. unfold Pipeline.job_failed.
      apply emitsP_bind; [now apply emitsP_perform|]. intros _.
      apply emitsP_bind; [|intros _; apply emitsP_throw].
      apply updateJobStatus_emits; [exact Hlog | reflexivity]. }
  unfold Pipeline.embedding_job.
  eapply ensures_bind; [apply Hupd|]. intros _ _.
  eapply ensures_bind; [apply Hl|]. intros _ _.
  eapply ensures_bind; [apply Hupd|]. intros _ _.
  eapply ensures_bind; [apply Hl|]. intros _ _.
  eapply ensures_bind.
  { apply ensures_emits. unfold Pipeline.walkAndChunk. emits_auto. }
  intros chunks _. destruct (length chunks =? 0)%nat.
  - eapply ensures_bind; [apply Hl|]. intros _ _.
    eapply ensures_bind; [apply Hupd|]. intros _ _. now apply ensures_ret.
  - eapply ensures_bind; [apply Hl|]. intros _ _.
    eapply ensures_bind; [apply Hupd|]. intros _ _.
    eapply ensures_bind; [apply processChunksInBatches_ensures|].
    intros vectors Hvectors.
    eapply ensures_bind.
    { apply ensures_emits. unfold Pipeline.upsertVectors.
      apply emitsP_try_catch; [|intros e; emits_auto].
      apply emitsP_bind; [now apply emitsP_perform|]. intros _.
      now apply upsert_own_namespace. }
    intros _ _. eapply ensures_bind; [apply Hupd|]. intros _ _. apply Hl.
Qed.

(** X5: Whatever the environment answers, a run of the pipeline for a job of
    tenant [userId] sends every upsert request to the namespace
    [user_<userId>], and neither queries nor empties any namespace. *)
Theorem job_writes_only_own_namespace cfg jobId repoUrl userId commit s o h :
  let t := snd (exec (Pipeline.processEmbedding cfg jobId repoUrl userId commit) s o h) in
  Forall (fun rq => fst (fst rq) = Pinecone.getNamespaceForUser userId) (upsert_requests t)
  /\ query_namespaces t = []
  /\ delete_requests t = [].
Proof.
  cbv zeta. apply own_namespace_trace.
  apply (processEmbedding_ensures cfg jobId repoUrl userId commit s o h).
Qed.

(** ** The vector-store adapter: connecting to an existing index *)

(** X6: When [init] requests no index creation (the index was listed, or the
    listing failed), it never waits and describes the index at most once;
    and when that description resolves, [init] goes by the dimension
    alone: a dimension other than 1536 makes it reject with the
    "has dimension" error and leaves the service as it was, while with the
    dimension 1536 it resolves with the service initialized, a metric other
    than cosine only being logged as a warning. *)
Theorem init_existing_index cfg s o h :
  let res := exec (Pinecone.init cfg) s o h in
  create_requests (snd res) = [] ->
  delays (snd res) = []
  /\ (length (describe_replies (snd res)) <= 1)%nat
  /\ forall description,
       describe_replies (snd res) = [Ok description] ->
       if dimension description =? Pinecone.INDEX_DIMENSION then
         fst (fst res) = Ok tt
         /\ initialized (snd (fst res)) = true
         /\ logged Lwarn (snd res)
            = if String.eqb (metric description) Pinecone.INDEX_METRIC then []
              else ["Existing index has different metric. Ensure this is intended."%string]
       else
         fst (fst res)
         = Err (Error ("Index " +:+ Config.indexName cfg +:+ " has dimension "
                       +:+ pretty (dimension description) +:+ ", expected "
                       +:+ pretty Pinecone.INDEX_DIMENSION))
         /\ snd (fst res) = s.
Proof.
  cbv zeta. remember (exec (Pinecone.init cfg) s o h) as res eqn:Hres. revert Hres.
  unfold Pinecone.init. cbv zeta.
  rewrite exec_try_catch, exec_bind, exec_await.
  destruct (o _ h ListIndexes) as [names | e]; cbn [after fst snd].
  2:{ exec_run. intros ->. obs_norm. cbn. intros _. split; [reflexivity|]. split; [lia|].
      discriminate. }
  destruct (existsb (String.eqb (Config.indexName cfg)) names); cbn [negb].
  - rewrite exec_bind, exec_bind, exec_log. cbn [after fst snd app].
    rewrite exec_bind, exec_await.
    match goal with
    | |- context [o ?X ?hh (DescribeIndex ?c)] =>
        destruct (o X hh (DescribeIndex c)) as [description | e]
    end; cbn [after fst snd app].
    2:{ exec_run. intros ->. obs_norm. cbn. intros _. split; [reflexivity|]. split; [lia|].
        discriminate. }
    unfold Pinecone.validateExistingIndex.
    destruct (dimension description =? Pinecone.INDEX_DIMENSION) eqn:Hdim;
      destruct (String.eqb (metric description) Pinecone.INDEX_METRIC) eqn:Hmetric;
      cbn [negb].
    all: exec_run.
    all: intros ->.
    all: obs_norm.
    all: cbn.
    all: intros _.
    all: (split; [reflexivity|]); (split; [lia|]).
    all: intros d Hd; injection Hd as <-; rewrite Hdim, ?Hmetric; repeat split.
  - rewrite exec_bind, exec_bind, exec_log. cbn [after fst snd app].
    rewrite exec_bind, exec_await.
    match goal with
    | |- context [o ?X ?hh (CreateIndex ?c)] => destruct (o X hh (CreateIndex c)) as [[] | e]
    end; cbn [after fst snd app].
    2:{ exec_run. intros ->. obs_norm. cbn. intros H. discriminate H. }
    match goal with
    | |- context [exec (Pinecone.waitForIndexReady ?i) ?s0 o ?hh] =>
        destruct (exec (Pinecone.waitForIndexReady i) s0 o hh) as [[[[]|e1] s1] t1]
    end; cbn [after fst snd app]; exec_run; intros ->; obs_norm; cbn; intros H; discriminate H.
Qed.

(** The index is listed and has the expected dimension and metric. *)
Lemma init_existing_index_witness :
  fst (fst (exec (Pinecone.init Scenario.cfg) {| initialized := false |}
              (Scenario.world Scenario.nothing_fails None) [])) = Ok tt
  /\ initialized
       (snd (fst (exec (Pinecone.init Scenario.cfg) {| initialized := false |}
                    (Scenario.world Scenario.nothing_fails None) []))) = true.
Proof.
  destruct (init_existing_index Scenario.cfg {| initialized := false |}
              (Scenario.world Scenario.nothing_fails None) [] eq_refl)
    as (_ & _ & Hdescribed).
  destruct (Hdescribed Scenario.ready_index eq_refl) as (Hres & Hinit & _).
  split; [exact Hres | exact Hinit].
Defined.

(** ** The vector-store adapter: queries, deletions and the health check *)

Lemma provisioning_obs t :
  Forall (satisfies provisioning_call) t ->
  upsert_requests t = [] /\ query_replies t = [] /\ delete_requests t = []
  /\ stats_replies t = [].
Proof.
  induction 1 as [|[X e r] t He _ (IH1 & IH2 & IH3 & IH4)]; [repeat split|].
  unfold satisfies in He. cbn [entry_event] in He.
  destruct e; try discriminate He;
    unfold upsert_requests, query_replies, delete_requests, stats_replies in *; cbn;
    auto.
Qed.

Lemma query_replies_app t1 t2 :
  query_replies (t1 ++ t2) = query_replies t1 ++ query_replies t2.
Proof. apply omap_app. Qed.

Lemma delete_requests_app t1 t2 :
  delete_requests (t1 ++ t2) = delete_requests t1 ++ delete_requests t2.
Proof. apply omap_app. Qed.

Lemma stats_replies_app t1 t2 :
  stats_replies (t1 ++ t2) = stats_replies t1 ++ stats_replies t2.
Proof. apply omap_app. Qed.

(** Split a conjunction of observations on a computed trace and close
    the parts that hold by computation. *)
Ltac obs_close :=
  repeat match goal with |- _ /\ _ => split | |- _ <-> _ => split end;
  try solve [ reflexivity | lia | discriminate | assumption
            | repeat constructor | congruence
            | intros; discriminate | intros; congruence ].

(** The service goes through [ensureInitialized] first: [t1] are the
    calls it made. *)
Ltac after_ensureInitialized cfg :=
  rewrite exec_bind;
  match goal with
  | |- context [exec (Pinecone.ensureInitialized cfg) ?s ?o ?h] =>
      let Hinit := fresh "Hinit" in
      pose proof (ensureInitialized_spec cfg s o h) as Hinit; cbv zeta in Hinit;
      let r1 := fresh "r1" in
      let s1 := fresh "s1" in
      let t1 := fresh "t1" in
      destruct (exec (Pinecone.ensureInitialized cfg) s o h) as [[r1 s1] t1];
      cbn [fst snd] in Hinit;
      let Hprov := fresh "Hprov" in
      let Hok := fresh "Hok" in
      let Herr := fresh "Herr" in
      destruct Hinit as (Hprov & Hok & Herr);
      apply provisioning_obs in Hprov;
      let Hu := fresh "Hu" in
      let Hq := fresh "Hq" in
      let Hd := fresh "Hd" in
      let Hs := fresh "Hs" in
      destruct Hprov as (Hu & Hq & Hd & Hs);
      destruct r1 as [[]|?]; cbn [after fst snd];
      [specialize (Hok tt eq_refl) | specialize (Herr _ eq_refl)]
  end.

(** X7: [query] sends at most one query, to the namespace of the tenant it is
    given; when it resolves, that one query was sent, the service is
    initialized, and the matches returned are the ones the namespace
    answered; when the request is rejected, [query] rejects with its
    error; when the service is still not initialized afterwards, no query
    was sent.  It never writes to or empties a namespace. *)
Theorem query_spec cfg vector userId topK filters s o h :
  let res := exec (Pinecone.query cfg vector userId topK filters) s o h in
  (length (query_replies (snd res)) <= 1)%nat
  /\ Forall (fun q => fst q = Pinecone.getNamespaceForUser userId) (query_replies (snd res))
  /\ (forall matches,
        fst (fst res) = Ok matches ->
        query_replies (snd res) = [(Pinecone.getNamespaceForUser userId, Ok matches)]
        /\ initialized (snd (fst res)) = true)
  /\ (forall ns e, In (ns, Err e) (query_replies (snd res)) -> fst (fst res) = Err e)
  /\ (initialized (snd (fst res)) = false -> query_replies (snd res) = [])
  /\ upsert_requests (snd res) = []
  /\ delete_requests (snd res) = [].
Proof.
  cbv zeta. unfold Pinecone.query. after_ensureInitialized cfg.
  2:{ rewrite Hu, Hq, Hd. cbn. obs_close. }
  cbv zeta. rewrite exec_try_catch, exec_await.
  match goal with
  | |- context [o ?X ?hh (NsQuery ?ns ?a ?b ?c)] =>
      destruct (o X hh (NsQuery ns a b c)) as [matches|e]
  end; exec_run; rewrite !upsert_requests_app, !query_replies_app, !delete_requests_app,
                   Hu, Hq, Hd; cbn.
  - obs_close.
    + intros m Hm. now injection Hm as <-.
    + intros ns e [Hin|[]]. discriminate Hin.
  - obs_close. intros ns e0 [Hin|[]]. now injection Hin as _ <-.
Qed.

(** X8: [deleteUserVectors] asks at most once for a namespace to be emptied,
    and only the namespace of the tenant it is given; it resolves exactly
    when that request was made and accepted; it never writes to or queries
    a namespace. *)
Theorem deleteUserVectors_spec cfg userId s o h :
  let res := exec (Pinecone.deleteUserVectors cfg userId) s o h in
  (length (delete_requests (snd res)) <= 1)%nat
  /\ Forall (fun d => fst d = Pinecone.getNamespaceForUser userId)
       (delete_requests (snd res))
  /\ (fst (fst res) = Ok tt
      <-> delete_requests (snd res) = [(Pinecone.getNamespaceForUser userId, true)])
  /\ upsert_requests (snd res) = []
  /\ query_replies (snd res) = [].
Proof.
  cbv zeta. unfold Pinecone.deleteUserVectors. after_ensureInitialized cfg.
  2:{ rewrite Hu, Hq, Hd. cbn. obs_close. }
  cbv zeta. rewrite exec_try_catch, exec_bind, exec_await.
  match goal with
  | |- context [o ?X ?hh (NsDeleteAll ?ns)] => destruct (o X hh (NsDeleteAll ns)) as [[]|e]
  end; exec_run; rewrite !upsert_requests_app, !query_replies_app, !delete_requests_app,
                   Hu, Hq, Hd; cbn; obs_close.
Qed.

Lemma isHealthy_cases cfg s o h :
  let res := exec (Pinecone.isHealthy cfg) s o h in
  exists healthy,
    fst (fst res) = Ok healthy
    /\ (healthy = true <-> stats_replies (snd res) = [true])
    /\ (healthy = true -> initialized (snd (fst res)) = true)
    /\ upsert_requests (snd res) = []
    /\ query_replies (snd res) = []
    /\ delete_requests (snd res) = [].
Proof.
  cbv zeta. unfold Pinecone.isHealthy. rewrite exec_try_catch.
  after_ensureInitialized cfg.
  2:{ exec_run. exists false.
      rewrite !upsert_requests_app, !query_replies_app, !delete_requests_app,
        !stats_replies_app, Hu, Hq, Hd, Hs. cbn. obs_close. }
  rewrite exec_bind, exec_await.
  match goal with
  | |- context [o ?X ?hh DescribeIndexStats] => destruct (o X hh DescribeIndexStats) as [[]|e]
  end; cbn [after fst snd app]; exec_run; [exists true | exists false];
    rewrite !upsert_requests_app, !query_replies_app, !delete_requests_app,
      !stats_replies_app, Hu, Hq, Hd, Hs; cbn; obs_close.
Qed.

(** X9: [isHealthy] never rejects: it resolves to [true] exactly when
    [describeIndexStats] was called once and resolved (which happens only
    on an initialized service), and to [false] otherwise; it never writes
    to, queries or empties a namespace. *)
Theorem isHealthy_never_rejects cfg s o h :
  let res := exec (Pinecone.isHealthy cfg) s o h in
  exists healthy,
    fst (fst res) = Ok healthy
    /\ (healthy = true <-> stats_replies (snd res) = [true])
    /\ (healthy = true -> initialized (snd (fst res)) = true)
    /\ upsert_requests (snd res) = []
    /\ query_replies (snd res) = []
    /\ delete_requests (snd res) = [].
Proof. apply isHealthy_cases. Qed.

(** ** The vector-store adapter: the size of a request *)

Lemma upsert_batches_sized fuel ns vs i :
  emitsP batch_sized (Pinecone.upsert_batches fuel ns vs i).
Proof.
  revert i. induction fuel as [|fuel IH]; intros i; cbn [Pinecone.upsert_batches];
    [apply emitsP_ret|].
  destruct (i <? length vs)%nat eqn:Hi; [|apply emitsP_ret].
  apply Nat.ltb_lt in Hi.
  apply emitsP_bind; [|intros _; apply IH].
  unfold Pinecone.processBatch. cbv zeta.
  apply emitsP_bind; [|intros _; now apply emitsP_perform].
  apply emitsP_await. cbn [batch_sized].
  rewrite length_map. unfold Pinecone.array_slice.
  rewrite length_take, length_drop. unfold Pinecone.BATCH_SIZE.
  apply andb_true_intro. split; [apply Nat.leb_le | apply Nat.leb_le]; lia.
Qed.

(** X11: Every upsert request [upsert] sends carries at least one vector and
    at most 40. *)
Theorem upsert_batch_sizes cfg vectors s o h :
  Forall (fun rq => (1 <= length (snd (fst rq)) <= 40)%nat)
    (upsert_requests (snd (exec (Pinecone.upsert cfg vectors) s o h))).
Proof.
  assert (Hcalls : emitsP batch_sized (Pinecone.upsert cfg vectors)).
  { unfold Pinecone.upsert. destruct (length vectors =? 0)%nat; [emits_auto|].
    apply emitsP_bind.
    { eapply emits_weaken_P; [|apply ensureInitialized_emits].
      intros X e. destruct e; cbn; congruence. }
    intros _. apply emitsP_try_catch; [|intros e; emits_auto].
    apply emitsP_bind; [destruct (Pinecone.group_by_user [] vectors); emits_auto|].
    intros acc. apply emitsP_for_each. intros [u vs]. unfold Pinecone.upsert_user.
    apply emitsP_bind; [now apply emitsP_perform|]. intros _.
    apply upsert_batches_sized. }
  pose proof (emits_exec _ _ s o h Hcalls) as Ht.
  induction Ht as [|[X e r] t He _ IH]; [constructor|].
  unfold satisfies in He. cbn [entry_event] in He.
  destruct e; try discriminate He; unfold upsert_requests in *;
    cbn [omap list_omap upsert_request]; try exact IH.
  constructor; [|exact IH]. cbn [fst snd]. unfold batch_sized in He.
  apply andb_prop in He as [H1 H2]. apply Nat.leb_le in H1, H2.
  unfold Pinecone.BATCH_SIZE in H2. lia.
Qed.

(** ** The vector-store adapter: a rejected request *)

Lemma stops_at_rejection_app {A B : Type} rqs1 rqs2 (r2 : outcome B) :
  stops_at_rejection rqs1 (Ok tt) -> stops_at_rejection rqs2 r2 ->
  stops_at_rejection (A := B) (rqs1 ++ rqs2) r2.
Proof.
  intros [H1 | (b & ns & batch & e & _ & _ & He)]; [|discriminate He].
  intros [H2 | (b & ns & batch & e & -> & Hb & ->)].
  - left. apply Forall_app. now split.
  - right. exists (rqs1 ++ b), ns, batch, e. rewrite app_assoc.
    split; [reflexivity|]. split; [apply Forall_app; now split | reflexivity].
Qed.

Lemma stops_at_rejection_nil {A : Type} (r : outcome A) : stops_at_rejection [] r.
Proof. left. constructor. Qed.

Lemma upsert_batches_stops fuel ns vs i s o h :
  let res := exec (Pinecone.upsert_batches fuel ns vs i) s o h in
  stops_at_rejection (upsert_requests (snd res)) (fst (fst res)).
Proof.
  cbv zeta. revert i h. induction fuel as [|fuel IH]; intros i h;
    cbn [Pinecone.upsert_batches]; [rewrite exec_ret; apply stops_at_rejection_nil|].
  destruct (i <? length vs)%nat; [|rewrite exec_ret; apply stops_at_rejection_nil].
  rewrite exec_bind. unfold Pinecone.processBatch. cbv zeta.
  rewrite exec_bind, exec_await.
  match goal with
  | |- context [o ?X ?hh (NsUpsert ?n ?b)] => destruct (o X hh (NsUpsert n b)) as [[]|e]
  end; cbn [after fst snd app].
  - rewrite exec_log. cbn [after fst snd app].
    match goal with
    | |- context [exec (Pinecone.upsert_batches fuel ns vs ?i') s o ?h'] =>
        specialize (IH i' h');
        destruct (exec (Pinecone.upsert_batches fuel ns vs i') s o h') as [[r1 s1] t1]
    end.
    cbn [after fst snd] in *.
    match goal with
    | |- stops_at_rejection (upsert_requests (?a :: ?b :: t1)) _ =>
        change (a :: b :: t1) with ([a; b] ++ t1)
    end.
    rewrite upsert_requests_app.
    apply (stops_at_rejection_app (A := unit)); [|exact IH].
    left. repeat constructor.
  - right. eexists [], _, _, e. cbn. repeat split. constructor.
Qed.

Lemma for_each_upsert_user_stops entries s o h :
  let res := exec (for_each entries Pinecone.upsert_user) s o h in
  stops_at_rejection (upsert_requests (snd res)) (fst (fst res)).
Proof.
  cbv zeta. revert s h. induction entries as [|[u vs] entries IH]; intros s h;
    cbn [for_each]; [rewrite exec_ret; apply stops_at_rejection_nil|].
  change (exec (bind ?m ?f)) with (exec (m ≫= f)).
  rewrite exec_bind, exec_upsert_user.
  match goal with
  | |- context [exec (Pinecone.upsert_batches ?f ?ns vs ?i) s o ?h'] =>
      pose proof (upsert_batches_stops f ns vs i s o h') as Hb; cbv zeta in Hb;
      destruct (exec (Pinecone.upsert_batches f ns vs i) s o h') as [[[[]|e] s1] t1]
  end; cbn [after fst snd app] in *.
  - match goal with
    | |- context [exec (for_each entries Pinecone.upsert_user) s1 o ?h'] =>
        specialize (IH s1 h');
        destruct (exec (for_each entries Pinecone.upsert_user) s1 o h') as [[r2 s2] t2]
    end.
    cbn [after fst snd] in *.
    match goal with
    | |- stops_at_rejection (upsert_requests (?a :: t1 ++ t2)) _ =>
        change (a :: t1 ++ t2) with (([a] ++ t1) ++ t2)
    end.
    rewrite upsert_requests_app.
    apply (stops_at_rejection_app (A := unit)); [|exact IH].
    rewrite upsert_requests_app. exact Hb.
  - match goal with
    | |- stops_at_rejection (upsert_requests (?a :: t1)) _ =>
        change (a :: t1) with ([a] ++ t1)
    end.
    rewrite upsert_requests_app. cbn [app].
    destruct Hb as [Hb | (b & ns & batch & e' & Hrq & Hb & He)]; [now left|].
    right. exists b, ns, batch, e. split; [exact Hrq|]. now split.
Qed.

(** X12: [upsert] stops at the first upsert request that is rejected: in the
    requests it sends, only the last one can have been rejected, and when
    it was, [upsert] rejects; the batches that were to follow, of the
    same tenant and of the tenants after it, are not sent. *)
Theorem upsert_stops_at_first_rejection cfg vectors s o h :
  let res := exec (Pinecone.upsert cfg vectors) s o h in
  Forall (fun rq => snd rq = true) (upsert_requests (snd res))
  \/ exists before ns batch e,
       upsert_requests (snd res) = before ++ [(ns, batch, false)]
       /\ Forall (fun rq => snd rq = true) before
       /\ fst (fst res) = Err e.
Proof.
  cbv zeta. change (stops_at_rejection
                      (upsert_requests (snd (exec (Pinecone.upsert cfg vectors) s o h)))
                      (fst (fst (exec (Pinecone.upsert cfg vectors) s o h)))).
  unfold Pinecone.upsert.
  destruct (length vectors =? 0)%nat; [rewrite exec_log; left; constructor|].
  after_ensureInitialized cfg; [|left; rewrite Hu; constructor].
  rewrite exec_try_catch.
  destruct (Pinecone.group_by_user [] vectors) as [acc|e].
  2:{ exec_run. rewrite upsert_requests_app, Hu. left. constructor. }
  rewrite exec_bind, exec_ret. cbn [after fst snd app].
  match goal with
  | |- context [exec (for_each (JsObject.entries acc) Pinecone.upsert_user) s1 o ?h'] =>
      pose proof (for_each_upsert_user_stops (JsObject.entries acc) s1 o h') as Hf;
      cbv zeta in Hf;
      destruct (exec (for_each (JsObject.entries acc) Pinecone.upsert_user) s1 o h')
        as [[[[]|e] s2] t2]
  end; cbn [after fst snd app] in *.
  - rewrite upsert_requests_app, Hu. exact Hf.
  - exec_run. rewrite !upsert_requests_app, Hu. cbn [app].
    change (upsert_requests [_]) with (@nil (string * list Types.Vector * bool)).
    rewrite app_nil_r.
    destruct Hf as [Hf | (b & ns & batch & e' & Hrq & Hb & He)]; [now left|].
    right. exists b, ns, batch, e. split; [exact Hrq|]. now split.
Qed.

(** ** The vector-store adapter: tenant identifiers that name a property
    of [Object.prototype] *)

Lemma group_by_user_prototype acc vectors :
  Forall (fun k => Js.includes JsObject.prototype_keys k = false) (map fst acc) ->
  Exists (fun v => Js.includes JsObject.prototype_keys
                     (Types.userId (Types.metadata v)) = true) vectors ->
  exists e, Pinecone.group_by_user acc vectors = Err e.
Proof.
  intros Hacc Hex. revert acc Hacc.
  induction Hex as [v vectors Hv | v vectors _ IH]; intros acc Hacc;
    cbn [Pinecone.group_by_user]; unfold Pinecone.group_step; cbv zeta.
  - destruct (JsObject.own acc (Types.userId (Types.metadata v))) as [vs|] eqn:Hown.
    + exfalso. apply own_In in Hown.
      apply (in_map fst) in Hown. cbn [fst] in Hown.
      rewrite List.Forall_forall in Hacc. specialize (Hacc _ Hown). congruence.
    + rewrite Hv. eexists. reflexivity.
  - destruct (JsObject.own acc (Types.userId (Types.metadata v))) as [vs|] eqn:Hown.
    + apply IH. now rewrite keys_assign.
    + destruct (Js.includes JsObject.prototype_keys (Types.userId (Types.metadata v)))
        eqn:Hk; [eexists; reflexivity|].
      apply IH. rewrite map_app. apply Forall_app. split; [exact Hacc|].
      repeat constructor. exact Hk.
Qed.

(** X13: The grouping object is a plain [{}]: for a vector whose [userId] is
    the name of a property every object inherits ("constructor",
    "toString", "__proto__", ...), [acc[userId]] is not an array, the
    grouping throws, and [upsert] rejects without having sent any upsert
    request, also for the vectors of the other tenants of the call. *)
Theorem upsert_prototype_userId cfg vectors v s o h :
  In v vectors ->
  Js.includes JsObject.prototype_keys (Types.userId (Types.metadata v)) = true ->
  let res := exec (Pinecone.upsert cfg vectors) s o h in
  upsert_requests (snd res) = [] /\ exists e, fst (fst res) = Err e.
Proof.
  intros Hin Hv. cbv zeta.
  destruct (group_by_user_prototype [] vectors) as [e He]; [constructor| |].
  { apply Exists_exists. exists v. split; [now apply list_elem_of_In | exact Hv]. }
  unfold Pinecone.upsert.
  destruct (length vectors =? 0)%nat eqn:Hlen.
  { destruct vectors; [destruct Hin | discriminate Hlen]. }
  after_ensureInitialized cfg; [|split; [exact Hu | eauto]].
  rewrite He. exec_run. rewrite !upsert_requests_app, Hu. cbn. split; eauto.
Qed.

(** A vector of tenant "constructor" among the vectors of tenant "u1". *)
Lemma upsert_prototype_userId_witness :
  let bad :=
    {| Types.id := "b"; Types.values := [];
       Types.metadata :=
         {| Types.repoUrl := "r"; Types.filePath := "g"; Types.chunkIndex := 0;
            Types.commit := None; Types.userId := "constructor";
            Types.startLine := 1; Types.endLine := 9 |} |} in
  let good :=
    {| Types.id := "a"; Types.values := [];
       Types.metadata :=
         {| Types.repoUrl := "r"; Types.filePath := "f"; Types.chunkIndex := 0;
            Types.commit := None; Types.userId := "u1";
            Types.startLine := 1; Types.endLine := 2 |} |} in
  upsert_requests
    (snd (exec (Pinecone.upsert Scenario.cfg [good; bad]) {| initialized := true |}
            (Scenario.world Scenario.nothing_fails None) [])) = [].
Proof.
  intros bad good.
  destruct (upsert_prototype_userId Scenario.cfg [good; bad] bad {| initialized := true |}
              (Scenario.world Scenario.nothing_fails None) [])
    as [Hnone _].
  - right. left. reflexivity.
  - reflexivity.
  - exact Hnone.
Defined.

(** ** The vector-store adapter: an initialized service *)

Lemma exec_ensureInitialized_done cfg s o h :
  initialized s = true ->
  exec (Pinecone.ensureInitialized cfg) s o h = ((Ok tt, s), []).
Proof.
  intros Hs. unfold Pinecone.ensureInitialized.
  rewrite exec_bind, exec_get_initialized. cbn [after fst snd app]. rewrite Hs.
  cbn [negb]. now rewrite exec_ret.
Qed.

Lemma upsert_batches_no_provisioning fuel ns vs i :
  emitsP no_provisioning (Pinecone.upsert_batches fuel ns vs i).
Proof.
  apply upsert_batches_namespace; [|reflexivity].
  intros X e. destruct e; cbn; congruence.
Qed.

(** X14: Once the service is initialized it stays so, and [upsert], [query],
    [deleteUserVectors] and [isHealthy] no longer list, create or describe
    an index, nor wait. *)
Theorem initialized_is_stable cfg s :
  initialized s = true ->
  (forall vectors o h,
      let res := exec (Pinecone.upsert cfg vectors) s o h in
      snd (fst res) = s /\ Forall (satisfies no_provisioning) (snd res))
  /\ (forall vector userId topK filters o h,
        let res := exec (Pinecone.query cfg vector userId topK filters) s o h in
        snd (fst res) = s /\ Forall (satisfies no_provisioning) (snd res))
  /\ (forall userId o h,
        let res := exec (Pinecone.deleteUserVectors cfg userId) s o h in
        snd (fst res) = s /\ Forall (satisfies no_provisioning) (snd res))
  /\ (forall o h,
        let res := exec (Pinecone.isHealthy cfg) s o h in
        snd (fst res) = s /\ Forall (satisfies no_provisioning) (snd res)).
Proof.
  intros Hs. split; [|split; [|split]].
  - intros vectors o h. cbv zeta. unfold Pinecone.upsert.
    destruct (length vectors =? 0)%nat.
    { rewrite exec_log. cbn. split; [reflexivity | repeat constructor]. }
    rewrite exec_bind, exec_ensureInitialized_done by exact Hs.
    cbn [after fst snd app]. rewrite exec_try_catch.
    destruct (Pinecone.group_by_user [] vectors) as [acc|e].
    2:{ exec_run. cbn. split; [reflexivity | repeat constructor]. }
    rewrite exec_bind, exec_ret. cbn [after fst snd app].
    match goal with
    | |- context [exec (for_each ?es Pinecone.upsert_user) s o ?h'] =>
        pose proof (for_each_upsert_user_spec es s o h') as (Hst & _);
        pose proof (emits_exec no_provisioning (for_each es Pinecone.upsert_user) s o h')
          as Hcalls;
        destruct (exec (for_each es Pinecone.upsert_user) s o h') as [[[[]|e] s1] t1]
    end; cbn [after fst snd app] in *; subst s1.
    + split; [reflexivity|]. apply Hcalls.
      apply emitsP_for_each. intros [u vs]. unfold Pinecone.upsert_user.
      apply emitsP_bind; [now apply emitsP_perform|]. intros _.
      apply upsert_batches_no_provisioning.
    + exec_run. split; [reflexivity|]. apply Forall_app. split; [|repeat constructor].
      apply Hcalls.
      apply emitsP_for_each. intros [u vs]. unfold Pinecone.upsert_user.
      apply emitsP_bind; [now apply emitsP_perform|]. intros _.
      apply upsert_batches_no_provisioning.
  - intros vector userId topK filters o h. cbv zeta. unfold Pinecone.query.
    rewrite exec_bind, exec_ensureInitialized_done by exact Hs.
    cbn [after fst snd app]. cbv zeta. rewrite exec_try_catch, exec_await.
    match goal with
    | |- context [o ?X ?hh (NsQuery ?ns ?a ?b ?c)] => destruct (o X hh (NsQuery ns a b c))
    end; exec_run; (split; [reflexivity | repeat constructor]).
  - intros userId o h. cbv zeta. unfold Pinecone.deleteUserVectors.
    rewrite exec_bind, exec_ensureInitialized_done by exact Hs.
    cbn [after fst snd app]. cbv zeta. rewrite exec_try_catch, exec_bind, exec_await.
    match goal with
    | |- context [o ?X ?hh (NsDeleteAll ?ns)] => destruct (o X hh (NsDeleteAll ns)) as [[]|e]
    end; cbn [after fst snd app]; exec_run; (split; [reflexivity | repeat constructor]).
  - intros o h. cbv zeta. unfold Pinecone.isHealthy.
    rewrite exec_try_catch, exec_bind, exec_ensureInitialized_done by exact Hs.
    cbn [after fst snd app]. rewrite exec_bind, exec_await.
    match goal with
    | |- context [o ?X ?hh DescribeIndexStats] => destruct (o X hh DescribeIndexStats) as [[]|e]
    end; cbn [after fst snd app]; exec_run; (split; [reflexivity | repeat constructor]).
Qed.

(** An initialized service asked for a query. *)
Lemma initialized_is_stable_witness :
  snd (fst (exec (Pinecone.query Scenario.cfg [] "u1" 5 []) {| initialized := true |}
              (Scenario.world Scenario.nothing_fails None) []))
  = {| initialized := true |}
  /\ Forall (satisfies no_provisioning)
       (snd (exec (Pinecone.query Scenario.cfg [] "u1" 5 []) {| initialized := true |}
               (Scenario.world Scenario.nothing_fails None) [])).
Proof.
  destruct (initialized_is_stable Scenario.cfg {| initialized := true |} eq_refl)
    as (_ & Hquery & _).
  exact (Hquery [] "u1"%string 5 [] (Scenario.world Scenario.nothing_fails None) []).
Defined.

(** ** The earlier revision of the adapter: one namespace for all *)

Lemma legacy_wait_loop_emits n retries indexName :
  emitsP provisioning_call (PineconeLegacy.wait_loop n retries indexName).
Proof.
  revert retries. induction n as [|n IH]; intros retries; cbn [PineconeLegacy.wait_loop];
    [apply emitsP_ret|].
  apply emitsP_bind; [apply poll_emits|]. intros [|]; [apply emitsP_ret|].
  apply emitsP_bind; [now apply emitsP_perform|]. intros _.
  apply emitsP_bind; [now apply emitsP_perform|]. intros _. apply IH.
Qed.

Lemma legacy_init_emits cfg : emitsP provisioning_call (PineconeLegacy.init cfg).
Proof.
  unfold PineconeLegacy.init. cbv zeta.
  apply emitsP_try_catch; [|intros e; emits_auto].
  apply emitsP_bind; [now apply emitsP_await|]. intros indexes.
  apply emitsP_bind; [|intros _; emits_auto].
  destruct (negb _).
  - apply emitsP_bind; [now apply emitsP_perform|]. intros _.
    apply emitsP_bind; [now apply emitsP_await|]. intros _.
    apply emitsP_bind; [apply legacy_wait_loop_emits|]. intros retries. emits_auto.
  - emits_auto.
Qed.

Lemma legacy_upsert_batches_spec fuel vs i s o h :
  let res := exec (PineconeLegacy.upsert_batches fuel vs i) s o h in
  Forall (fun rq => fst (fst rq) = PineconeLegacy.default_namespace
                    /\ (1 <= length (snd (fst rq)) <= 40)%nat)
    (upsert_requests (snd res))
  /\ (forall x, fst (fst res) = Ok x -> (length vs <= i + fuel * 40)%nat ->
      concat (map (fun rq => snd (fst rq)) (upsert_requests (snd res)))
      = map Pinecone.normalize (drop i vs)).
Proof.
  cbv zeta. revert i h. induction fuel as [|fuel IH]; intros i h;
    cbn [PineconeLegacy.upsert_batches].
  - rewrite exec_ret. cbn. split; [constructor|]. intros _ _ Hlen.
    now rewrite drop_ge by lia.
  - destruct (i <? length vs)%nat eqn:Hi.
    2:{ apply Nat.ltb_ge in Hi. rewrite exec_ret. cbn. split; [constructor|].
        intros _ _ _. now rewrite drop_ge by lia. }
    apply Nat.ltb_lt in Hi. cbv zeta. rewrite exec_bind, exec_await.
    assert (Hbatch : (1 <= length (map Pinecone.normalize
                                     (Pinecone.array_slice vs i (i + 40))) <= 40)%nat).
    { rewrite length_map. unfold Pinecone.array_slice.
      rewrite length_take, length_drop. lia. }
    match goal with
    | |- context [o ?X ?hh (NsUpsert ?n ?b)] => destruct (o X hh (NsUpsert n b)) as [[]|e]
    end; cbn [after fst snd app].
    2:{ obs_norm. cbn [concat map fst snd app].
        split; [constructor; [split; [reflexivity | exact Hbatch] | constructor]|].
        intros x Hx. discriminate Hx. }
    rewrite exec_bind, exec_log. cbn [after fst snd app].
    match goal with
    | |- context [exec (PineconeLegacy.upsert_batches fuel vs ?i') s o ?h'] =>
        destruct (IH i' h') as [Hall Hok];
        destruct (exec (PineconeLegacy.upsert_batches fuel vs i') s o h') as [[r1 s1] t1]
    end.
    cbn [after fst snd] in *. obs_norm. cbn [concat map fst snd app].
    split; [constructor; [split; [reflexivity | exact Hbatch] | exact Hall]|].
    intros x Hx Hlen. rewrite (Hok x Hx) by lia.
    rewrite <- map_app. f_equal. unfold Pinecone.array_slice.
    replace (i + 40 - i)%nat with 40%nat by lia.
    rewrite <- drop_drop. apply take_drop.
Qed.

(** The earlier revision of [upsert]: every request goes to the default
    namespace, in batches of 1 to 40 vectors; when it resolves, the
    batches sent are the input in order (with [commit] normalised); on a
    service that is not initialized the first call to Pinecone is the
    listing of the indexes. *)
Lemma legacy_upsert_spec cfg vectors s o h :
  let res := exec (PineconeLegacy.upsert cfg vectors) s o h in
  Forall (fun rq => fst (fst rq) = PineconeLegacy.default_namespace
                    /\ (1 <= length (snd (fst rq)) <= 40)%nat)
    (upsert_requests (snd res))
  /\ (forall x, fst (fst res) = Ok x ->
      concat (map (fun rq => snd (fst rq)) (upsert_requests (snd res)))
      = map Pinecone.normalize vectors)
  /\ (initialized s = false ->
      exists reply rest,
        calls_of KPinecone (snd res) = Entry ListIndexes reply :: rest).
Proof.
  cbv zeta. unfold PineconeLegacy.upsert.
  rewrite exec_bind, exec_get_initialized. cbn [after fst snd app].
  destruct (initialized s) eqn:Hs; cbn [negb].
  - rewrite exec_bind, exec_ret. cbn [after fst snd app]. rewrite exec_try_catch.
    match goal with
    | |- context [exec (PineconeLegacy.upsert_batches ?f vectors 0) s o ?h'] =>
        pose proof (legacy_upsert_batches_spec f vectors 0 s o h') as [Hall Hok];
        cbv zeta in Hall, Hok;
        destruct (exec (PineconeLegacy.upsert_batches f vectors 0) s o h')
          as [[[[]|e] s1] t1]
    end; cbn [after fst snd app] in *.
    + split; [exact Hall|]. split; [|discriminate].
      intros x _. rewrite (Hok tt eq_refl) by lia. now rewrite drop_0.
    + exec_run. rewrite upsert_requests_app. cbn. rewrite app_nil_r.
      split; [exact Hall|]. split; discriminate.
  - rewrite exec_bind. rewrite exec_bind, exec_log. cbn [after fst snd app].
    rewrite exec_bind.
    match goal with
    | |- context [exec (PineconeLegacy.init cfg) s o ?h'] =>
        pose proof (emits_exec _ _ s o h' (legacy_init_emits cfg)) as Hprov;
        assert (Hfirst : exists reply rest,
                   calls_of KPinecone (snd (exec (PineconeLegacy.init cfg) s o h'))
                   = Entry ListIndexes reply :: rest);
        [|destruct (exec (PineconeLegacy.init cfg) s o h') as [[r1 s1] t1]]
    end.
    { unfold PineconeLegacy.init. cbv zeta. rewrite exec_try_catch, exec_bind, exec_await.
      match goal with
      | |- context [o ?X ?hh ListIndexes] => destruct (o X hh ListIndexes) as [names|e]
      end; cbn [after fst snd app].
      - match goal with
        | |- context [exec ?p ?s0 o ?h0] => destruct (exec p s0 o h0) as [[[[]|e] s2] t2]
        end; cbn [after fst snd app].
        + unfold calls_of. cbn. eauto.
        + match goal with
          | |- context [exec ?p ?s0 o ?h0] => destruct (exec p s0 o h0) as [[r3 s3] t3]
          end. unfold after, calls_of. cbn. eauto.
      - exec_run. unfold calls_of. cbn. eauto. }
    cbn [snd] in Hprov, Hfirst. apply provisioning_obs in Hprov as (Hu & _).
    destruct Hfirst as (reply & rest & Hfirst).
    destruct r1 as [[]|e]; cbn [after fst snd app].
    2:{ obs_norm. rewrite Hu. cbn. split; [constructor|]. split; [discriminate|].
        intros _. exists reply, rest. unfold calls_of in *. cbn. exact Hfirst. }
    rewrite exec_bind, exec_get_initialized. cbn [after fst snd app].
    destruct (initialized s1); cbn [negb].
    2:{ exec_run. obs_norm. rewrite Hu. cbn. split; [constructor|].
        split; [discriminate|].
        intros _. exists reply, rest. unfold calls_of in *. cbn.
        rewrite ?app_nil_r. exact Hfirst. }
    rewrite exec_ret. cbn [after fst snd app]. rewrite exec_try_catch.
    match goal with
    | |- context [exec (PineconeLegacy.upsert_batches ?f vectors 0) s1 o ?h'] =>
        pose proof (legacy_upsert_batches_spec f vectors 0 s1 o h') as [Hall Hok];
        cbv zeta in Hall, Hok;
        destruct (exec (PineconeLegacy.upsert_batches f vectors 0) s1 o h')
          as [[[[]|e] s2] t2]
    end; cbn [after fst snd app] in *.
    + rewrite app_nil_r.
      change (?a :: t1 ++ t2) with ((a :: t1) ++ t2).
      rewrite upsert_requests_app.
      change (upsert_requests (?a :: t1)) with (upsert_requests t1). rewrite Hu.
      cbn [app]. split; [exact Hall|]. split.
      * intros x _. rewrite (Hok tt eq_refl) by lia. now rewrite drop_0.
      * intros _. exists reply, (rest ++ calls_of KPinecone t2).
        unfold calls_of in *. cbn. rewrite List.filter_app, Hfirst. reflexivity.
    + exec_run. rewrite app_nil_r.
      change (?a :: t1 ++ t2 ++ ?l) with ((a :: t1) ++ t2 ++ l).
      rewrite !upsert_requests_app.
      change (upsert_requests (?a :: t1)) with (upsert_requests t1). rewrite Hu.
      cbn [app]. change (upsert_requests [_]) with (@nil (string * list Types.Vector * bool)).
      rewrite app_nil_r.
      split; [exact Hall|]. split; [discriminate|].
      intros _. eexists reply, _.
      unfold calls_of in *. cbn. rewrite List.filter_app, Hfirst. reflexivity.
Qed.

(** ** The health route *)


(** The earlier [isHealthy] never rejects either, and resolves to [true]
    exactly when [describeIndexStats] was called once and resolved. *)
Lemma legacy_isHealthy_cases cfg s o h :
  let res := exec (PineconeLegacy.isHealthy cfg) s o h in
  exists healthy,
    fst (fst res) = Ok healthy
    /\ (healthy = true <-> stats_replies (snd res) = [true]).
Proof.
  cbv zeta. unfold PineconeLegacy.isHealthy.
  rewrite exec_try_catch, exec_bind, exec_get_initialized. cbn [after fst snd app].
  destruct (initialized s); cbn [negb].
  - rewrite exec_bind, exec_ret. cbn [after fst snd app]. cbv iota.
    rewrite exec_bind, exec_await.
    match goal with
    | |- context [o ?X ?hh DescribeIndexStats] =>
        destruct (o X hh DescribeIndexStats) as [[]|e]
    end; cbn [after fst snd app]; exec_run; [exists true | exists false]; cbn;
      obs_close.
  - rewrite exec_bind, exec_bind.
    match goal with
    | |- context [exec (PineconeLegacy.init cfg) s o ?h'] =>
        pose proof (emits_exec _ _ s o h' (legacy_init_emits cfg)) as Hprov;
        destruct (exec (PineconeLegacy.init cfg) s o h') as [[[[]|e] s1] t1]
    end; cbn [after fst snd app] in *;
      apply provisioning_obs in Hprov as (_ & _ & _ & Hs).
    2:{ exec_run. exists false. rewrite ?stats_replies_app, ?Hs. cbn. rewrite ?Hs. obs_close. }
    rewrite exec_get_initialized. cbn [after fst snd app].
    destruct (initialized s1); cbv iota.
    + rewrite exec_bind, exec_await.
      match goal with
      | |- context [o ?X ?hh DescribeIndexStats] =>
          destruct (o X hh DescribeIndexStats) as [[]|e]
      end; cbn [after fst snd app]; exec_run; [exists true | exists false];
        rewrite ?app_nil_r, ?stats_replies_app, ?Hs; cbn; rewrite ?Hs; obs_close.
    + exec_run. exists false. rewrite ?app_nil_r, ?stats_replies_app, ?Hs. cbn.
      rewrite ?Hs. obs_close.
Qed.

(** The route, over any health check that never rejects and is [true]
    exactly when the statistics call was made once and resolved. *)
Lemma health_get_spec (isHealthy : P bool) readyState s o h :
  (exists healthy,
      fst (fst (exec isHealthy s o h)) = Ok healthy
      /\ (healthy = true <-> stats_replies (snd (exec isHealthy s o h)) = [true])) ->
  health_answer readyState (exec (Health.get isHealthy readyState) s o h).
Proof.
  intros Hh. unfold health_answer, Health.get. cbv zeta. rewrite exec_try_catch, exec_bind.
  destruct (exec isHealthy s o h) as [[r1 s1] t1].
  cbn [fst snd] in Hh. destruct Hh as (healthy & -> & Hstats).
  cbn [after fst snd].
  destruct (readyState =? 1) eqn:Hready, healthy; cbn [andb]; exec_run;
    rewrite ?stats_replies_app; cbn; rewrite ?app_nil_r;
    eexists _, _; (split; [reflexivity|]); cbn;
    first [apply Z.eqb_eq in Hready | apply Z.eqb_neq in Hready].
  - split; [left; now split|]. split; [|split; [reflexivity | exact Hstats]].
    split; [intros _; split; [exact Hready | now apply Hstats] | reflexivity].
  - split; [right; now split|]. split; [|split; [reflexivity | exact Hstats]].
    split; [discriminate|]. intros [_ H]. apply Hstats in H. discriminate H.
  - split; [right; now split|]. split; [|split; [reflexivity | exact Hstats]].
    split; [discriminate|]. intros [H _]. contradiction.
  - split; [right; now split|]. split; [|split; [reflexivity | exact Hstats]].
    split; [discriminate|]. intros [H _]. contradiction.
Qed.

(** X10: The health route, over either revision of the service, never answers
    500: it answers 200 with status "ok" exactly when mongoose is
    connected ([readyState] 1) and Pinecone's statistics call resolved,
    and 503 with status "degraded" otherwise; the body reports the two
    connections as they were found. *)
Theorem health_route_status cfg readyState s o h :
  health_answer readyState (exec (Health.get (Pinecone.isHealthy cfg) readyState) s o h)
  /\ health_answer readyState
       (exec (Health.get (PineconeLegacy.isHealthy cfg) readyState) s o h).
Proof.
  split; apply health_get_spec.
  - destruct (isHealthy_cases cfg s o h) as (healthy & Hok & Hstats & _). eauto.
  - apply legacy_isHealthy_cases.
Qed.

(** ** The working-copy manager: removing and acquiring *)

(** X15: [cleanWorkingDirectory] never rejects and changes nothing in the
    service: it makes one file-system call, the recursive removal of the
    directory it is given, logs an error exactly when that removal was
    rejected, and resolves either way; when the removal went through, the
    directory does not exist afterwards. *)
Theorem cleanWorkingDirectory_never_rejects workDir s o h :
  let res := exec (Git.cleanWorkingDirectory workDir) s o h in
  fst res = (Ok tt, s)
  /\ exists removal,
       fs_calls (snd res) = [(OpRm, workDir, removal)]
       /\ logged Lerror (snd res)
          = match removal with
            | None => []
            | Some _ => ["Failed to clean working directory"%string]
            end
       /\ (removal = None -> forall dirs, workDir ∉ dirs_after dirs (snd res)).
Proof.
  cbv zeta. rewrite exec_cleanWorkingDirectory. cbn [fst snd].
  split; [reflexivity|].
  destruct (o _ h (FsRm workDir)) as [[]|e]; eexists; obs_norm; cbn;
    (split; [reflexivity|]); (split; [reflexivity|]); intros Hr dirs;
    [|discriminate Hr].
  unfold dirs_after. cbn. set_solver.
Qed.

(** X16: In an environment where the file-system and git calls resolve,
    [cloneRepository] resolves to the job directory [<tempDir>/<jobId>]
    and leaves the service as it was: it has created that directory,
    cloned the repository it was given into it and, exactly when a
    non-empty commit was asked for, checked that commit out there, in that
    order; nothing is removed, so the directory exists afterwards. *)
Theorem cloneRepository_acquires cfg repoUrl jobId commit s o h :
  working_copy_available o ->
  let workDir := Path.join (Config.tempDir cfg) jobId in
  let res := exec (Git.cloneRepository cfg repoUrl jobId commit) s o h in
  fst res = (Ok workDir, s)
  /\ fs_calls (snd res) = map (fun op => (op, workDir, None)) (planned commit)
  /\ clone_requests (snd res) = [(repoUrl, workDir)]
  /\ checkout_requests (snd res)
     = (if Js.truthy commit then [(workDir, Js.or_else commit "")] else [])
  /\ forall dirs, workDir ∈ dirs_after dirs (snd res).
Proof.
  intros (Hmkdir & Hclone & Hcheckout). cbv zeta. unfold Git.cloneRepository, planned.
  generalize (Path.join (Config.tempDir cfg) jobId). intros workDir.
  rewrite exec_try_catch.
  rewrite exec_bind, exec_await, Hmkdir. cbn [after fst snd app].
  rewrite exec_bind, exec_log. cbn [after fst snd app].
  rewrite exec_bind, exec_await, Hclone. cbn [after fst snd app].
  rewrite exec_bind, exec_log. cbn [after fst snd app].
  destruct (Js.truthy commit).
  - rewrite exec_bind, exec_bind, exec_await, Hcheckout. cbn [after fst snd app].
    rewrite exec_log. cbn [after fst snd app]. rewrite exec_ret. cbn [after fst snd app].
    unfold dirs_after, clone_requests, checkout_requests. cbn.
    repeat split. intros dirs. set_solver.
  - rewrite exec_bind, !exec_ret. cbn [after fst snd app].
    unfold dirs_after, clone_requests, checkout_requests. cbn.
    repeat split. intros dirs. set_solver.
Qed.

(** Every call succeeds and a commit is asked for. *)
Lemma cloneRepository_acquires_witness :
  let res := exec (Git.cloneRepository Scenario.cfg "https://github.com/u/r.git" "job1"
                     (Some "c0ffee"%string))
               {| initialized := false |}
               (Scenario.world Scenario.nothing_fails Scenario.small_repo) [] in
  fst (fst res) = Ok "work/job1"%string
  /\ fs_calls (snd res)
     = [(OpMkdir, "work/job1"%string, None); (OpClone, "work/job1"%string, None);
        (OpCheckout, "work/job1"%string, None)]
  /\ checkout_requests (snd res) = [("work/job1"%string, "c0ffee"%string)].
Proof.
  cbv zeta.
  destruct (cloneRepository_acquires Scenario.cfg "https://github.com/u/r.git" "job1"
              (Some "c0ffee"%string) {| initialized := false |}
              (Scenario.world Scenario.nothing_fails Scenario.small_repo) [])
    as (Hres & Hfs & _ & Hcheckout & _).
  - repeat split; intros; reflexivity.
  - split; [now rewrite Hres|]. split; [exact Hfs | exact Hcheckout].
Defined.

(** ** The chunker: what a chunk holds *)

Section ChunkLines.

Local Arguments String.append !_ _ : simpl nomatch.

Lemma lines_text_app (ls1 ls2 : list string) :
  lines_text (ls1 ++ ls2) = lines_text ls1 +:+ lines_text ls2.
Proof.
  induction ls1 as [|l ls1 IH]; [reflexivity|].
  cbn [app]. unfold lines_text in *. cbn [foldr]. rewrite IH.
  now rewrite !str_app_assoc.
Qed.

Lemma lines_text_snoc (ls : list string) (l : string) :
  lines_text ls +:+ l +:+ Js.newline = lines_text (ls ++ [l]).
Proof.
  rewrite lines_text_app. reflexivity.
Qed.

(** The loop of [chunkFile] when the lines [pre] have gone into earlier
    chunks and the lines [pending] are in the chunk under construction. *)
Lemma chunk_loop_lines fp C lines :
  1 <= C ->
  forall pre pending ci c,
    Z.of_nat (length pending) < C ->
    In c (Chunker.chunk_loop fp C lines (lines_text pending)
            (Z.of_nat (length pending)) ci (Z.of_nat (length pre) + 1)) ->
    Chunker.filePath c = fp
    /\ ci <= Chunker.chunkIndex c
    /\ Chunker.startLine c
       = Z.of_nat (length pre) + 1 + (Chunker.chunkIndex c - ci) * C
    /\ Chunker.startLine c <= Chunker.endLine c
    /\ Chunker.endLine c < Chunker.startLine c + C
    /\ Chunker.endLine c <= Z.of_nat (length (pre ++ pending ++ lines))
    /\ Chunker.content c = lines_text (lines_of c (pre ++ pending ++ lines)).
Proof.
  intros HC. induction lines as [|line rest IH]; intros pre pending ci c Hlc Hin;
    [destruct Hin|].
  cbn [Chunker.chunk_loop] in Hin. cbv zeta in Hin.
  rewrite lines_text_snoc in Hin.
  replace (Z.of_nat (length pending) + 1) with (Z.of_nat (length (pending ++ [line])))
    in Hin by (rewrite length_app; cbn [length]; lia).
  assert (Hwhole : pre ++ pending ++ line :: rest = pre ++ (pending ++ [line]) ++ rest)
    by (now rewrite <- (app_assoc pending)).
  destruct ((C <=? Z.of_nat (length (pending ++ [line])))
            || match rest with [] => true | _ => false end) eqn:Hemit.
  - destruct Hin as [<- | Hin].
    + cbn [Chunker.filePath Chunker.chunkIndex Chunker.startLine Chunker.endLine
           Chunker.content].
      rewrite length_app in *. cbn [length] in *.
      split; [reflexivity|]. split; [lia|]. split; [lia|]. split; [lia|].
      split; [lia|]. split; [rewrite !length_app; cbn [length]; lia|].
      f_equal. unfold lines_of, Pinecone.array_slice.
      cbn [Chunker.startLine Chunker.endLine].
      replace (Z.to_nat (Z.of_nat (length pre) + 1 - 1)) with (length pre) by lia.
      replace (Z.to_nat (Z.of_nat (length pre) + 1
                         + Z.of_nat (length pending + 1) - 1) - length pre)%nat
        with (length (pending ++ [line])) by (rewrite length_app; cbn [length]; lia).
      rewrite drop_app_length.
      change (pending ++ line :: rest) with (pending ++ [line] ++ rest).
      rewrite app_assoc. now rewrite take_app_length.
    + assert (Hfull : rest <> [] -> Z.of_nat (length (pending ++ [line])) = C).
      { intros Hrest. destruct rest; [congruence|]. rewrite orb_false_r in Hemit.
        apply Z.leb_le in Hemit. rewrite length_app in *. cbn [length] in *. lia. }
      destruct rest as [|l2 rest']; [destruct Hin|].
      specialize (Hfull ltac:(discriminate)).
      specialize (IH (pre ++ pending ++ [line]) [] (ci + 1) c ltac:(cbn; lia)).
      cbn [length app] in IH.
      replace (Z.of_nat (length (pre ++ pending ++ [line])) + 1)
        with (Z.of_nat (length pre) + 1 + Z.of_nat (length (pending ++ [line])))
        in IH by (rewrite !length_app; lia).
      specialize (IH Hin).
      replace ((pre ++ pending ++ [line]) ++ l2 :: rest')
        with (pre ++ pending ++ line :: l2 :: rest')
        in IH by (now rewrite <- !app_assoc).
      destruct IH as (H1 & H2 & H3 & H4 & H5 & H6 & H7).
      split; [exact H1|]. split; [lia|].
      split; [rewrite H3, Hfull; ring|].
      split; [exact H4|]. split; [exact H5|]. split; [exact H6 | exact H7].
  - apply orb_false_elim in Hemit as [Hsize _]. apply Z.leb_gt in Hsize.
    rewrite Hwhole. apply IH; assumption.
Qed.

End ChunkLines.

Lemma chunkFile_lines (filePath text : string) (chunkSize : Z) (c : Chunker.CodeChunk) :
  0 < chunkSize ->
  In c (Chunker.chunkFile filePath (Some text) chunkSize) ->
  Chunker.filePath c = filePath
  /\ 0 <= Chunker.chunkIndex c
  /\ Chunker.startLine c = Chunker.chunkIndex c * chunkSize + 1
  /\ Chunker.startLine c <= Chunker.endLine c
  /\ Chunker.endLine c < Chunker.startLine c + chunkSize
  /\ Chunker.endLine c <= Z.of_nat (length (Js.split Js.LF text))
  /\ Chunker.content c = lines_text (lines_of c (Js.split Js.LF text)).
Proof.
  intros HC Hin.
  destruct (chunk_loop_lines filePath chunkSize (Js.split Js.LF text) ltac:(lia) [] [] 0 c
              ltac:(cbn; lia) Hin)
    as (H1 & H2 & H3 & H4 & H5 & H6 & H7).
  cbn [length app] in *. repeat split; try assumption; lia.
Qed.

(** X17: Every chunk [chunkFile] returns for a readable file holds exactly the
    lines it says it covers: its [content] is the lines [startLine] to
    [endLine] of the file (as [split('\n')] counts them, from 1), each
    followed by a line feed; its range is not empty, lies within the file
    and spans at most [chunkSize] lines; it starts on line
    [chunkIndex * chunkSize + 1]; and it carries the path it was given. *)
Theorem chunkFile_chunk_lines (filePath text : string) (chunkSize : Z)
    (c : Chunker.CodeChunk) :
  0 < chunkSize ->
  In c (Chunker.chunkFile filePath (Some text) chunkSize) ->
  let lines := Js.split Js.LF text in
  Chunker.filePath c = filePath
  /\ 0 <= Chunker.chunkIndex c
  /\ Chunker.startLine c = Chunker.chunkIndex c * chunkSize + 1
  /\ Chunker.startLine c <= Chunker.endLine c
  /\ Chunker.endLine c < Chunker.startLine c + chunkSize
  /\ Chunker.endLine c <= Z.of_nat (length lines)
  /\ Chunker.content c = lines_text (lines_of c lines).
Proof.
  intros HC Hin lines. now apply chunkFile_lines.
Qed.

(** A three-line file in chunks of two lines: the second chunk is line 3. *)
Lemma chunkFile_chunk_lines_witness :
  let c := {| Chunker.content := "z" +:+ Js.newline; Chunker.filePath := "a.ts";
              Chunker.chunkIndex := 1; Chunker.startLine := 3;
              Chunker.endLine := 3 |} in
  Chunker.content c
  = lines_text (lines_of c (Js.split Js.LF ("x" +:+ Js.newline +:+ "y" +:+ Js.newline
                                            +:+ "z"))).
Proof.
  intros c.
  destruct (chunkFile_chunk_lines "a.ts"
              ("x" +:+ Js.newline +:+ "y" +:+ Js.newline +:+ "z") 2 c)
    as (_ & _ & _ & _ & _ & _ & Hcontent).
  - reflexivity.
  - right. left. reflexivity.
  - exact Hcontent.
Defined.

(** ** The walk: what the pipeline embeds *)

(** X18: Every chunk [walkAndChunkDirectory] returns comes from a file that
    could be read, found below the root through directories that are not
    ignored, and whose path [shouldProcessFile] accepts; the chunk carries
    the full path of that file and holds exactly the lines [startLine] to
    [endLine] of its text. *)
Theorem walk_chunks_are_file_lines root entries (chunkSize : Z) (c : Chunker.CodeChunk) :
  0 < chunkSize ->
  In c (Chunker.walkAndChunkDirectory root (Some entries) chunkSize) ->
  exists dirs text,
    reaches root entries dirs (Chunker.filePath c) (Some text)
    /\ forallb dir_allowed dirs = true
    /\ Chunker.shouldProcessFile (Chunker.filePath c) = true
    /\ 1 <= Chunker.startLine c <= Chunker.endLine c
    /\ Chunker.endLine c <= Z.of_nat (length (Js.split Js.LF text))
    /\ Chunker.content c = lines_text (lines_of c (Js.split Js.LF text)).
Proof.
  intros HC Hin. rewrite walk_visited in Hin.
  apply in_flat_map in Hin as ([p data] & Hvisited & Hin). cbn [fst snd] in Hin.
  destruct data as [text|]; [|destruct Hin].
  destruct (chunkFile_lines p text chunkSize c HC Hin)
    as (Hp & Hidx & Hstart & Hle & _ & Hend & Hcontent).
  apply in_flat_map in Hvisited as (e & He & Hvisited).
  destruct (visited_reaches e root p (Some text) Hvisited) as (dirs & Hr & Hall & Hs).
  exists dirs, text. rewrite Hp.
  split; [now apply reaches_weaken with (e := e)|].
  split; [exact Hall|]. split; [exact Hs|]. split; [nia|]. split; assumption.
Qed.

(** A repository with one source file of two lines. *)
Lemma walk_chunks_are_file_lines_witness :
  let entries :=
    [Chunker.File "main.ts" (Some ("let x = 1;" +:+ Js.newline +:+ "let y = 2;"))] in
  let c :=
    {| Chunker.content :=
         "let x = 1;" +:+ Js.newline +:+ "let y = 2;" +:+ Js.newline;
       Chunker.filePath := "work/job1/main.ts";
       Chunker.chunkIndex := 0; Chunker.startLine := 1; Chunker.endLine := 2 |} in
  exists dirs text,
    reaches "work/job1" entries dirs (Chunker.filePath c) (Some text)
    /\ Chunker.content c = lines_text (lines_of c (Js.split Js.LF text)).
Proof.
  intros entries c.
  destruct (walk_chunks_are_file_lines "work/job1" entries 500 c)
    as (dirs & text & Hr & _ & _ & _ & _ & Hc).
  - reflexivity.
  - vm_compute. left. reflexivity.
  - exists dirs, text. split; assumption.
Defined.

(** ** The job ledger: one update *)

(** X19: [updateJobStatus] sends exactly one update, for the job it is given,
    with the status and the progress it is given and with an error message
    only when it is given a non-empty one; it resolves to what the ledger
    answered and rejects only when the ledger rejects.  A job the ledger
    does not know is not an error: the call resolves to [null] and a
    warning is logged. *)
Theorem updateJobStatus_one_write jobId st p err s o h :
  let res := exec (Mongo.updateJobStatus jobId st p err) s o h in
  snd (fst res) = s
  /\ calls_of KLedger (snd res)
     = [Entry (FindOneAndUpdate jobId
                 {| JobModel.set_status := st; JobModel.set_progress := p;
                    JobModel.set_error :=
                      match err with
                      | Some (String c m) => Some (String c m)
                      | _ => None
                      end |})
          (match fst (fst res) with Ok job => Ok job | Err e => Err e end)]
  /\ (fst (fst res) = Ok None ->
      logged Lwarn (snd res) = ["Job not found when updating status"%string])
  /\ (forall job, fst (fst res) = Ok (Some job) -> logged Lwarn (snd res) = []).
Proof.
  cbv zeta. unfold Mongo.updateJobStatus. cbv zeta.
  replace (if Js.truthy err then err else None)
    with (match err with Some (String c m) => Some (String c m) | _ => None end)
    by (destruct err as [[|c m]|]; reflexivity).
  rewrite exec_bind, exec_await.
  match goal with
  | |- context [o ?X ?hh (FindOneAndUpdate ?j ?u)] =>
      destruct (o X hh (FindOneAndUpdate j u)) as [[job|]|e]
  end; exec_run; unfold calls_of; cbn; obs_close.
Qed.

(** ** The pipeline: the progress of the embedding loop *)

(** X20: [updateProgress] writes [running] with the progress
    [floor (base + (100 - base) * current / total)]; for a base between 0
    and 100 and [current <= total], that value lies between the base and
    100, is exactly 100 when [current = total], and does not decrease when
    [current] grows. *)
Theorem updateProgress_bounds jobId base (current total : nat) s o h :
  0 <= base <= 100 -> (0 < total)%nat -> (current <= total)%nat ->
  let p := Pipeline.progress_of base (Z.of_nat current) (Z.of_nat total) in
  progress_reports jobId
    (snd (exec (Pipeline.updateProgress jobId base current total) s o h))
  = [(JobModel.running, p)]
  /\ base <= p <= 100
  /\ (current = total -> p = 100)
  /\ forall earlier : nat,
       (earlier <= current)%nat ->
       Pipeline.progress_of base (Z.of_nat earlier) (Z.of_nat total) <= p.
Proof.
  intros Hbase Htotal Hcurrent p. subst p. split; [|split; [|split]].
  - rewrite exec_updateProgress.
    pose proof (updateJobStatus_reports jobId JobModel.running
                  (Pipeline.progress_of base (Z.of_nat current) (Z.of_nat total))
                  None s o h) as Hr.
    destruct (exec (Mongo.updateJobStatus _ _ _ _) s o h) as [[[job|e] s1] t1];
      exact Hr.
  - split.
    + rewrite <- (progress_of_zero base (Z.of_nat total)) at 1.
      apply progress_of_mono; lia.
    + rewrite <- (progress_of_full base (Z.of_nat total)) by lia.
      apply progress_of_mono; lia.
  - intros ->. apply progress_of_full. lia.
  - intros earlier He. apply progress_of_mono; lia.
Qed.

(** 50 chunks of 120 done from the checkpoint 30: progress 59. *)
Lemma updateProgress_bounds_witness :
  progress_reports "job1"
    (snd (exec (Pipeline.updateProgress "job1" 30 50 120) {| initialized := true |}
            (Scenario.world Scenario.nothing_fails None) []))
  = [(JobModel.running, 59)].
Proof.
  destruct (updateProgress_bounds "job1" 30 50 120 {| initialized := true |}
              (Scenario.world Scenario.nothing_fails None) [])
    as (Hreport & _); [lia | lia | lia |].
  exact Hreport.
Defined.

(** ** The working-copy manager: a failed acquisition *)

(** The [k]-th call planned is the one that rejected. *)
Ltac failed_at k :=
  exists k; eexists _, _, _;
  split; [reflexivity|]; split; [reflexivity|]; split; [reflexivity|];
  split; [reflexivity|];
  let Hrm := fresh "Hrm" in
  intros Hrm dirs; try discriminate Hrm;
  unfold dirs_after; cbn;
  rewrite not_elem_of_difference, elem_of_singleton; now right.

(** C9 (as amended): for every call of [cloneRepository], in every
    environment, one of two things happens.  Either every call it set out to make ([mkdir],
    the clone, and the checkout when a commit is asked for) succeeded: it
    resolves to the job directory and nothing is removed.  Or one of them
    rejected: the calls before it had succeeded, none of the later ones is
    made, the next and last file-system call is the recursive, forced
    removal of the job directory, and the call rejects with the error of
    the call that failed, whether that removal goes through or not (a
    rejected removal is logged and swallowed); when the removal goes
    through, the job directory does not exist afterwards. *)
Theorem cloneRepository_cleans_up cfg repoUrl jobId commit s o h :
  let workDir := Path.join (Config.tempDir cfg) jobId in
  let res := exec (Git.cloneRepository cfg repoUrl jobId commit) s o h in
  let done op := (op, workDir, @None exn) in
  (fst (fst res) = Ok workDir
   /\ fs_calls (snd res) = map done (planned commit))
  \/ (exists k op error removal,
        planned commit !! k = Some op
        /\ fst (fst res) = Err error
        /\ fs_calls (snd res)
           = map done (take k (planned commit))
             ++ [(op, workDir, Some error); (OpRm, workDir, removal)]
        /\ logged Lerror (snd res)
           = "Failed to clone or checkout repository"%string
             :: match removal with
                | None => []
                | Some _ => ["Failed to clean working directory"%string]
                end
        /\ (removal = None -> forall dirs, workDir ∉ dirs_after dirs (snd res))).
Proof.
  cbv zeta. unfold Git.cloneRepository, planned.
  generalize (Path.join (Config.tempDir cfg) jobId). intros workDir.
  destruct (Js.truthy commit);
    repeat (exec_all;
            try (rewrite exec_cleanWorkingDirectory;
                 match goal with
                 | |- context [o ?X ?hh (FsRm ?d)] => destruct (o X hh (FsRm d))
                 end; cbn [fst snd after app negb])).
  all: first
    [ left; split; reflexivity
    | right; first [failed_at 0%nat | failed_at 1%nat | failed_at 2%nat] ].
Qed.

(** The commit cannot be checked out: the job directory is removed, the
    error of the checkout is the one propagated, and the job directory
    does not exist afterwards. *)
Lemma cloneRepository_cleans_up_witness :
  let res := exec (Git.cloneRepository Scenario.cfg "https://github.com/u/r.git" "job1"
                     (Some "c0ffee"%string))
               {| initialized := true |} Scenario.checkout_fails [] in
  fst (fst res) = Err Scenario.boom
  /\ fs_calls (snd res)
     = [(OpMkdir, "work/job1"%string, None); (OpClone, "work/job1"%string, None);
        (OpCheckout, "work/job1"%string, Some Scenario.boom);
        (OpRm, "work/job1"%string, None)]
  /\ forall dirs, "work/job1"%string ∉ dirs_after dirs (snd res).
Proof.
  cbv zeta.
  destruct (cloneRepository_cleans_up Scenario.cfg "https://github.com/u/r.git" "job1"
              (Some "c0ffee"%string) {| initialized := true |} Scenario.checkout_fails [])
    as [[Hok _] | (k & op & error & removal & Hk & Herr & Hcalls & _ & Hgone)].
  - vm_compute in Hok. discriminate Hok.
  - split; [vm_compute; reflexivity|]. split; [vm_compute; reflexivity|].
    apply Hgone.
    assert (Hfs : fs_calls
                    (snd (exec (Git.cloneRepository Scenario.cfg
                                  "https://github.com/u/r.git" "job1"
                                  (Some "c0ffee"%string))
                            {| initialized := true |} Scenario.checkout_fails []))
                  = [(OpMkdir, "work/job1"%string, None);
                     (OpClone, "work/job1"%string, None);
                     (OpCheckout, "work/job1"%string, Some Scenario.boom);
                     (OpRm, "work/job1"%string, None)])
      by (vm_compute; reflexivity).
    rewrite Hfs in Hcalls.
    destruct k as [|[|[|k]]]; cbn in Hk, Hcalls; try discriminate.
    now inversion Hcalls.
Defined.

(** C9 as stated fails when the removal itself is rejected: the clone
    rejects, the removal of the job directory rejects too, and the error
    of the clone is propagated while the job directory is still there. *)
Lemma cloneRepository_removal_rejected :
  let res := exec (Git.cloneRepository Scenario.cfg "https://github.com/u/r.git" "job1"
                     None)
               {| initialized := true |} Scenario.stuck_directory [] in
  fst (fst res) = Err Scenario.boom
  /\ fs_calls (snd res)
     = [(OpMkdir, "work/job1"%string, None);
        (OpClone, "work/job1"%string, Some Scenario.boom);
        (OpRm, "work/job1"%string, Some Scenario.busy)]
  /\ "work/job1"%string ∈ dirs_after ∅ (snd res).
Proof.
  cbv zeta. split; [vm_compute; reflexivity|]. split; [vm_compute; reflexivity|].
  assert (Hfs : fs_calls
                  (snd (exec (Git.cloneRepository Scenario.cfg
                                "https://github.com/u/r.git" "job1" None)
                          {| initialized := true |} Scenario.stuck_directory []))
                = [(OpMkdir, "work/job1"%string, None);
                   (OpClone, "work/job1"%string, Some Scenario.boom);
                   (OpRm, "work/job1"%string, Some Scenario.busy)])
    by (vm_compute; reflexivity).
  unfold dirs_after. rewrite Hfs. cbn. set_solver.
Qed.

(** ** The vector-store adapter on an empty list, in both revisions *)


(** When the earlier [init] resolves, the service is initialized. *)
Lemma legacy_init_resolves_initialized cfg s o h x :
  fst (fst (exec (PineconeLegacy.init cfg) s o h)) = Ok x ->
  initialized (snd (fst (exec (PineconeLegacy.init cfg) s o h))) = true.
Proof.
  unfold PineconeLegacy.init. cbv zeta. rewrite exec_try_catch, exec_bind, exec_await.
  match goal with
  | |- context [o ?X ?hh ListIndexes] => destruct (o X hh ListIndexes) as [names|e]
  end; cbn [after fst snd app].
  - rewrite exec_bind.
    match goal with
    | |- context [exec ?p ?s0 o ?h0] => destruct (exec p s0 o h0) as [[[[]|e] s2] t2]
    end; cbn [after fst snd app].
    + exec_run. intros _. reflexivity.
    + exec_run. discriminate.
  - exec_run. discriminate.
Qed.

(** The earlier [upsert] on an empty list: on an initialized service it
    resolves without a call; otherwise it is [init] after one warning. *)
Lemma exec_legacy_upsert_empty cfg s o h :
  let res := exec (PineconeLegacy.upsert cfg []) s o h in
  (initialized s = true -> res = ((Ok tt, s), []))
  /\ (initialized s = false ->
      let ini := exec (PineconeLegacy.init cfg) s o (h ++ [legacy_init_warning]) in
      res = (fst ini, legacy_init_warning :: snd ini)).
Proof.
  cbv zeta. unfold PineconeLegacy.upsert.
  rewrite exec_bind, exec_get_initialized. cbn [after fst snd app].
  destruct (initialized s) eqn:Hs; cbn [negb]; (split; [|]); try discriminate.
  - intros _. exec_run. reflexivity.
  - intros _. rewrite exec_bind. rewrite exec_bind, exec_log. cbn [after fst snd app].
    rewrite exec_bind. fold legacy_init_warning. rewrite ?app_nil_r.
    pose proof (legacy_init_resolves_initialized cfg s o (h ++ [legacy_init_warning]))
      as Hinit.
    destruct (exec (PineconeLegacy.init cfg) s o (h ++ [legacy_init_warning]))
      as [[[[]|e] s1] t1]; cbn [after fst snd app] in *; [|reflexivity].
    rewrite exec_bind, exec_get_initialized. cbn [after fst snd app].
    rewrite (Hinit tt eq_refl). cbn [negb]. exec_run.
    cbn [PineconeLegacy.upsert_batches length]. exec_run.
    unfold after. cbn [fst snd app]. now rewrite !app_nil_r.
Qed.

(** C6 (as amended): [upsert] on an empty list, for every state of the
    service and every environment.  The namespace-aware service resolves at once: it
    logs a warning and returns; the [initialized] flag is not looked at,
    no initialization is attempted, and no call reaches Pinecone.  The
    earlier revision has no guard on the list: it sends no upsert request
    either, and on an initialized service it resolves without any call;
    but on a service that is not initialized it logs a warning and runs
    its [init], so that its calls to Pinecone are exactly those of [init]
    (the first one lists the indexes) and it resolves or rejects as
    [init] does. *)
Theorem upsert_empty_is_noop (cfg : Config.config) (s : svc) (o : oracle) (h : trace) :
  let res := exec (Pinecone.upsert cfg []) s o h in
  let old := exec (PineconeLegacy.upsert cfg []) s o h in
  let ini := exec (PineconeLegacy.init cfg) s o (h ++ [legacy_init_warning]) in
  res = ((Ok tt, s), [Entry (Log Lwarn "No vectors provided for upserting") tt])
  /\ calls_of KPinecone (snd res) = []
  /\ upsert_requests (snd old) = []
  /\ (initialized s = true -> old = ((Ok tt, s), []))
  /\ (initialized s = false ->
      old = (fst ini, legacy_init_warning :: snd ini)
      /\ calls_of KPinecone (snd old) = calls_of KPinecone (snd ini)
      /\ exists reply rest, calls_of KPinecone (snd old) = Entry ListIndexes reply :: rest).
Proof.
  cbv zeta.
  destruct (exec_upsert_empty cfg s o h) as (Hnew & Hcalls & _).
  destruct (exec_legacy_upsert_empty cfg s o h) as [Hinit Huninit]. cbv zeta in *.
  destruct (legacy_upsert_spec cfg [] s o h) as (Hall & _ & Hfirst). cbv zeta in *.
  split; [exact Hnew|]. split; [exact Hcalls|]. split; [|split].
  - destruct (initialized s) eqn:Hs.
    + now rewrite (Hinit eq_refl).
    + rewrite (Huninit eq_refl). cbn [snd].
      change (upsert_requests (legacy_init_warning :: ?t)) with (upsert_requests t).
      pose proof (emits_exec _ _ s o (h ++ [legacy_init_warning]) (legacy_init_emits cfg))
        as Hprov.
      now apply provisioning_obs in Hprov as [Hu _].
  - exact Hinit.
  - intros Hs. split; [exact (Huninit Hs)|]. split; [|exact (Hfirst Hs)].
    now rewrite (Huninit Hs).
Qed.

(** C6 as stated fails on the earlier revision: not yet initialized and
    given an empty list while the index exists, it resolves after listing
    the indexes and describing the index. *)
Lemma legacy_upsert_empty_contacts_store :
  let res := exec (PineconeLegacy.upsert Scenario.cfg []) {| initialized := false |}
               (Scenario.world Scenario.nothing_fails None) [] in
  fst res = (Ok tt, {| initialized := true |})
  /\ calls_of KPinecone (snd res)
     = [Entry ListIndexes (Ok ["code"%string]);
        Entry (DescribeIndex "code") (Ok Scenario.ready_index)].
Proof. vm_compute. split; reflexivity. Qed.

(** ** Tenants and namespaces, in both revisions *)

Lemma store_after_app st t1 t2 :
  store_after st (t1 ++ t2) = store_after (store_after st t1) t2.
Proof. unfold store_after. now rewrite upsert_requests_app, foldl_app. Qed.

Lemma store_after_no_request st t : upsert_requests t = [] -> store_after st t = st.
Proof. unfold store_after. now intros ->. Qed.

(** When [query] resolves, its matches are what the index answered to one
    query on the namespace of the tenant, made after calls [t1] that wrote
    nothing. *)
Lemma query_answered cfg vector userId topK filters s o h matches :
  fst (fst (exec (Pinecone.query cfg vector userId topK filters) s o h)) = Ok matches ->
  exists t1,
    upsert_requests t1 = []
    /\ o _ (h ++ t1) (NsQuery (Pinecone.getNamespaceForUser userId) vector topK filters)
       = Ok matches.
Proof.
  unfold Pinecone.query. after_ensureInitialized cfg; [|discriminate].
  cbv zeta. rewrite exec_try_catch, exec_await.
  destruct (o _ (h ++ t1) (NsQuery (Pinecone.getNamespaceForUser userId) vector topK
                             filters)) as [ms|e] eqn:Hreply;
    exec_run; intros Hm; [|discriminate Hm].
  injection Hm as <-. now exists t1.
Qed.

(** A query of a tenant on an isolated index that answers from what it
    holds returns records of that tenant only. *)
Lemma query_returns_own_tenant st o cfg vector u topK filters s h matches :
  answers_from st o ->
  isolated (store_after st h) ->
  fst (fst (exec (Pinecone.query cfg vector u topK filters) s o h)) = Ok matches ->
  Forall (fun m => Types.userId (Types.metadata m) = u) matches.
Proof.
  intros Hanswers Hiso Hok.
  destruct (query_answered _ _ _ _ _ _ _ _ _ Hok) as (t1 & Hu & Hreply).
  apply Hanswers in Hreply.
  rewrite store_after_app, (store_after_no_request _ t1 Hu) in Hreply.
  eapply Forall_impl; [exact Hreply|]. intros m (recs & i & Hns & Hm). cbn beta.
  apply getNamespaceForUser_inj. symmetry. exact (Hiso _ recs i m Hns Hm).
Qed.

Lemma legacy_query_default_namespace cfg vector topK filter s o h :
  Forall (fun ns => ns = PineconeLegacy.default_namespace)
    (query_namespaces (snd (exec (PineconeLegacy.query cfg vector topK filter) s o h))).
Proof.
  unfold PineconeLegacy.query.
  rewrite exec_bind, exec_get_initialized. cbn [after fst snd app].
  assert (Hq : forall t, Forall (satisfies provisioning_call) t -> query_namespaces t = []).
  { induction 1 as [|[X e r] t He _ IH]; [reflexivity|].
    unfold satisfies in He. cbn [entry_event] in He.
    destruct e; try discriminate He; unfold query_namespaces in *; cbn; exact IH. }
  assert (Hlast : forall s1 h1,
             Forall (fun ns => ns = PineconeLegacy.default_namespace)
               (query_namespaces
                  (snd (exec (try_catch
                                (await (NsQuery PineconeLegacy.default_namespace vector
                                          topK filter))
                                (fun error =>
                                   log Lerror "Failed to query Pinecone";; throw error))
                          s1 o h1)))).
  { intros s1 h1. rewrite exec_try_catch, exec_await.
    destruct (o _ h1 (NsQuery PineconeLegacy.default_namespace vector topK filter));
      exec_run; unfold query_namespaces; cbn; repeat constructor. }
  destruct (initialized s); cbn [negb].
  - rewrite exec_bind, exec_ret. cbn [after fst snd app]. apply Hlast.
  - rewrite exec_bind. rewrite exec_bind, exec_log. cbn [after fst snd app].
    rewrite exec_bind.
    match goal with
    | |- context [exec (PineconeLegacy.init cfg) s o ?h'] =>
        pose proof (emits_exec _ _ s o h' (legacy_init_emits cfg)) as Hprov;
        destruct (exec (PineconeLegacy.init cfg) s o h') as [[[[]|e] s1] t1]
    end; cbn [after fst snd app] in *; apply Hq in Hprov.
    2:{ unfold query_namespaces in *. cbn. rewrite Hprov. constructor. }
    rewrite exec_bind, exec_get_initialized. cbn [after fst snd app].
    destruct (initialized s1); cbn [negb].
    + rewrite exec_ret. cbn [after fst snd app].
      match goal with
      | |- context [exec (try_catch ?m ?f) s1 o ?h1] =>
          specialize (Hlast s1 h1); destruct (exec (try_catch m f) s1 o h1) as [[r2 s2] t2]
      end.
      cbn [after fst snd app] in *. rewrite app_nil_r.
      change (?a :: t1 ++ t2) with ((a :: t1) ++ t2).
      unfold query_namespaces in *. rewrite omap_app. cbn. rewrite Hprov. exact Hlast.
    + exec_run. unfold query_namespaces in *. cbn. rewrite !omap_app, Hprov. cbn.
      constructor.
Qed.

(** C1 (as amended): for every call of [upsert] of the namespace-aware
    service, in every environment: each upsert request goes to the namespace
    [user_<userId>] of the tenant named in the metadata of every vector of
    its batch, and its vectors are input vectors (with [commit]
    normalised); when the call resolves, the vectors written to the
    namespace of a tenant are exactly the input vectors of that tenant, in
    order (the input is partitioned by tenant); namespaces of different
    tenants differ; an index in which every record sits in the namespace
    of its own tenant stays so; and on such an index, which answers a
    query on a namespace from what that namespace holds, a query of a
    tenant made after the call returns records of that tenant only.  The
    earlier revision knows no tenant: every request of its [upsert] goes
    to the default namespace, the batches being the whole input in order
    whatever the tenants, and its [query], which is given no tenant,
    queries the default namespace. *)
Theorem upsert_tenant_isolation (cfg : Config.config) (vectors : list Types.Vector)
    (s : svc) (o : oracle) (h : trace) :
  let res := exec (Pinecone.upsert cfg vectors) s o h in
  let old := exec (PineconeLegacy.upsert cfg vectors) s o h in
  (forall ns batch accepted v,
      In (ns, batch, accepted) (upsert_requests (snd res)) -> In v batch ->
      ns = Pinecone.getNamespaceForUser (Types.userId (Types.metadata v))
      /\ exists v0, In v0 vectors /\ v = Pinecone.normalize v0)
  /\ (forall x, fst (fst res) = Ok x ->
      forall u, written_to (Pinecone.getNamespaceForUser u) (snd res)
                = map Pinecone.normalize (of_tenant u vectors))
  /\ (forall u1 u2, u1 <> u2 ->
      Pinecone.getNamespaceForUser u1 <> Pinecone.getNamespaceForUser u2)
  /\ (forall st, isolated st -> isolated (store_after st (snd res)))
  /\ (forall st vector u topK filters s' matches,
        isolated (store_after st h) -> answers_from st o ->
        fst (fst (exec (Pinecone.query cfg vector u topK filters) s' o (h ++ snd res)))
        = Ok matches ->
        Forall (fun m => Types.userId (Types.metadata m) = u) matches)
  /\ Forall (fun rq => fst (fst rq) = PineconeLegacy.default_namespace)
       (upsert_requests (snd old))
  /\ (forall x, fst (fst old) = Ok x ->
      concat (map (fun rq => snd (fst rq)) (upsert_requests (snd old)))
      = map Pinecone.normalize vectors)
  /\ (forall vector topK filter s' o' h',
        Forall (fun ns => ns = PineconeLegacy.default_namespace)
          (query_namespaces
             (snd (exec (PineconeLegacy.query cfg vector topK filter) s' o' h')))).
Proof.
  cbv zeta.
  assert (Hreq : forall ns batch accepted v,
             In (ns, batch, accepted)
                (upsert_requests (snd (exec (Pinecone.upsert cfg vectors) s o h))) ->
             In v batch ->
             ns = Pinecone.getNamespaceForUser (Types.userId (Types.metadata v))
             /\ exists v0, In v0 vectors /\ v = Pinecone.normalize v0).
  { destruct vectors as [|v0 vectors0].
    - destruct (exec_upsert_empty cfg s o h) as (_ & _ & ->). intros ? ? ? ? [].
    - pose proof (upsert_spec cfg (v0 :: vectors0) s o h ltac:(discriminate)) as Hs.
      cbv zeta in Hs. destruct Hs as (Hall & _ & _).
      intros ns batch accepted v Hin Hv. rewrite Forall_forall in Hall.
      destruct (Hall _ ltac:(apply list_elem_of_In; exact Hin)) as (u & Hns & Hbatch).
      cbn [fst snd] in Hns, Hbatch. destruct (Hbatch v Hv) as (w & Hw & ->).
      unfold of_tenant in Hw. apply list_elem_of_In, list_elem_of_filter in Hw as [Hu Hw].
      rewrite normalize_userId, Hu. split; [exact Hns|].
      exists w. split; [now apply list_elem_of_In | reflexivity]. }
  assert (Hkeep : forall st, isolated st ->
                    isolated (store_after st (snd (exec (Pinecone.upsert cfg vectors) s o h)))).
  { intros st Hst. apply store_after_isolated; [exact Hst|].
    apply Forall_forall. intros [[ns batch] accepted] Hin v Hv. cbn [fst snd] in *.
    apply list_elem_of_In in Hin. now destruct (Hreq ns batch accepted v Hin Hv). }
  destruct (legacy_upsert_spec cfg vectors s o h) as (Hall & Hconcat & _).
  cbv zeta in Hall, Hconcat.
  split; [exact Hreq|]. split; [|split; [|split; [|split; [|split; [|split]]]]].
  - destruct vectors as [|v0 vectors0].
    + destruct (exec_upsert_empty cfg s o h) as (-> & _ & _). intros; reflexivity.
    + pose proof (upsert_spec cfg (v0 :: vectors0) s o h ltac:(discriminate)) as Hs.
      cbv zeta in Hs. now destruct Hs as (_ & Hok & _).
  - intros u1 u2 Hne Heq. now apply Hne, getNamespaceForUser_inj.
  - exact Hkeep.
  - intros st vector u topK filters s' matches Hiso Hanswers Hok.
    apply (query_returns_own_tenant st o cfg vector u topK filters s'
             (h ++ snd (exec (Pinecone.upsert cfg vectors) s o h)) matches Hanswers);
      [|exact Hok].
    rewrite store_after_app. now apply Hkeep.
  - eapply Forall_impl; [exact Hall|]. now intros rq [Hns _].
  - exact Hconcat.
  - intros. apply legacy_query_default_namespace.
Qed.

(** *** The index of the scenarios answers from what it holds *)

Lemma remote_index_answers : answers_from ∅ Scenario.remote_index.
Proof.
  intros h ns vector topK filter matches Hreply. cbn in Hreply. injection Hreply as <-.
  apply Forall_forall. intros m Hm. apply elem_of_take in Hm as (k & Hm & _).
  apply list_elem_of_lookup_2 in Hm.
  apply list_elem_of_fmap in Hm as ([i v] & -> & Hin).
  apply elem_of_map_to_list in Hin. cbn [snd].
  destruct (store_after ∅ h !! ns) as [recs|] eqn:Hns; cbn in Hin.
  - now exists recs, i.
  - now rewrite lookup_empty in Hin.
Qed.

(** One call with a vector of tenant [alice] and a vector of tenant [7],
    on an index that is empty at first: the namespace-aware service sends
    each to the namespace of its tenant, and a query of [alice] right
    after returns her vector only. *)
Lemma upsert_tenant_isolation_witness :
  let res := exec (Pinecone.upsert Scenario.cfg
                     [Scenario.vector_of_alice; Scenario.vector_of_7])
               {| initialized := true |} Scenario.remote_index [] in
  upsert_requests (snd res)
  = [("user_7"%string, [Pinecone.normalize Scenario.vector_of_7], true);
     ("user_alice"%string, [Pinecone.normalize Scenario.vector_of_alice], true)]
  /\ fst (fst (exec (Pinecone.query Scenario.cfg [] "alice" 5 [])
                 {| initialized := true |} Scenario.remote_index (snd res)))
     = Ok [Pinecone.normalize Scenario.vector_of_alice]
  /\ Forall (fun m => Types.userId (Types.metadata m) = "alice"%string)
       [Pinecone.normalize Scenario.vector_of_alice].
Proof.
  cbv zeta. split; [vm_compute; reflexivity|]. split; [vm_compute; reflexivity|].
  destruct (upsert_tenant_isolation Scenario.cfg
              [Scenario.vector_of_alice; Scenario.vector_of_7]
              {| initialized := true |} Scenario.remote_index [])
    as (_ & _ & _ & _ & Hquery & _).
  apply (Hquery ∅ [] "alice"%string 5 [] {| initialized := true |}).
  - intros ns recs i v Hns. cbn in Hns. now rewrite lookup_empty in Hns.
  - exact remote_index_answers.
  - vm_compute. reflexivity.
Defined.

(** C1 as stated fails on the earlier revision.  The same call there:
    both vectors go to the default namespace in one request, nothing is written to the namespace of
    [alice], and the query of that revision returns the vector of tenant
    [7] along with hers. *)
Lemma legacy_upsert_mixes_tenants :
  let res := exec (PineconeLegacy.upsert Scenario.cfg
                     [Scenario.vector_of_alice; Scenario.vector_of_7])
               {| initialized := true |} Scenario.remote_index [] in
  fst (fst res) = Ok tt
  /\ upsert_requests (snd res)
     = [(PineconeLegacy.default_namespace,
         [Pinecone.normalize Scenario.vector_of_alice;
          Pinecone.normalize Scenario.vector_of_7], true)]
  /\ written_to (Pinecone.getNamespaceForUser "alice") (snd res) = []
  /\ exists matches,
       fst (fst (exec (PineconeLegacy.query Scenario.cfg [] 5 [])
                   {| initialized := true |} Scenario.remote_index (snd res)))
       = Ok matches
       /\ In (Pinecone.normalize Scenario.vector_of_alice) matches
       /\ In (Pinecone.normalize Scenario.vector_of_7) matches.
Proof.
  cbv zeta. split; [vm_compute; reflexivity|]. split; [vm_compute; reflexivity|].
  split; [vm_compute; reflexivity|].
  eexists. split; [vm_compute; reflexivity|]. split; vm_compute; tauto.
Qed.

(** ** Waiting for a new index, in both revisions *)

Lemma legacy_upsert_batches_state fuel vs i s o h :
  snd (fst (exec (PineconeLegacy.upsert_batches fuel vs i) s o h)) = s.
Proof.
  revert i h. induction fuel as [|fuel IH]; intros i h;
    cbn [PineconeLegacy.upsert_batches]; [reflexivity|].
  destruct (i <? length vs)%nat; [|reflexivity].
  cbv zeta. rewrite exec_bind, exec_await.
  match goal with
  | |- context [o ?X ?hh (NsUpsert ?n ?b)] => destruct (o X hh (NsUpsert n b)) as [[]|e]
  end; cbn [after fst snd app]; [|reflexivity].
  rewrite exec_bind, exec_log. cbn [after fst snd app].
  match goal with
  | |- context [exec (PineconeLegacy.upsert_batches fuel vs ?i') s o ?h'] =>
      specialize (IH i' h');
      destruct (exec (PineconeLegacy.upsert_batches fuel vs i') s o h') as [[r1 s1] t1]
  end.
  exact IH.
Qed.

(** As long as the earlier service is not initialized after an [upsert],
    that [upsert] sent no upsert request and rejected. *)
Lemma legacy_upsert_uninitialized cfg vectors s o h :
  let res := exec (PineconeLegacy.upsert cfg vectors) s o h in
  initialized s = false -> initialized (snd (fst res)) = false ->
  upsert_requests (snd res) = [] /\ exists e, fst (fst res) = Err e.
Proof.
  cbv zeta. intros Hs. unfold PineconeLegacy.upsert.
  rewrite exec_bind, exec_get_initialized. cbn [after fst snd app]. rewrite Hs.
  cbn [negb]. rewrite exec_bind. rewrite exec_bind, exec_log. cbn [after fst snd app].
  rewrite exec_bind.
  match goal with
  | |- context [exec (PineconeLegacy.init cfg) s o ?h'] =>
      pose proof (emits_exec _ _ s o h' (legacy_init_emits cfg)) as Hprov;
      destruct (exec (PineconeLegacy.init cfg) s o h') as [[[[]|e] s1] t1]
  end; cbn [after fst snd app] in *; apply provisioning_obs in Hprov as (Hu & _).
  2:{ intros _. obs_norm. rewrite Hu. split; [reflexivity | eauto]. }
  rewrite exec_bind, exec_get_initialized. cbn [after fst snd app].
  destruct (initialized s1) eqn:Hs1; cbn [negb].
  - rewrite exec_ret. cbn [after fst snd app]. rewrite exec_try_catch.
    match goal with
    | |- context [exec (PineconeLegacy.upsert_batches ?f vectors 0) s1 o ?h'] =>
        pose proof (legacy_upsert_batches_state f vectors 0 s1 o h') as Hst;
        destruct (exec (PineconeLegacy.upsert_batches f vectors 0) s1 o h')
          as [[[[]|e] s2] t2]
    end; cbn [after fst snd app] in *; subst s2.
    + intros Hf. congruence.
    + exec_run. intros Hf. congruence.
  - exec_run. intros _. obs_norm. rewrite Hu.
    split; [reflexivity | eauto].
Qed.

(** C7: in both revisions of the service, for every environment.  The
    readiness loop polls [describeIndex] at most 12 times, with one wait of
    5 seconds after each poll that did not find the index ready; a poll
    rejected with a 404 is retried silently, any other rejection is logged
    as a warning and retried; the loop creates and upserts nothing and
    leaves the service as it was.  When the creation of the index was
    accepted and no poll finds the index ready, [init] rejects with the
    "did not become ready" error after exactly 12 polls and 12 waits of 5
    seconds, leaving the service uninitialized.  And as long as the
    service is not initialized after an [upsert], that [upsert] made no
    upsert request and rejected. *)
Theorem index_provisioning_poll (cfg : Config.config) :
  (forall s o h,
      wait_outcome 12
        (Err (Error (Pinecone.not_ready_message (Config.indexName cfg))))
        (fun _ => Ok tt)
        (exec (Pinecone.waitForIndexReady (Config.indexName cfg)) s o h) s)
  /\ (forall s o h,
        let res := exec (Pinecone.init cfg) s o h in
        existsb snd (create_requests (snd res)) = true ->
        Forall (fun r => not_ready r = true) (describe_replies (snd res)) ->
        fst (fst res) = Err (Error (Pinecone.not_ready_message (Config.indexName cfg)))
        /\ snd (fst res) = s
        /\ length (describe_replies (snd res)) = 12%nat
        /\ delays (snd res) = repeat 5000 12
        /\ upsert_requests (snd res) = [])
  /\ (forall vectors s o h,
        let res := exec (Pinecone.upsert cfg vectors) s o h in
        vectors <> [] ->
        initialized s = false -> initialized (snd (fst res)) = false ->
        upsert_requests (snd res) = [] /\ exists e, fst (fst res) = Err e)
  /\ (forall s o h,
        wait_outcome 12 (Ok PineconeLegacy.maxRetries) (fun k => Ok (Z.of_nat k))
          (exec (PineconeLegacy.wait_loop (Z.to_nat PineconeLegacy.maxRetries) 0
                   (Config.indexName cfg)) s o h) s)
  /\ (forall s o h,
        let res := exec (PineconeLegacy.init cfg) s o h in
        existsb snd (create_requests (snd res)) = true ->
        Forall (fun r => not_ready r = true) (describe_replies (snd res)) ->
        fst (fst res)
        = Err (Error (PineconeLegacy.not_ready_message (Config.indexName cfg)))
        /\ snd (fst res) = s
        /\ length (describe_replies (snd res)) = 12%nat
        /\ delays (snd res) = repeat 5000 12
        /\ upsert_requests (snd res) = [])
  /\ (forall vectors s o h,
        let res := exec (PineconeLegacy.upsert cfg vectors) s o h in
        initialized s = false -> initialized (snd (fst res)) = false ->
        upsert_requests (snd res) = [] /\ exists e, fst (fst res) = Err e).
Proof.
  split; [|split; [|split; [|split; [|split]]]].
  - intros s o h. apply waitForIndexReady_from_spec.
  - intros s o h res Hcreated Hnone. subst res.
    destruct (init_spec cfg s o h) as (Hup & _ & Herr & Hwait).
    destruct (Hwait Hcreated Hnone) as (Hres & Hlen & Hsched).
    split; [exact Hres|]. split; [now apply (Herr _ Hres)|]. split; [exact Hlen|].
    split; [|exact Hup].
    rewrite delays_schedule, Hsched, fixed_interval_delays, Hlen by exact Hnone.
    reflexivity.
  - intros vectors s o h res Hne Hs Hs'. subst res.
    destruct (upsert_spec cfg vectors s o h Hne) as (_ & _ & Hno).
    exact (Hno Hs Hs').
  - intros s o h.
    exact (legacy_wait_loop_spec 12 0 (Config.indexName cfg) s o h).
  - intros s o h res Hcreated Hnone. subst res.
    destruct (legacy_init_spec cfg s o h Hcreated Hnone) as (Hres & Hs & Hlen & Hsched & Hup).
    split; [exact Hres|]. split; [exact Hs|]. split; [exact Hlen|]. split; [|exact Hup].
    rewrite delays_schedule, Hsched, fixed_interval_delays, Hlen by exact Hnone.
    reflexivity.
  - intros vectors s o h. apply legacy_upsert_uninitialized.
Qed.

(** The index is absent, its creation is accepted, and of every three
    polls one is rejected with a 404, one with another error and one
    reports [ready: false]: [init] gives up after 12 polls and 12 waits of
    5 seconds, having logged a warning for the 4 polls rejected with
    another error; an [upsert] in that environment sends nothing. *)
Lemma index_provisioning_poll_witness :
  let res := exec (Pinecone.init Scenario.cfg) {| initialized := false |}
               Scenario.flaky_provisioning [] in
  fst res = (Err (Error (Pinecone.not_ready_message "code")), {| initialized := false |})
  /\ length (describe_replies (snd res)) = 12%nat
  /\ delays (snd res) = repeat 5000 12
  /\ logged Lwarn (snd res) = repeat poll_warning 4
  /\ upsert_requests
       (snd (exec (Pinecone.upsert Scenario.cfg [Scenario.vector_of_alice])
               {| initialized := false |} Scenario.flaky_provisioning []))
     = [].
Proof.
  cbv zeta.
  destruct (index_provisioning_poll Scenario.cfg) as (_ & Hinit & Hupsert & _).
  destruct (Hinit {| initialized := false |} Scenario.flaky_provisioning [])
    as (Hres & Hs & Hlen & Hdelays & _).
  - vm_compute. reflexivity.
  - vm_compute. repeat constructor.
  - destruct (Hupsert [Scenario.vector_of_alice] {| initialized := false |}
                Scenario.flaky_provisioning []) as [Hnone _].
    + discriminate.
    + reflexivity.
    + vm_compute. reflexivity.
    + split; [|split; [exact Hlen|split; [exact Hdelays|split; [|exact Hnone]]]].
      * vm_compute. reflexivity.
      * vm_compute. reflexivity.
Defined.
